(** * slug_sweep_deduper: the deduplication sweep engine

    A shallow embedding of [slug_sweep_deduper/utils.py], [filters.py],
    [service.py] and [sweep.py], and the properties of the sweep engine
    stated over it.

    Conventions.
    - Python [str] values are [string]s of ASCII text.
    - Python [int] values are [Z].
    - A call that may raise returns a [result].  An exception derived from
      [Exception] is a value of [exn]; [KeyboardInterrupt], which is not
      derived from it and passes an [except Exception] clause, is the other
      thing a [raise] may carry.
    - [pathlib] is modelled in its POSIX flavour ([PosixPath]); the file
      store holds no symbolic links, so [Path.resolve] is the lexical
      normalisation that [os.path.realpath] performs on such a store. *)

From Stdlib Require Import List String Ascii ZArith Lia Bool Permutation Sorted.
Import ListNotations.
Local Open Scope string_scope.
Local Open Scope Z_scope.

Set Implicit Arguments.

(** ** Exceptions and results *)

Inductive exc_class :=
| ValueError | RuntimeError | IndexError | EOFError | IntegrityError | OSError.

Record exn := Exn { exn_class : exc_class; exn_str : string }.

(** What is raised: an exception derived from [Exception], or
    [KeyboardInterrupt]. *)
Inductive raised :=
| Exception (e : exn)
| KeyboardInterrupt.

Coercion Exception : exn >-> raised.

Inductive result (A : Type) :=
| Ok (a : A)
| Raise (e : raised).
Arguments Ok {A} a.
Arguments Raise {A} e.

(** ** Strings as Python uses them *)

Module PyStr.

(** [s.split(c)] for a one-character separator. *)
Fixpoint split_on (c : ascii) (s : string) : list string :=
  match s with
  | EmptyString => [EmptyString]
  | String a s' =>
      if Ascii.eqb a c then EmptyString :: split_on c s'
      else match split_on c s' with
           | [] => [String a EmptyString]
           | h :: t => String a h :: t
           end
  end.

(** [c.join(l)]. *)
Fixpoint join (c : string) (l : list string) : string :=
  match l with
  | [] => EmptyString
  | [x] => x
  | x :: rest => x ++ c ++ join c rest
  end.

Fixpoint contains (c : ascii) (s : string) : bool :=
  match s with
  | EmptyString => false
  | String a s' => Ascii.eqb a c || contains c s'
  end.

(** [s[:1] == c]. *)
Definition starts_with_char (c : ascii) (s : string) : bool :=
  match s with
  | String a _ => Ascii.eqb a c
  | EmptyString => false
  end.

(** The characters [str.isspace] accepts in ASCII text. *)
Definition is_space (a : ascii) : bool :=
  let n := nat_of_ascii a in
  (Nat.leb 9 n && Nat.leb n 13) || (Nat.leb 28 n && Nat.leb n 32).

Fixpoint lstrip (s : string) : string :=
  match s with
  | String a s' => if is_space a then lstrip s' else s
  | EmptyString => EmptyString
  end.

Fixpoint rstrip (s : string) : string :=
  match s with
  | EmptyString => EmptyString
  | String a s' =>
      match rstrip s' with
      | EmptyString => if is_space a then EmptyString else String a EmptyString
      | r => String a r
      end
  end.

Definition strip (s : string) : string := rstrip (lstrip s).

Definition lower_char (a : ascii) : ascii :=
  let n := nat_of_ascii a in
  if Nat.leb 65 n && Nat.leb n 90 then ascii_of_nat (n + 32) else a.

Fixpoint lower (s : string) : string :=
  match s with
  | EmptyString => EmptyString
  | String a s' => String (lower_char a) (lower s')
  end.

(** [s.split()]: the maximal runs of non-space characters. *)
Fixpoint split_ws_aux (cur : string) (s : string) : list string :=
  match s with
  | EmptyString => match cur with EmptyString => [] | _ => [cur] end
  | String a s' =>
      if is_space a
      then match cur with
           | EmptyString => split_ws_aux EmptyString s'
           | _ => cur :: split_ws_aux EmptyString s'
           end
      else split_ws_aux (cur ++ String a EmptyString) s'
  end.

Definition split_ws (s : string) : list string := split_ws_aux EmptyString s.

Definition digit_val (a : ascii) : option Z :=
  let n := nat_of_ascii a in
  if Nat.leb 48 n && Nat.leb n 57 then Some (Z.of_nat (n - 48)) else None.

(** The digits of an [int] literal: decimal digits, single underscores
    allowed between two digits.  [prev] tells whether the previous
    character was a digit. *)
Fixpoint digits_val (acc : Z) (prev : bool) (s : string) : option Z :=
  match s with
  | EmptyString => if prev then Some acc else None
  | String a s' =>
      match digit_val a with
      | Some d => digits_val (10 * acc + d) true s'
      | None =>
          if Ascii.eqb a "_" && prev
          then match s' with
               | String b _ =>
                   match digit_val b with
                   | Some _ => digits_val acc false s'
                   | None => None
                   end
               | EmptyString => None
               end
          else None
      end
  end.

(** [int(s)] on a token without white space; [None] is [ValueError]. *)
Definition py_int (s : string) : option Z :=
  match s with
  | String "-" s' => option_map Z.opp (digits_val 0 false s')
  | String "+" s' => digits_val 0 false s'
  | _ => digits_val 0 false s
  end.

End PyStr.

(** ** pathlib, POSIX flavour *)

Module Pathlib.
Import PyStr.

(** A parsed path: its root (empty, one slash or two) and its segments. *)
Record path := mkPath { root : string; tail : list string }.

(** [posixpath.splitroot]: one leading slash, or exactly two, is a root. *)
Definition splitroot (p : string) : string * string :=
  match p with
  | String "/" (String "/" (String "/" r)) => ("/", String "/" (String "/" r))
  | String "/" (String "/" r) => ("//", r)
  | String "/" r => ("/", r)
  | _ => (EmptyString, p)
  end.

Definition keep_segment (x : string) : bool :=
  negb (String.eqb x EmptyString) && negb (String.eqb x ".").

(** [PurePosixPath(s)]: the root, then the segments between slashes
    without the empty ones and the dots. *)
Definition parse (s : string) : path :=
  let (r, rel) := splitroot s in
  mkPath r (filter keep_segment (split_on "/" rel)).

(** [p.parts]. *)
Definition parts (p : path) : list string :=
  match root p with
  | EmptyString => tail p
  | r => r :: tail p
  end.

(** [str(p)]. *)
Definition render (p : path) : string :=
  match root p, tail p with
  | EmptyString, [] => "."
  | r, t => r ++ join "/" t
  end.

(** Joining one more segment: a rooted segment replaces what came before. *)
Definition join1 (p q : path) : path :=
  match root q with
  | EmptyString => mkPath (root p) (tail p ++ tail q)
  | _ => q
  end.

(** [p.joinpath] applied to a sequence of segments. *)
Definition joinpath (p : path) (segments : list string) : path :=
  fold_left (fun acc s => join1 acc (parse s)) segments p.

(** What the host tells about users and the working directory. *)
Record host := mkHost {
  os_expanduser : string -> string;   (* os.path.expanduser on "~..." *)
  getcwd : list string                (* segments of os.getcwd() *)
}.

Section WithHost.
Variable h : host.

(** [p.expanduser()]. *)
Definition expanduser (p : path) : result path :=
  match root p, tail p with
  | EmptyString, first :: rest =>
      if starts_with_char "~" first then
        let homedir := os_expanduser h first in
        if starts_with_char "~" homedir
        then Raise (Exn RuntimeError "Could not determine home directory.")
        else let hp := parse homedir in
             Ok (mkPath (root hp) (tail hp ++ rest))
      else Ok p
  | _, _ => Ok p
  end.

(** The walk of [os.path.realpath] over the segments, no symbolic links. *)
Fixpoint realpath_walk (stack : list string) (segs : list string) : list string :=
  match segs with
  | [] => stack
  | s :: rest =>
      if String.eqb s ".." then realpath_walk (removelast stack) rest
      else realpath_walk (stack ++ [s]) rest
  end.

(** [p.resolve()]. *)
Definition resolve (p : path) : path :=
  match root p with
  | EmptyString => mkPath "/" (realpath_walk (getcwd h) (tail p))
  | _ => mkPath "/" (realpath_walk [] (tail p))
  end.

Fixpoint strip_prefix (pre l : list string) : option (list string) :=
  match pre, l with
  | [], _ => Some l
  | x :: pre', y :: l' => if String.eqb x y then strip_prefix pre' l' else None
  | _ :: _, [] => None
  end.

(** [p.relative_to(other)]. *)
Definition relative_to (p other : path) : result path :=
  if String.eqb (root p) (root other) then
    match strip_prefix (tail other) (tail p) with
    | Some rest => Ok (mkPath EmptyString rest)
    | None => Raise (Exn ValueError
                (render p ++ " is not in the subpath of " ++ render other))
    end
  else Raise (Exn ValueError
                (render p ++ " is not in the subpath of " ++ render other)).

End WithHost.
End Pathlib.

(** ** utils.py: the path mapping *)

Module Utils.
Import PyStr Pathlib.

(** [build_file_path(base_mount, server_dir, filename=None)]. *)
Definition build_file_path (base_mount server_dir : string)
           (filename : option string) : path :=
  let rel_parts := parts (parse server_dir) in
  let full_path := joinpath (parse base_mount) rel_parts in
  match filename with
  | Some f => if String.eqb f EmptyString then full_path else joinpath full_path [f]
  | None => full_path
  end.

Section WithHost.
Variable h : host.

(** [extract_server_dirs(full_path, base_mount)]. *)
Definition extract_server_dirs (full_path base_mount : path) : result string :=
  match expanduser h full_path with
  | Raise e => Raise e
  | Ok f =>
      let full := resolve h f in
      match expanduser h base_mount with
      | Raise e => Raise e
      | Ok b =>
          let base := resolve h b in
          match relative_to full base with
          | Ok rel_parts => Ok (render rel_parts)
          | Raise _ =>
              Raise (Exn ValueError
                       (render full ++ " is not under " ++ render base))
          end
      end
  end.

(** [normalize_path_for_query(user_path, mount)]. *)
Definition normalize_path_for_query (user_path mount : string) : result string :=
  extract_server_dirs (parse user_path) (parse mount).

End WithHost.

(** A canonical relative path: relative, free of [..], and equal to the
    rendering of its own segments. *)
Definition is_canonical (p : string) : bool :=
  let q := parse p in
  String.eqb (root q) EmptyString &&
  forallb (fun s => negb (String.eqb s "..")) (tail q) &&
  String.eqb (render q) p.

(** A mount point is an absolute path. *)
Definition is_mount (m : string) : bool :=
  negb (String.eqb (root (parse m)) EmptyString).

End Utils.

(** ** filters.py and the filter pipeline of sweep.py *)

(** A file record, as [find_duplicates_in_location] returns it. *)
Record file_record := mkFileRecord {
  archives_app_file_id : Z;
  file_server_directories : string;
  filename : string;
  size : Z;
  loc_count : Z
}.

(** One physical location, as [get_all_locations_for_file] returns it. *)
Record location := mkLocation {
  loc_directories : string;
  loc_filename : string;
  loc_size : Z
}.

Module Filters.
Import PyStr.

Definition filter_func := file_record -> bool.

Definition no_filter : filter_func := fun _ => false.

(** [s.endswith(suffix)]. *)
Fixpoint endswith (s suffix : string) : bool :=
  String.eqb s suffix ||
  match s with
  | EmptyString => false
  | String _ s' => endswith s' suffix
  end.

Definition exclude_cad_fonts : filter_func := fun r =>
  let name := lower (filename r) in
  existsb (endswith name) [".shx"; ".lin"; ".pat"; ".pcx"].

Definition exclude_system_files : filter_func := fun r =>
  let name := lower (filename r) in
  existsb (String.eqb name) ["thumbs.db"; ".ds_store"; "desktop.ini"].

(** The list the module ships with. *)
Definition ACTIVE_FILTERS : list filter_func := [no_filter].

(** The inner loop of [apply_filters]: leaves at the first filter that
    answers [True]. *)
Fixpoint excluded_by (filters : list filter_func) (record : file_record) : bool :=
  match filters with
  | [] => false
  | filter_func :: rest =>
      if filter_func record then true else excluded_by rest record
  end.

(** [apply_filters(file_records)], over the list of active filters. *)
Fixpoint apply_filters (filters : list filter_func)
         (file_records : list file_record) : list file_record :=
  match file_records with
  | [] => []
  | record :: rest =>
      if excluded_by filters record
      then apply_filters filters rest
      else record :: apply_filters filters rest
  end.

End Filters.

(** ** service.py: the catalog (ArchivesAppDB) *)

Module Catalog.

(** A row of [file_locations]. *)
Record fl_row := mkFl {
  fl_file_id : Z;
  fl_directories : string;
  fl_filename : string
}.

(** A row of [files]. *)
Record f_row := mkF { f_id : Z; f_size : Z }.

Record catalog := mkCatalog {
  file_locations : list fl_row;
  files : list f_row
}.

(** [file_locations fl JOIN files f ON f.id = fl.file_id].  SQL leaves the
    order of the rows open; here they come in the order of the tables. *)
Definition joined (c : catalog) : list (fl_row * f_row) :=
  flat_map (fun fl =>
              map (fun f => (fl, f))
                  (filter (fun f => f_id f =? fl_file_id fl) (files c)))
           (file_locations c).

(** The rows the [WHERE] of the [locs] query keeps. *)
Definition locs_rows (c : catalog) (target_location : string)
  : list (fl_row * f_row) :=
  filter (fun r => String.eqb (fl_directories (fst r)) target_location)
         (joined c).

(** [COUNT( * ) OVER (PARTITION BY fl.file_id)] over a set of rows. *)
Definition partition_count (rows : list (fl_row * f_row)) (file_id : Z) : Z :=
  Z.of_nat (List.length (filter (fun r => fl_file_id (fst r) =? file_id) rows)).

(** [find_duplicates_in_location(target_location)]: the window count runs
    over the rows of [locs], which the [WHERE] has already cut down. *)
Definition find_duplicates_in_location (c : catalog) (target_location : string)
  : list file_record :=
  let locs := locs_rows c target_location in
  map (fun r => mkFileRecord (fl_file_id (fst r)) (fl_directories (fst r))
                             (fl_filename (fst r)) (f_size (snd r))
                             (partition_count locs (fl_file_id (fst r))))
      (filter (fun r => 1 <? partition_count locs (fl_file_id (fst r))) locs).

(** [get_all_locations_for_file(file_id)]. *)
Definition get_all_locations_for_file (c : catalog) (file_id : Z)
  : list location :=
  map (fun r => mkLocation (fl_directories (fst r)) (fl_filename (fst r))
                           (f_size (snd r)))
      (filter (fun r => fl_file_id (fst r) =? file_id) (joined c)).

(** What the interface of the duplicate finder asks for: the entries at
    the target location whose file has more than one location anywhere
    in the catalog. *)
Definition duplicate_count (c : catalog) (file_id : Z) : Z :=
  partition_count (joined c) file_id.

Definition find_duplicates_spec (c : catalog) (target_location : string)
  : list file_record :=
  map (fun r => mkFileRecord (fl_file_id (fst r)) (fl_directories (fst r))
                             (fl_filename (fst r)) (f_size (snd r))
                             (duplicate_count c (fl_file_id (fst r))))
      (filter (fun r => 1 <? duplicate_count c (fl_file_id (fst r)))
              (locs_rows c target_location)).

End Catalog.

(** ** service.py: the ledger (SweepDB) *)

Module Ledger.

Inductive decision := kept_all | deleted_some | deleted_all.

Record processed_location := mkProcessedLocation {
  pl_id : Z;
  pl_location_path : string;
  pl_datetime : string;
  pl_duplicates_count : Z;
  pl_completed : Z
}.

Record processed_file := mkProcessedFile {
  pf_id : Z;
  pf_archives_app_file_id : Z;
  pf_processed_location_id : Z;
  pf_decision : decision;
  pf_processed_at : string
}.

Record deleted_file := mkDeletedFile {
  df_id : Z;
  df_processed_file_id : Z;
  df_path : string;
  df_file_size : Z;
  df_deleted_at : string
}.

Record error_row := mkError {
  er_id : Z;
  er_operation : string;
  er_message : string;
  er_timestamp : string;
  er_context : option string
}.

(** The four tables, each with the last identifier [AUTOINCREMENT] gave
    out (the [sqlite_sequence] entry of the table). *)
Record ledger := mkLedger {
  processed_locations : list processed_location;
  processed_files : list processed_file;
  deleted_files : list deleted_file;
  errors : list error_row;
  seq_processed_locations : Z;
  seq_processed_files : Z;
  seq_deleted_files : Z;
  seq_errors : Z
}.

(** [_create_new_db]: the four empty tables. *)
Definition create_new_db : ledger := mkLedger [] [] [] [] 0 0 0 0.

(** The two copies of the ledger file: the one in the working directory
    and the one at [SWEEP_DB_LOCATION].  A file that is there holds the
    four tables. *)
Record ledger_files := mkFiles {
  staging_file : option ledger;
  storage_file : option ledger
}.

(** [SweepDB.__init__], as the ledger the connection is opened on: the
    stored copy when there is one; else the staging file that is there,
    which [CREATE TABLE IF NOT EXISTS] leaves as it is; else a new one. *)
Definition open_db (disk : ledger_files) : ledger :=
  match storage_file disk with
  | Some l => l
  | None =>
      match staging_file disk with
      | Some l => l
      | None => create_new_db
      end
  end.

(** [is_file_processed(archives_app_file_id)]. *)
Definition is_file_processed (l : ledger) (file_id : Z) : bool :=
  existsb (fun r => pf_archives_app_file_id r =? file_id) (processed_files l).

(** [record_processed_location(location_path, duplicates_count, completed)]. *)
Definition record_processed_location (l : ledger) (now : string)
           (location_path : string) (duplicates_count : Z) (completed : bool)
  : ledger * Z :=
  let id := seq_processed_locations l + 1 in
  (mkLedger
     (processed_locations l ++
        [mkProcessedLocation id location_path now duplicates_count
                             (if completed then 1 else 0)])
     (processed_files l) (deleted_files l) (errors l)
     id (seq_processed_files l) (seq_deleted_files l) (seq_errors l),
   id).

(** [record_processed_file(archives_app_file_id, processed_location_id,
    decision)]: the [UNIQUE] column refuses a second row for a file. *)
Definition record_processed_file (l : ledger) (now : string)
           (file_id : Z) (processed_location_id : Z) (d : decision)
  : result (ledger * Z) :=
  if is_file_processed l file_id
  then Raise (Exn IntegrityError
                "UNIQUE constraint failed: processed_files.archives_app_file_id")
  else
    let id := seq_processed_files l + 1 in
    Ok (mkLedger
          (processed_locations l)
          (processed_files l ++
             [mkProcessedFile id file_id processed_location_id d now])
          (deleted_files l) (errors l)
          (seq_processed_locations l) id (seq_deleted_files l) (seq_errors l),
        id).

(** [record_deleted_file(processed_file_id, path, file_size)]. *)
Definition record_deleted_file (l : ledger) (now : string)
           (processed_file_id : Z) (path : string) (file_size : Z) : ledger :=
  let id := seq_deleted_files l + 1 in
  mkLedger
    (processed_locations l) (processed_files l)
    (deleted_files l ++ [mkDeletedFile id processed_file_id path file_size now])
    (errors l)
    (seq_processed_locations l) (seq_processed_files l) id (seq_errors l).

(** [log_error(operation, message, context)]. *)
Definition log_error (l : ledger) (now : string)
           (operation message : string) (context : option string) : ledger :=
  let id := seq_errors l + 1 in
  mkLedger
    (processed_locations l) (processed_files l) (deleted_files l)
    (errors l ++ [mkError id operation message now context])
    (seq_processed_locations l) (seq_processed_files l) (seq_deleted_files l) id.

(** The uniqueness the schema declares on [archives_app_file_id]. *)
Definition file_ids_unique (l : ledger) : Prop :=
  NoDup (map pf_archives_app_file_id (processed_files l)).

End Ledger.

(** ** sweep.py: the sweep engine *)

Module Sweep.
Import PyStr Pathlib Utils Filters Catalog Ledger.

(** *** The collaborators and the world they act on *)

(** What the world outside answers.  Each answer is indexed by the number
    of the interaction ([tick]), so that two calls with equal arguments
    may be answered differently. *)
(** How the answers of the operator end: the input is closed, and
    [Prompt.ask] raises [EOFError], or the operator presses Ctrl-C at the
    prompt, and it raises [KeyboardInterrupt]. *)
Inductive ending := InputClosed | CtrlC.

Record env := mkEnv {
  env_host : host;
  env_catalog : catalog;
  file_server_mount : string;                (* FILE_SERVER_MOUNT *)
  active_filters : list filter_func;         (* filters.ACTIVE_FILTERS *)
  enqueue_answer : nat -> string -> option string;
      (* ArchivesApp.enqueue_delete_edit: [None] is (True, None),
         [Some msg] is (False, msg) *)
  sync_failure : nat -> option exn;          (* sync_to_storage raising *)
  time_time : nat -> Z;                      (* time.time(), in seconds *)
  utcnow : nat -> string;                    (* datetime.utcnow().isoformat() *)
  open_answer : nat -> string -> bool;       (* TempFileManager.copy_and_open *)
  answers_end : ending
      (* what the operator does at the prompt after the last answer *)
}.

Record world := mkWorld {
  db : ledger;                (* the staging copy *)
  storage : option ledger;    (* the stored copy, if any *)
  tick : nat
}.

Inductive sync_kind := OnQuit | Periodic | Final.

(** What an observer of a sweep sees, in order. *)
Inductive event :=
| Presented (file_id : Z) (locations : list location)
| Opened (path : string) (ok : bool)
| Enqueued (path : string) (failure : option string)
| Synced (kind : sync_kind) (failure : option exn)
| Closed.

Record out (A : Type) := mkOut {
  res : result A;
  st : world;
  evs : list event
}.

(** A computation over the world that may raise and leaves events. *)
Definition M (A : Type) := world -> out A.

Definition ret {A} (a : A) : M A := fun w => mkOut (Ok a) w [].

Definition raise {A} (e : exn) : M A := fun w => mkOut (Raise e) w [].

Definition bind {A B} (m : M A) (k : A -> M B) : M B := fun w =>
  let o := m w in
  match res o with
  | Ok a => let o' := k a (st o) in
            mkOut (res o') (st o') (evs o ++ evs o')%list
  | Raise e => mkOut (Raise e) (st o) (evs o)
  end.

Notation "x <- m ;; k" := (bind m (fun x => k))
  (at level 61, m at next level, right associativity).
Notation "m ;;; k" := (bind m (fun _ => k))
  (at level 61, right associativity).

Definition emit (e : event) : M unit := fun w => mkOut (Ok tt) w [e].

(** [KeyboardInterrupt] raised. *)
Definition interrupt {A} : M A := fun w => mkOut (Raise KeyboardInterrupt) w [].

Definition lift {A} (r : result A) : M A :=
  match r with
  | Ok a => ret a
  | Raise e => fun w => mkOut (Raise e) w []
  end.

(** Reading an oracle takes the current tick and moves to the next. *)
Definition oracle {A} (f : nat -> A) : M A := fun w =>
  mkOut (Ok (f (tick w))) (mkWorld (db w) (storage w) (S (tick w))) [].

Definition get_db : M ledger := fun w => mkOut (Ok (db w)) w [].

Definition put_db (l : ledger) : M unit := fun w =>
  mkOut (Ok tt) (mkWorld l (storage w) (tick w)) [].

(** [l[i]] on a Python list. *)
Definition py_index {A} (l : list A) (i : Z) : result A :=
  let n := Z.of_nat (List.length l) in
  let j := if i <? 0 then i + n else i in
  if (0 <=? j) && (j <? n)
  then match nth_error l (Z.to_nat j) with
       | Some a => Ok a
       | None => Raise (Exn IndexError "list index out of range")
       end
  else Raise (Exn IndexError "list index out of range").

Section WithEnv.
Variable E : env.

(** *** The ledger operations, on the staging copy *)

Definition sweep_db_is_file_processed (file_id : Z) : M bool :=
  l <- get_db ;; ret (is_file_processed l file_id).

Definition sweep_db_record_processed_location
           (location_path : string) (duplicates_count : Z) (completed : bool)
  : M Z :=
  now <- oracle (utcnow E) ;;
  l <- get_db ;;
  let (l', id) := record_processed_location l now location_path
                                            duplicates_count completed in
  put_db l' ;;; ret id.

Definition sweep_db_record_processed_file
           (file_id processed_location_id : Z) (d : decision) : M Z :=
  now <- oracle (utcnow E) ;;
  l <- get_db ;;
  r <- lift (record_processed_file l now file_id processed_location_id d) ;;
  put_db (fst r) ;;; ret (snd r).

Definition sweep_db_record_deleted_file
           (processed_file_id : Z) (path : string) (file_size : Z) : M unit :=
  now <- oracle (utcnow E) ;;
  l <- get_db ;;
  put_db (record_deleted_file l now processed_file_id path file_size).

Definition sweep_db_log_error
           (operation message : string) (context : option string) : M unit :=
  now <- oracle (utcnow E) ;;
  l <- get_db ;;
  put_db (log_error l now operation message context).

(** [sync_to_storage()]: the stored copy becomes the staging copy, or the
    copy fails and the stored copy stays as it was. *)
Definition sync_to_storage (kind : sync_kind) : M unit := fun w =>
  match sync_failure E (tick w) with
  | Some e =>
      mkOut (Raise e) (mkWorld (db w) (storage w) (S (tick w)))
            [Synced kind (Some e)]
  | None =>
      mkOut (Ok tt) (mkWorld (db w) (Some (db w)) (S (tick w)))
            [Synced kind None]
  end.

(** [ArchivesApp.enqueue_delete_edit(target_path)]: never raises. *)
Definition enqueue_delete_edit (target_path : string) : M (option string) :=
  r <- oracle (fun t => enqueue_answer E t target_path) ;;
  emit (Enqueued target_path r) ;;; ret r.

(** *** Grouping *)

Fixpoint group_append (grouped : list (Z * list file_record))
         (record : file_record) : list (Z * list file_record) :=
  match grouped with
  | [] => [(archives_app_file_id record, [record])]
  | (k, v) :: rest =>
      if k =? archives_app_file_id record
      then (k, (v ++ [record])%list) :: rest
      else (k, v) :: group_append rest record
  end.

(** [group_by_file_id(file_records)]: a dict, in insertion order. *)
Definition group_by_file_id (file_records : list file_record)
  : list (Z * list file_record) :=
  fold_left group_append file_records [].

(** *** Commands *)

Inductive command_type := Invalid | Keep | Skip | Quit | OpenCmd | Delete.

Fixpoint int_all (tokens : list string) : option (list Z) :=
  match tokens with
  | [] => Some []
  | x :: rest =>
      match py_int x with
      | Some n => option_map (cons n) (int_all rest)
      | None => None
      end
  end.

(** [parse_user_command(command)]. *)
Definition parse_user_command (command : string) : command_type * list Z :=
  let command := lower (strip command) in
  if String.eqb command EmptyString then (Invalid, [])
  else if String.eqb command "c" then (Keep, [])
  else if String.eqb command "s" then (Skip, [])
  else if String.eqb command "q" then (Quit, [])
  else match command with
       | String "o" (String " " _) =>
           match split_ws command with
           | _ :: x :: _ =>
               match py_int x with
               | Some num => (OpenCmd, [num])
               | None => (Invalid, [])
               end
           | _ => (Invalid, [])
           end
       | _ =>
           match int_all (split_ws command) with
           | Some numbers => (Delete, numbers)
           | None => (Invalid, [])
           end
       end.

(** [str(build_file_path(file_server_mount, loc['file_server_directories'],
    loc['filename']))]. *)
Definition location_path_of (loc : location) : string :=
  render (build_file_path (file_server_mount E) (loc_directories loc)
                          (Some (loc_filename loc))).

(** [display_file_locations]: the title reads [locations[0]]. *)
Definition display_file_locations (file_id : Z) (locations : list location)
  : M unit :=
  _ <- lift (py_index locations 0) ;;
  emit (Presented file_id locations).

(** [valid_numbers = [n for n in numbers if 1 <= n <= len(all_locations)]]. *)
Definition valid_numbers_of (numbers : list Z) (all_locations : list location)
  : list Z :=
  filter (fun n => (1 <=? n) && (n <=? Z.of_nat (List.length all_locations)))
         numbers.

(** The decision a confirmed delete records. *)
Definition delete_decision (valid_numbers : list Z)
           (all_locations : list location) : decision :=
  if Nat.eqb (List.length valid_numbers) (List.length all_locations)
  then deleted_all else deleted_some.

(** The loop over the selected numbers of a confirmed delete. *)
Fixpoint delete_selected (processed_file_id : Z)
         (all_locations : list location) (valid_numbers : list Z) : M unit :=
  match valid_numbers with
  | [] => ret tt
  | num :: rest =>
      loc <- lift (py_index all_locations (num - 1)) ;;
      let file_path := location_path_of loc in
      r <- enqueue_delete_edit file_path ;;
      match r with
      | None =>
          sweep_db_record_deleted_file processed_file_id file_path (loc_size loc)
      | Some error =>
          sweep_db_log_error "delete" error (Some file_path)
      end ;;;
      delete_selected processed_file_id all_locations rest
  end.

(** How the prompt loop of one file is left: [break], or [return]. *)
Inductive flow := Break | Return.

Definition confirmed (confirm : string) : bool :=
  let c := lower confirm in String.eqb c "yes" || String.eqb c "y".

Definition eof {A} : M A := raise (Exn EOFError "EOF when reading a line").

(** [Prompt.ask] when no answer is left. *)
Definition prompt_end {A} : M A :=
  match answers_end E with
  | InputClosed => eof
  | CtrlC => interrupt
  end.

(** The [while True] loop over the answers of the operator for one file.
    [inputs] are the values [Prompt.ask] returns from here on; the
    remaining ones are handed back. *)
Fixpoint review_prompts (location_id file_id : Z)
         (all_locations : list location) (inputs : list string)
  : M (flow * list string) :=
  match inputs with
  | [] => prompt_end
  | user_input :: rest =>
      match parse_user_command user_input with
      | (Invalid, _) =>
          review_prompts location_id file_id all_locations rest
      | (Quit, _) =>
          sync_to_storage OnQuit ;;; ret (Return, rest)
      | (Skip, _) => ret (Break, rest)
      | (Keep, _) =>
          sweep_db_record_processed_file file_id location_id kept_all ;;;
          ret (Break, rest)
      | (OpenCmd, numbers) =>
          num <- lift (py_index numbers 0) ;;
          (if (1 <=? num) && (num <=? Z.of_nat (List.length all_locations))
           then
             loc <- lift (py_index all_locations (num - 1)) ;;
             let file_path := location_path_of loc in
             ok <- oracle (fun t => open_answer E t file_path) ;;
             emit (Opened file_path ok)
           else ret tt) ;;;
          review_prompts location_id file_id all_locations rest
      | (Delete, numbers) =>
          let valid_numbers := valid_numbers_of numbers all_locations in
          match valid_numbers with
          | [] => review_prompts location_id file_id all_locations rest
          | _ :: _ =>
              match rest with
              | [] => prompt_end
              | confirm :: rest' =>
                  if negb (confirmed confirm)
                  then review_prompts location_id file_id all_locations rest'
                  else
                    let decision := delete_decision valid_numbers all_locations in
                    processed_file_id <-
                      sweep_db_record_processed_file file_id location_id decision ;;
                    delete_selected processed_file_id all_locations valid_numbers ;;;
                    ret (Break, rest')
              end
          end
      end
  end.

Definition sync_interval : Z := 600.

(** The [for] loop over the files to review, with the periodic sync. *)
Fixpoint review_files (location_id : Z) (file_ids : list Z)
         (last_sync_time : Z) (inputs : list string) : M flow :=
  match file_ids with
  | [] => ret Break
  | file_id :: more =>
      let all_locations := get_all_locations_for_file (env_catalog E) file_id in
      display_file_locations file_id all_locations ;;;
      r <- review_prompts location_id file_id all_locations inputs ;;
      match fst r with
      | Return => ret Return
      | Break =>
          current_time <- oracle (time_time E) ;;
          if sync_interval <=? current_time - last_sync_time
          then sync_to_storage Periodic ;;;
               review_files location_id more current_time (snd r)
          else review_files location_id more last_sync_time (snd r)
      end
  end.

(** The records that go on to review: filtered, then without the files
    the ledger knows. *)
Definition unprocessed_records (l : ledger) (duplicate_records : list file_record)
  : list file_record :=
  filter (fun rec => negb (is_file_processed l (archives_app_file_id rec)))
         (apply_filters (active_filters E) duplicate_records).

(** The body of the [try] of [run_sweep]. *)
Definition sweep_body (location_path : string) (inputs : list string) : M flow :=
  target_location <-
    lift (normalize_path_for_query (env_host E) location_path
                                   (file_server_mount E)) ;;
  let duplicate_records :=
    find_duplicates_in_location (env_catalog E) target_location in
  match duplicate_records with
  | [] => ret Return
  | _ :: _ =>
      l <- get_db ;;
      let grouped := group_by_file_id (unprocessed_records l duplicate_records) in
      match grouped with
      | [] => ret Return
      | _ :: _ =>
          location_id <-
            sweep_db_record_processed_location
              location_path (Z.of_nat (List.length grouped)) false ;;
          last_sync_time <- oracle (time_time E) ;;
          review_files location_id (map fst grouped) last_sync_time inputs
      end
  end.

(** The [except Exception] clause of [run_sweep]: it takes an exception
    derived from [Exception]; [KeyboardInterrupt] passes it. *)
Definition sweep_except (location_path : string) (r : result flow) : M unit :=
  match r with
  | Ok _ => ret tt
  | Raise (Exception e) =>
      sweep_db_log_error "sweep" (exn_str e) (Some location_path)
  | Raise KeyboardInterrupt => ret tt
  end.

(** The [finally] clause of [run_sweep]. *)
Definition sweep_finally : M unit :=
  sync_to_storage Final ;;; emit Closed.

(** What leaves [run_sweep]: what the [finally] clause raises; else the
    [KeyboardInterrupt] that passed the [except] clause; else nothing. *)
Definition sweep_result (body : result flow) (final : result unit)
  : result unit :=
  match final, body with
  | Ok _, Raise KeyboardInterrupt => Raise KeyboardInterrupt
  | _, _ => final
  end.

(** [run_sweep(location_path, env_config)], from the ledger files [disk]
    and with the operator answering [inputs]. *)
Definition run_sweep (location_path : string) (disk : ledger_files)
           (inputs : list string) : out unit :=
  let w0 := mkWorld (open_db disk) (storage_file disk) 0 in
  let body := sweep_body location_path inputs w0 in
  let handled := sweep_except location_path (res body) (st body) in
  let final := sweep_finally (st handled) in
  mkOut (sweep_result (res body) (res final)) (st final)
        (evs body ++ evs handled ++ evs final)%list.

End WithEnv.

(** *** Notions used to state what a sweep keeps *)

(** A computation is safe, for a property [I] of the ledger and a set
    [okev] of events, when it keeps [I] and leaves events of [okev] only. *)
Definition safe (I : ledger -> Prop) (okev : event -> Prop)
           {A} (m : M A) : Prop :=
  forall w, I (db w) -> I (db (st (m w))) /\ Forall okev (evs (m w)).

(** Every event but a failed periodic sync. *)
Definition not_failed_checkpoint (ev : event) : Prop :=
  match ev with
  | Synced Periodic (Some _) => False
  | _ => True
  end.

(** Every event but the presentation of a file outside [file_ids]. *)
Definition presents_only (file_ids : list Z) (ev : event) : Prop :=
  match ev with
  | Presented file_id _ => In file_id file_ids
  | _ => True
  end.

(** Every event but the presentation of a file the ledger [l] knows. *)
Definition presents_unprocessed (l : ledger) (ev : event) : Prop :=
  match ev with
  | Presented file_id _ => is_file_processed l file_id = false
  | _ => True
  end.

(** The events of the final clause: the sync, and the close after it when
    the sync went through. *)
Definition final_events (failure : option exn) : list event :=
  Synced Final failure ::
  match failure with
  | None => [Closed]
  | Some _ => []
  end.

(** The columns of an error row that the engine chooses. *)
Definition error_columns (r : error_row) : string * string * option string :=
  (er_operation r, er_message r, er_context r).

(** The columns of a deletion row that the engine chooses. *)
Definition deletion_columns (r : deleted_file) : Z * string * Z :=
  (df_processed_file_id r, df_path r, df_file_size r).

(** One attempt of the delete loop: the location, and the failure the
    deletion service reported, if any. *)
Definition attempt : Type := location * option string.

Definition enqueue_events (E : env) (attempts : list attempt) : list event :=
  map (fun a => Enqueued (location_path_of E (fst a)) (snd a)) attempts.

(** The deletion rows that the attempts call for: one per accepted one. *)
Definition deletions_of (E : env) (processed_file_id : Z)
           (attempts : list attempt) : list (Z * string * Z) :=
  flat_map (fun a => match snd a with
                     | None => [(processed_file_id, location_path_of E (fst a),
                                 loc_size (fst a))]
                     | Some _ => []
                     end) attempts.

(** The error rows that the attempts call for: one per refused one. *)
Definition delete_errors_of (E : env) (attempts : list attempt)
  : list (string * string * option string) :=
  flat_map (fun a => match snd a with
                     | Some msg => [("delete", msg,
                                     Some (location_path_of E (fst a)))]
                     | None => []
                     end) attempts.

(** The location a number of the table stands for. *)
Definition location_number (all_locations : list location) (n : Z)
  : option location :=
  nth_error all_locations (Z.to_nat (n - 1)).

Definition in_range (all_locations : list location) (n : Z) : bool :=
  (1 <=? n) && (n <=? Z.of_nat (List.length all_locations)).

(** In the events of a computation a failed periodic sync comes last, and
    its exception is what the computation raises. *)
Definition failed_checkpoint_ends {A} (m : M A) : Prop :=
  forall w pre e post,
    evs (m w) = (pre ++ Synced Periodic (Some e) :: post)%list ->
    post = [] /\ res (m w) = Raise e.


(** The review loop survives a failed periodic sync: the failure of the
    checkpoint is not what ends the loop. *)
Definition checkpoint_failure_survived : Prop :=
  forall (E : env) location_id file_ids last_sync_time inputs w e,
    In (Synced Periodic (Some e))
       (evs (review_files E location_id file_ids last_sync_time inputs w)) ->
    res (review_files E location_id file_ids last_sync_time inputs w)
    <> Raise e.

End Sweep.

(** ** Concrete catalogs and sessions *)

Module Examples.
Import Pathlib Filters Catalog Ledger Sweep.

Definition host0 : host := mkHost (fun s => s) ["home"; "operator"].

(** File 7 is at [A/x.dwg], [A/y.dwg] and [B/x.dwg]; file 8 is at [A/p.pdf]
    and [A/q.pdf]. *)
Definition catalog0 : catalog :=
  mkCatalog [mkFl 7 "A" "x.dwg"; mkFl 7 "A" "y.dwg"; mkFl 7 "B" "x.dwg";
             mkFl 8 "A" "p.pdf"; mkFl 8 "A" "q.pdf"]
            [mkF 7 500000; mkF 8 1024].

Definition locations7 : list location :=
  [mkLocation "A" "x.dwg" 500000; mkLocation "A" "y.dwg" 500000;
   mkLocation "B" "x.dwg" 500000].

Definition locations8 : list location :=
  [mkLocation "A" "p.pdf" 1024; mkLocation "A" "q.pdf" 1024].

Definition disk_full : exn := Exn OSError "No space left on device".

(** A session on [catalog0]: every enqueue is accepted but those of the
    paths in [refused]; the clock advances ten minutes per reading; the
    sync at tick [failing_sync] fails. *)
Definition env0 (refused : list string) (failing_sync : option nat) : env :=
  mkEnv host0 catalog0 "/mnt/records" ACTIVE_FILTERS
        (fun _ p => if existsb (String.eqb p) refused
                    then Some "Connection timed out" else None)
        (fun t => match failing_sync with
                  | Some n => if Nat.eqb t n then Some disk_full else None
                  | None => None
                  end)
        (fun t => 600 * Z.of_nat t)
        (fun _ => "2026-01-01T00:00:00")
        (fun _ _ => true)
        InputClosed.


(** A ledger that already holds a decision on file 7. *)
Definition ledger7 : ledger :=
  mkLedger [mkProcessedLocation 1 "/mnt/records/A" "2025-12-31T00:00:00" 2 0]
           [mkProcessedFile 1 7 1 kept_all "2025-12-31T00:00:00"]
           [] [] 1 1 0 0.

End Examples.

(** ** Well-formed ledgers *)

Module LedgerShape.
Import Ledger.

(** The identifiers of a table: increasing down the table, positive, and
    none beyond the last one given out. *)
Definition ids_ok (ids : list Z) (seq : Z) : Prop :=
  0 <= seq /\ StronglySorted Z.lt ids /\ Forall (fun i => 0 < i <= seq) ids.

Definition ledger_ids_ok (l : ledger) : Prop :=
  ids_ok (map pl_id (processed_locations l)) (seq_processed_locations l)
  /\ ids_ok (map pf_id (processed_files l)) (seq_processed_files l)
  /\ ids_ok (map df_id (deleted_files l)) (seq_deleted_files l)
  /\ ids_ok (map er_id (errors l)) (seq_errors l).

(** The references the schema declares as foreign keys: every deletion
    names a processed file of the ledger, every processed file a
    processed location of the ledger. *)
Definition references_ok (l : ledger) : Prop :=
  (forall d, In d (deleted_files l) ->
             In (df_processed_file_id d) (map pf_id (processed_files l)))
  /\ (forall f, In f (processed_files l) ->
                In (pf_processed_location_id f)
                   (map pl_id (processed_locations l))).

End LedgerShape.

(** ** Notions for whole sessions *)

Module Sessions.
Import Ledger Sweep.

(** Every event but a call of the deletion service. *)
Definition not_enqueued (ev : event) : Prop :=
  match ev with
  | Enqueued _ _ => False
  | _ => True
  end.

(** Every event but the presentation of a file. *)
Definition not_presented (ev : event) : Prop :=
  match ev with
  | Presented _ _ => False
  | _ => True
  end.

(** The files presented to the operator, in order. *)
Definition presented_ids (events : list event) : list Z :=
  flat_map (fun ev => match ev with
                      | Presented file_id _ => [file_id]
                      | _ => []
                      end) events.

(** The files a sweep of [target_location] has to review, from the
    ledger [l]. *)
Definition review_list (E : env) (l : ledger) (target_location : string)
  : list Z :=
  map fst (group_by_file_id
             (unprocessed_records E l
                (Catalog.find_duplicates_in_location (env_catalog E)
                                                     target_location))).

End Sessions.

(** ** cli.py: configuration and the ledger commands *)

Module Cli.
Import Pathlib Ledger.

(** How a command ends: it returns, or leaves through [sys.exit]. *)
Inductive outcome (A : Type) :=
| Returned (a : A)
| Exit (code : Z).
Arguments Returned {A} a.
Arguments Exit {A} code.

(** A dict with string keys, in insertion order. *)
Definition dict := list (string * string).

Fixpoint dict_get (d : dict) (key : string) : option string :=
  match d with
  | [] => None
  | (k, v) :: rest => if String.eqb k key then Some v else dict_get rest key
  end.

(** [d[key] = value]. *)
Fixpoint dict_set (d : dict) (key value : string) : dict :=
  match d with
  | [] => [(key, value)]
  | (k, v) :: rest =>
      if String.eqb k key then (k, value) :: rest
      else (k, v) :: dict_set rest key value
  end.

Definition required_vars : list string :=
  ["ARCHIVES_DB_HOST"; "ARCHIVES_DB_NAME"; "ARCHIVES_DB_USER";
   "ARCHIVES_DB_PASSWORD"; "ARCHIVES_APP_URL"; "ARCHIVES_APP_USER";
   "ARCHIVES_APP_PASSWORD"; "SWEEP_DB_LOCATION"; "FILE_SERVER_MOUNT"].

(** The loop of [load_env_config] over the required variables. *)
Fixpoint collect_vars (getenv : string -> option string) (vars : list string)
         (config : dict) (missing_vars : list string) : dict * list string :=
  match vars with
  | [] => (config, missing_vars)
  | var :: rest =>
      match getenv var with
      | None => collect_vars getenv rest config (missing_vars ++ [var])
      | Some value =>
          collect_vars getenv rest (dict_set config var value) missing_vars
      end
  end.

(** Whether the environment holds the variable. *)
Definition is_set (getenv : string -> option string) (var : string) : bool :=
  match getenv var with
  | Some _ => true
  | None => false
  end.

(** [load_env_config()], over the environment as [os.getenv] reads it
    once the [.env] file is loaded. *)
Definition load_env_config (getenv : string -> option string) : outcome dict :=
  match collect_vars getenv required_vars [] [] with
  | (config, []) => Returned config
  | (_, _ :: _) => Exit 1
  end.

(** The keys of the configuration that [run_sweep] reads. *)
Definition keys_read_by_run_sweep : list string :=
  ["SWEEP_DB_LOCATION"; "ARCHIVES_DB_HOST"; "ARCHIVES_DB_NAME";
   "ARCHIVES_DB_USER"; "ARCHIVES_DB_PASSWORD"; "ARCHIVES_APP_USER";
   "ARCHIVES_APP_PASSWORD"; "ARCHIVES_APP_URL"; "FILE_SERVER_MOUNT"].

(** [SweepDB.__init__]: the stored copy is copied over the staging file
    when there is one; else the tables are created in the staging file
    where they are missing, which keeps a staging file that is there. *)
Definition sweepdb_init (fs : ledger_files) : ledger_files :=
  match storage_file fs with
  | Some s => mkFiles (Some s) (Some s)
  | None =>
      mkFiles (Some match staging_file fs with
                    | Some l => l
                    | None => create_new_db
                    end)
              None
  end.

(** [SweepDB.sync_to_storage] on the files. *)
Definition sweepdb_sync (fs : ledger_files) : ledger_files :=
  mkFiles (staging_file fs) (staging_file fs).

(** What a ledger command meets: the environment, the answer to the
    overwrite question, and whether the sync fails. *)
Record session := mkSession {
  getenv : string -> option string;
  confirm_overwrite : bool;
  sync_fails : bool
}.

(** The end of [init_db] and [sync_db]: open the ledger, sync it back. *)
Definition open_and_sync (s : session) (fs : ledger_files) : ledger_files * outcome unit :=
  let fs1 := sweepdb_init fs in
  if sync_fails s then (fs1, Exit 1) else (sweepdb_sync fs1, Returned tt).

(** The command [sync-db]. *)
Definition sync_db (s : session) (fs : ledger_files) : ledger_files * outcome unit :=
  match load_env_config (getenv s) with
  | Exit code => (fs, Exit code)
  | Returned _ =>
      match staging_file fs with
      | None => (fs, Exit 1)
      | Some _ => open_and_sync s fs
      end
  end.

(** The command [init-db]. *)
Definition init_db (s : session) (fs : ledger_files) : ledger_files * outcome unit :=
  match load_env_config (getenv s) with
  | Exit code => (fs, Exit code)
  | Returned _ =>
      match storage_file fs with
      | Some _ =>
          if confirm_overwrite s
          then open_and_sync s (mkFiles (staging_file fs) None)
          else (fs, Returned tt)
      | None => open_and_sync s fs
      end
  end.


(** The path the command [sweep] hands to [run_sweep]:
    [str(Path(location))]. *)
Definition sweep_location (location : string) : string :=
  render (parse location).

End Cli.

(** ** utils.py: [split_path] *)

Module SplitPath.
Import PyStr.

Inductive filepath_type := Windows | Linux | Unknown.

Definition is_letter (a : ascii) : bool :=
  let n := nat_of_ascii a in
  (Nat.leb 65 n && Nat.leb n 90) || (Nat.leb 97 n && Nat.leb n 122).

Definition newline : ascii := ascii_of_nat 10.

Definition backslash : ascii := ascii_of_nat 92.

(** The rest of a match of [.+$] after its first character: characters
    that are no newline, up to the end of the text or to a newline that
    ends it. *)
Fixpoint dots_to_end (s : string) : bool :=
  match s with
  | EmptyString => true
  | String a s' =>
      if Ascii.eqb a newline then String.eqb s' EmptyString
      else dots_to_end s'
  end.

(** [re.match(r"^[A-Za-z]:\\(.+)$", filepath)]. *)
Definition matches_windows_pattern (filepath : string) : bool :=
  match filepath with
  | String c (String colon (String bs (String a rest))) =>
      is_letter c && Ascii.eqb colon ":" && Ascii.eqb bs backslash
      && negb (Ascii.eqb a newline) && dots_to_end rest
  | _ => false
  end.

Definition nonempty (s : string) : bool := negb (String.eqb s EmptyString).

(** [re.match(r"^/([^/]+/)*[^/]+$", filepath)]. *)
Definition matches_linux_pattern (filepath : string) : bool :=
  match filepath with
  | String slash rest =>
      Ascii.eqb slash "/" && forallb nonempty (split_on "/" rest)
  | EmptyString => false
  end.

(** [detect_filepath_type(filepath)]. *)
Definition detect_filepath_type (filepath : string) : filepath_type :=
  if matches_windows_pattern filepath then Windows
  else if matches_linux_pattern filepath then Linux
  else Unknown.

(** The loop of [split_windows_path] over the characters. *)
Fixpoint windows_loop (filepath curr_part : string) (parts : list string)
  : list string * string :=
  match filepath with
  | EmptyString => (parts, curr_part)
  | String char rest =>
      if Ascii.eqb char backslash
      then if nonempty curr_part
           then windows_loop rest EmptyString (parts ++ [curr_part])%list
           else windows_loop rest curr_part parts
      else windows_loop rest (curr_part ++ String char EmptyString) parts
  end.

(** [split_windows_path(filepath)]. *)
Definition split_windows_path (filepath : string) : list string :=
  let start :=
    match filepath with
    | String a (String b rest) =>
        if Ascii.eqb a backslash && Ascii.eqb b backslash
        then ([String a (String b EmptyString)], rest, false)
        else if Ascii.eqb b ":"
             then ([String a (String b EmptyString)], rest, true)
             else ([], filepath, false)
    | _ => ([], filepath, false)
    end in
  let '(parts0, filepath', is_absolute) := start in
  let (parts1, curr_part) := windows_loop filepath' EmptyString parts0 in
  let parts2 := if nonempty curr_part then (parts1 ++ [curr_part])%list
                else parts1 in
  if negb is_absolute && match parts2 with [] => true | _ => false end
  then (parts2 ++ [curr_part])%list
  else parts2.

(** The text up to and with its last slash, and the text after it. *)
Fixpoint cut_at_last_slash (p : string) : option (string * string) :=
  match p with
  | EmptyString => None
  | String a p' =>
      match cut_at_last_slash p' with
      | Some (head, tail) => Some (String a head, tail)
      | None => if Ascii.eqb a "/" then Some (String a EmptyString, p')
                else None
      end
  end.

Fixpoint all_slashes (s : string) : bool :=
  match s with
  | EmptyString => true
  | String a s' => Ascii.eqb a "/" && all_slashes s'
  end.

(** [s.rstrip('/')]. *)
Fixpoint rstrip_slashes (s : string) : string :=
  match s with
  | EmptyString => EmptyString
  | String a s' =>
      match rstrip_slashes s' with
      | EmptyString => if Ascii.eqb a "/" then EmptyString
                       else String a EmptyString
      | r => String a r
      end
  end.

(** [os.path.split(p)] of [posixpath]. *)
Definition os_path_split (p : string) : string * string :=
  match cut_at_last_slash p with
  | None => (EmptyString, p)
  | Some (head, tail) =>
      (if all_slashes head then head else rstrip_slashes head, tail)
  end.

(** The loop of [split_other_path]; [None] when the rounds allowed are
    used up. *)
Fixpoint split_other_loop (rounds : nat) (path : string)
         (allparts : list string) : option (list string) :=
  match rounds with
  | O => None
  | S rounds' =>
      let parts := os_path_split path in
      if String.eqb (fst parts) path then Some (fst parts :: allparts)
      else if String.eqb (snd parts) path then Some (snd parts :: allparts)
      else split_other_loop rounds' (fst parts) (snd parts :: allparts)
  end.

(** [split_other_path(path)]: the loop shortens the path in every round,
    so one round more than the path has characters is enough. *)
Definition split_other_path (path : string) : option (list string) :=
  split_other_loop (S (String.length path)) path [].

(** [split_path(path)]. *)
Definition split_path (path : string) : option (list string) :=
  match detect_filepath_type path with
  | Windows => Some (split_windows_path path)
  | _ => split_other_path path
  end.

(** A text that ends in a character other than a slash. *)
Fixpoint ends_in_name (s : string) : bool :=
  match s with
  | EmptyString => false
  | String a EmptyString => negb (Ascii.eqb a "/")
  | String _ s' => ends_in_name s'
  end.

(** A part of a path as [split_path] gives it back: not empty, no slash. *)
Definition clean (x : string) : bool :=
  nonempty x && negb (contains "/" x).

End SplitPath.

(** * Properties *)

Import PyStr Pathlib Utils Filters Catalog Ledger Sweep Examples.
Local Open Scope list_scope.
Unset Implicit Arguments.

(** ** The path mapping *)

Section PathFacts.

Lemma split_on_no_sep c s x :
  In x (split_on c s) -> contains c x = false.
Proof.
  revert x. induction s as [|a s IH]; simpl; intros x Hx.
  - destruct Hx as [<-|[]]. reflexivity.
  - destruct (Ascii.eqb a c) eqn:Hac.
    + destruct Hx as [<-|Hx]; [reflexivity | now apply IH].
    + destruct (split_on c s) as [|hd tl] eqn:Hs.
      * destruct Hx as [<-|[]]. simpl. now rewrite Hac.
      * destruct Hx as [<-|Hx].
        -- simpl. rewrite Hac. apply IH. now left.
        -- apply IH. now right.
Qed.

Lemma split_on_single c s :
  contains c s = false -> split_on c s = [s].
Proof.
  induction s as [|a s IH]; simpl; intros H; [reflexivity|].
  apply orb_false_iff in H. destruct H as [Hac Hs].
  rewrite Hac, (IH Hs). reflexivity.
Qed.

Lemma splitroot_relative s :
  contains "/" s = false -> splitroot s = (EmptyString, s).
Proof.
  destruct s as [|a s]; [reflexivity|]. simpl. intros H.
  apply orb_false_iff in H. destruct H as [Ha _].
  unfold splitroot.
  destruct (Ascii.eqb_spec a "/") as [->|Hne]; [discriminate|].
  destruct a as [[] [] [] [] [] [] [] []]; try reflexivity.
  now elim Hne.
Qed.

(** A clean segment parses to itself. *)
Lemma parse_segment s :
  keep_segment s = true -> contains "/" s = false ->
  parse s = mkPath EmptyString [s].
Proof.
  intros Hk Hc. unfold parse.
  rewrite (splitroot_relative _ Hc), (split_on_single _ _ Hc).
  simpl. now rewrite Hk.
Qed.

Lemma tail_parse_clean p x :
  In x (tail (parse p)) -> keep_segment x = true /\ contains "/" x = false.
Proof.
  unfold parse. destruct (splitroot p) as [r rel]. simpl.
  intros H. apply filter_In in H. destruct H as [Hin Hk].
  split; [assumption | now apply split_on_no_sep with (s := rel)].
Qed.

Lemma joinpath_clean segs : forall p,
  (forall x, In x segs -> parse x = mkPath EmptyString [x]) ->
  joinpath p segs = mkPath (root p) (tail p ++ segs).
Proof.
  unfold joinpath.
  induction segs as [|s segs IH]; intros p H; simpl.
  - rewrite app_nil_r. now destruct p.
  - rewrite IH by (intros x Hx; apply H; now right).
    rewrite (H s) by now left.
    unfold join1. simpl. now rewrite <- app_assoc.
Qed.

Lemma realpath_walk_app stack a b :
  realpath_walk stack (a ++ b) = realpath_walk (realpath_walk stack a) b.
Proof.
  revert stack. induction a as [|s a IH]; intros stack; simpl; [reflexivity|].
  destruct (String.eqb s ".."); apply IH.
Qed.

Lemma realpath_walk_plain segs : forall stack,
  forallb (fun s => negb (String.eqb s "..")) segs = true ->
  realpath_walk stack segs = stack ++ segs.
Proof.
  induction segs as [|s segs IH]; intros stack H; simpl.
  - now rewrite app_nil_r.
  - simpl in H. apply andb_true_iff in H. destruct H as [Hs H].
    apply negb_true_iff in Hs. rewrite Hs, (IH _ H), <- app_assoc.
    reflexivity.
Qed.

Lemma strip_prefix_app pre rest :
  strip_prefix pre (pre ++ rest) = Some rest.
Proof.
  induction pre as [|x pre IH]; simpl; [reflexivity|].
  now rewrite String.eqb_refl.
Qed.

Lemma expanduser_rooted h p :
  root p <> EmptyString -> expanduser h p = Ok p.
Proof.
  unfold expanduser. destruct (root p); [congruence | reflexivity].
Qed.

Lemma resolve_rooted h p :
  root p <> EmptyString ->
  resolve h p = mkPath "/" (realpath_walk [] (tail p)).
Proof.
  unfold resolve. destruct (root p); [congruence | reflexivity].
Qed.

Lemma split_on_app c x y :
  contains c x = false ->
  split_on c (x ++ String c y)%string = x :: split_on c y.
Proof.
  induction x as [|a x IH]; simpl; intros H.
  - now rewrite Ascii.eqb_refl.
  - apply orb_false_iff in H. destruct H as [Hac Hx].
    now rewrite Hac, (IH Hx).
Qed.

Lemma split_on_join segs :
  segs <> [] ->
  (forall x, In x segs -> contains "/" x = false) ->
  split_on "/" (join "/" segs) = segs.
Proof.
  induction segs as [|x segs IH]; intros Hne Hclean; [congruence|].
  destruct segs as [|y segs].
  - simpl. apply split_on_single. apply Hclean. now left.
  - change (join "/" (x :: y :: segs))
      with (x ++ String "/" (join "/" (y :: segs)))%string.
    rewrite split_on_app by (apply Hclean; now left).
    rewrite IH; [reflexivity | discriminate |].
    intros z Hz. apply Hclean. now right.
Qed.

Lemma filter_keep_clean segs :
  (forall x, In x segs -> keep_segment x = true) ->
  filter keep_segment segs = segs.
Proof.
  induction segs as [|x segs IH]; intros H; simpl; [reflexivity|].
  rewrite (H x) by now left.
  rewrite IH; [reflexivity|]. intros z Hz. apply H. now right.
Qed.

(** The text of a rooted path with clean segments parses back to it. *)
Lemma parse_render_rooted r segs :
  r = "/" \/ r = "//" ->
  (forall x, In x segs -> keep_segment x = true /\ contains "/" x = false) ->
  parse (render (mkPath r segs)) = mkPath r segs.
Proof.
  intros Hr Hclean.
  destruct segs as [|s segs].
  - destruct Hr as [-> | ->]; reflexivity.
  - assert (Hsplit : split_on "/" (join "/" (s :: segs)) = s :: segs).
    { apply split_on_join; [discriminate|]. intros x Hx. now apply Hclean. }
    assert (Hkeep : filter keep_segment (s :: segs) = s :: segs).
    { apply filter_keep_clean. intros x Hx. now apply Hclean. }
    destruct (Hclean s (or_introl eq_refl)) as [Hs Hslash].
    assert (Hjoin : exists a t, join "/" (s :: segs) = String a t /\
                               Ascii.eqb a "/" = false).
    { destruct s as [|a s]; [discriminate|].
      simpl in Hslash. apply orb_false_iff in Hslash.
      destruct Hslash as [Ha _].
      destruct segs; simpl; eauto. }
    destruct Hjoin as (a & t & Hj & Ha).
    assert (Hroot : splitroot (r ++ join "/" (s :: segs))%string
                    = (r, join "/" (s :: segs))).
    { rewrite Hj.
      destruct Hr as [-> | ->]; simpl;
        destruct a as [[] [] [] [] [] [] [] []]; try reflexivity;
        discriminate. }
    unfold render, parse. simpl root. simpl tail.
    destruct Hr as [-> | ->]; rewrite Hroot, Hsplit, Hkeep; reflexivity.
Qed.

Lemma splitroot_roots m :
  fst (splitroot m) = EmptyString \/
  fst (splitroot m) = "/" \/ fst (splitroot m) = "//".
Proof.
  destruct m as [|a m]; [now left|].
  destruct a as [[] [] [] [] [] [] [] []]; try (now left).
  destruct m as [|b m]; [right; now left|].
  destruct b as [[] [] [] [] [] [] [] []]; try (right; now left).
  destruct m as [|c m]; [right; now right|].
  destruct c as [[] [] [] [] [] [] [] []]; try (right; now right).
  right. now left.
Qed.

Lemma root_parse m :
  root (parse m) <> EmptyString ->
  root (parse m) = "/" \/ root (parse m) = "//".
Proof.
  unfold parse. pose proof (splitroot_roots m) as H.
  destruct (splitroot m) as [r rel]. simpl in *. tauto.
Qed.

(** Localising a canonical path puts its segments after the mount's. *)
Lemma build_file_path_canonical M P :
  is_canonical P = true ->
  build_file_path M P None =
  mkPath (root (parse M)) (tail (parse M) ++ tail (parse P)).
Proof.
  unfold is_canonical, build_file_path. intros H.
  apply andb_true_iff in H. destruct H as [H _].
  apply andb_true_iff in H. destruct H as [Hroot _].
  apply String.eqb_eq in Hroot.
  unfold parts. rewrite Hroot.
  apply joinpath_clean. intros x Hx.
  destruct (tail_parse_clean _ _ Hx). now apply parse_segment.
Qed.

Lemma extract_build_canonical h M P :
  is_canonical P = true ->
  is_mount M = true ->
  extract_server_dirs h (build_file_path M P None) (parse M) = Ok P.
Proof.
  intros HP HM.
  rewrite (build_file_path_canonical M P HP).
  unfold is_canonical in HP.
  apply andb_true_iff in HP. destruct HP as [HP Hrender].
  apply andb_true_iff in HP. destruct HP as [Hroot Hdots].
  apply String.eqb_eq in Hroot. apply String.eqb_eq in Hrender.
  unfold is_mount in HM. apply negb_true_iff in HM.
  apply String.eqb_neq in HM.
  unfold extract_server_dirs.
  rewrite expanduser_rooted by (simpl; assumption).
  rewrite (expanduser_rooted h (parse M) HM).
  rewrite resolve_rooted by (simpl; assumption).
  rewrite (resolve_rooted h (parse M) HM).
  simpl tail. rewrite realpath_walk_app.
  rewrite (realpath_walk_plain _ _ Hdots).
  unfold relative_to. simpl root. simpl tail.
  rewrite strip_prefix_app. simpl.
  rewrite <- Hrender at 2. unfold render. simpl. now rewrite Hroot.
Qed.

(** The text of the local path of a canonical path parses back to it. *)
Lemma parse_render_build M P :
  is_canonical P = true ->
  is_mount M = true ->
  parse (render (build_file_path M P None)) = build_file_path M P None.
Proof.
  intros HP HM.
  rewrite (build_file_path_canonical M P HP).
  unfold is_mount in HM. apply negb_true_iff in HM.
  apply String.eqb_neq in HM.
  apply parse_render_rooted; [now apply root_parse|].
  intros x Hx. apply in_app_or in Hx.
  destruct Hx as [Hx|Hx]; now apply tail_parse_clean in Hx.
Qed.

(** C7. Round trip of the path mapping: for every canonical
    forward-slash relative path [P] and every mount point [M], localising
    [P] under [M] with [build_file_path] and mapping the result back
    relative to [M] gives [P] again, both when the local path is handed
    to [extract_server_dirs] as it is and when its text is handed to
    [normalize_path_for_query]. *)
Theorem path_round_trip (h : host) (M P : string) :
  is_canonical P = true ->
  is_mount M = true ->
  extract_server_dirs h (build_file_path M P None) (parse M) = Ok P /\
  normalize_path_for_query h (render (build_file_path M P None)) M = Ok P.
Proof.
  intros HP HM. split.
  - now apply extract_build_canonical.
  - unfold normalize_path_for_query.
    rewrite (parse_render_build M P HP HM).
    now apply extract_build_canonical.
Qed.

Lemma path_round_trip_witness :
  is_canonical "42xx   Student Housing West/4203/F - Bid Documents" = true /\
  is_mount "/mnt/records" = true /\
  extract_server_dirs host0
    (build_file_path "/mnt/records"
                     "42xx   Student Housing West/4203/F - Bid Documents" None)
    (parse "/mnt/records")
  = Ok "42xx   Student Housing West/4203/F - Bid Documents" /\
  normalize_path_for_query host0
    (render (build_file_path "/mnt/records"
               "42xx   Student Housing West/4203/F - Bid Documents" None))
    "/mnt/records"
  = Ok "42xx   Student Housing West/4203/F - Bid Documents".
Proof.
  split; [reflexivity|]. split; [reflexivity|].
  apply (path_round_trip host0 "/mnt/records"
           "42xx   Student Housing West/4203/F - Bid Documents");
    reflexivity.
Defined.

(** The same through [normalize_path_for_query], which takes the local
    path as text. *)
Example normalize_path_example :
  normalize_path_for_query (mkHost (fun s => s) [])
    "/mnt/records/49xx Long Marine Lab/../42xx/4203/" "/mnt/records"
  = Ok "42xx/4203".
Proof. reflexivity. Qed.

(** Outside the canonical paths the mapping normalises, or fails. *)
Example round_trip_normalises :
  extract_server_dirs (mkHost (fun s => s) [])
    (build_file_path "/mnt/records" "a//b/" None) (parse "/mnt/records")
  = Ok "a/b".
Proof. reflexivity. Qed.

Example round_trip_outside_mount :
  extract_server_dirs (mkHost (fun s => s) [])
    (build_file_path "/mnt/records" "/a/b" None) (parse "/mnt/records")
  = Raise (Exn ValueError "/a/b is not under /mnt/records").
Proof. reflexivity. Qed.

End PathFacts.

(** ** The filter pipeline *)

Section FilterFacts.

(** The early exit of the inner loop computes the disjunction. *)
Lemma excluded_by_existsb filters record :
  excluded_by filters record = existsb (fun f => f record) filters.
Proof.
  induction filters as [|f filters IH]; simpl; [reflexivity|].
  rewrite IH. now destruct (f record).
Qed.

Lemma apply_filters_filter filters records :
  apply_filters filters records =
  filter (fun r => negb (excluded_by filters r)) records.
Proof.
  induction records as [|r records IH]; simpl; [reflexivity|].
  rewrite IH. now destruct (excluded_by filters r).
Qed.

Lemma existsb_Permutation {A} (f : A -> bool) l l' :
  Permutation l l' -> existsb f l = existsb f l'.
Proof.
  induction 1; simpl.
  - reflexivity.
  - now rewrite IHPermutation.
  - now destruct (f x), (f y).
  - congruence.
Qed.

(** C8. For every sequence of file records and every list of
    predicates, [apply_filters] returns exactly the subsequence of the
    records that no predicate excludes (exclusion is the disjunction of
    the predicates), and every permutation of the predicate list gives
    the same result, hence excludes the same records. *)
Theorem apply_filters_any_order
        (filters filters' : list filter_func) (records : list file_record) :
  Permutation filters filters' ->
  apply_filters filters records =
    filter (fun r => negb (existsb (fun f => f r) filters)) records
  /\ apply_filters filters' records = apply_filters filters records.
Proof.
  intros HP. split.
  - rewrite apply_filters_filter. apply filter_ext.
    intros r. now rewrite excluded_by_existsb.
  - rewrite !apply_filters_filter. apply filter_ext. intros r.
    rewrite !excluded_by_existsb. f_equal. symmetry.
    now apply existsb_Permutation.
Qed.

Lemma apply_filters_any_order_witness :
  Permutation [exclude_cad_fonts; exclude_system_files]
              [exclude_system_files; exclude_cad_fonts] /\
  apply_filters [exclude_cad_fonts; exclude_system_files]
    [mkFileRecord 1 "A" "romans.SHX" 10 2;
     mkFileRecord 2 "A" "plan.dwg" 20 2;
     mkFileRecord 3 "A" "Thumbs.db" 30 3]
  = filter (fun r => negb (existsb (fun f => f r)
                             [exclude_cad_fonts; exclude_system_files]))
      [mkFileRecord 1 "A" "romans.SHX" 10 2;
       mkFileRecord 2 "A" "plan.dwg" 20 2;
       mkFileRecord 3 "A" "Thumbs.db" 30 3]
  /\ apply_filters [exclude_system_files; exclude_cad_fonts]
       [mkFileRecord 1 "A" "romans.SHX" 10 2;
        mkFileRecord 2 "A" "plan.dwg" 20 2;
        mkFileRecord 3 "A" "Thumbs.db" 30 3]
     = apply_filters [exclude_cad_fonts; exclude_system_files]
         [mkFileRecord 1 "A" "romans.SHX" 10 2;
          mkFileRecord 2 "A" "plan.dwg" 20 2;
          mkFileRecord 3 "A" "Thumbs.db" 30 3].
Proof.
  split; [apply perm_swap|].
  apply (apply_filters_any_order
           [exclude_cad_fonts; exclude_system_files]
           [exclude_system_files; exclude_cad_fonts]).
  apply perm_swap.
Defined.

Example apply_filters_example :
  apply_filters [exclude_cad_fonts; exclude_system_files]
    [mkFileRecord 1 "A" "romans.SHX" 10 2;
     mkFileRecord 2 "A" "plan.dwg" 20 2;
     mkFileRecord 3 "A" "Thumbs.db" 30 3]
  = [mkFileRecord 2 "A" "plan.dwg" 20 2].
Proof. reflexivity. Qed.

(** With the list the module ships, nothing is excluded. *)
Lemma apply_active_filters records :
  apply_filters ACTIVE_FILTERS records = records.
Proof.
  induction records as [|r records IH]; simpl; [reflexivity|].
  now rewrite IH.
Qed.

End FilterFacts.

(** ** Discovery of duplicates *)

Section CatalogFacts.

(** What the query returns: the rows at the target location whose file
    has more than one row at the target location. *)
Lemma find_duplicates_in_location_spec c target_location rec :
  In rec (find_duplicates_in_location c target_location) <->
  exists fl f,
    In (fl, f) (joined c) /\
    fl_directories fl = target_location /\
    1 < partition_count (locs_rows c target_location) (fl_file_id fl) /\
    rec = mkFileRecord (fl_file_id fl) (fl_directories fl) (fl_filename fl)
            (f_size f)
            (partition_count (locs_rows c target_location) (fl_file_id fl)).
Proof.
  unfold find_duplicates_in_location. rewrite in_map_iff. split.
  - intros [[fl f] [Hrec Hin]]. apply filter_In in Hin.
    destruct Hin as [Hin Hcount]. unfold locs_rows in Hin at 1.
    apply filter_In in Hin. destruct Hin as [Hin Hdir]. simpl in *.
    exists fl, f. repeat split; try easy.
    + now apply String.eqb_eq.
    + now apply Z.ltb_lt.
  - intros (fl & f & Hin & Hdir & Hcount & ->).
    exists (fl, f). split; [reflexivity|].
    apply filter_In. split.
    + unfold locs_rows. apply filter_In. split; [assumption|].
      simpl. now apply String.eqb_eq.
    + simpl. now apply Z.ltb_lt.
Qed.

(** C1. The discovery of duplicates is to return the catalog entries at
    the target location whose file has more than one location anywhere
    in the catalog.  On the catalog with file 7 at [A/x.dwg] and at
    [B/x.dwg], file 7 has two locations and one of them is [A], and
    [find_duplicates_in_location] returns nothing for [A]: its count runs
    over the rows at the target location only. *)
Theorem find_duplicates_counts_target_rows_only :
  let c := mkCatalog [mkFl 7 "A" "x.dwg"; mkFl 7 "B" "x.dwg"] [mkF 7 500000] in
  duplicate_count c 7 = 2 /\
  get_all_locations_for_file c 7 =
    [mkLocation "A" "x.dwg" 500000; mkLocation "B" "x.dwg" 500000] /\
  find_duplicates_spec c "A" = [mkFileRecord 7 "A" "x.dwg" 500000 2] /\
  find_duplicates_in_location c "A" = [].
Proof. repeat split. Qed.

End CatalogFacts.

(** ** The ledger *)

Section LedgerFacts.

Lemma is_file_processed_In l file_id :
  is_file_processed l file_id = true <->
  In file_id (map pf_archives_app_file_id (processed_files l)).
Proof.
  unfold is_file_processed. rewrite existsb_exists, in_map_iff. split.
  - intros [r [Hin Heq]]. exists r. apply Z.eqb_eq in Heq. now split.
  - intros [r [Heq Hin]]. exists r. split; [assumption | now apply Z.eqb_eq].
Qed.

Lemma unique_record_processed_location l now p n c :
  file_ids_unique l ->
  file_ids_unique (fst (record_processed_location l now p n c)).
Proof. now unfold file_ids_unique. Qed.

Lemma unique_record_deleted_file l now pf p n :
  file_ids_unique l -> file_ids_unique (record_deleted_file l now pf p n).
Proof. now unfold file_ids_unique. Qed.

Lemma unique_log_error l now op msg ctx :
  file_ids_unique l -> file_ids_unique (log_error l now op msg ctx).
Proof. now unfold file_ids_unique. Qed.

Lemma record_processed_file_fresh l now file_id loc d :
  is_file_processed l file_id = false ->
  record_processed_file l now file_id loc d =
  Ok (mkLedger (processed_locations l)
        (processed_files l ++
           [mkProcessedFile (seq_processed_files l + 1) file_id loc d now])
        (deleted_files l) (errors l)
        (seq_processed_locations l) (seq_processed_files l + 1)
        (seq_deleted_files l) (seq_errors l),
      seq_processed_files l + 1).
Proof. unfold record_processed_file. now intros ->. Qed.

Lemma record_processed_file_known l now file_id loc d :
  is_file_processed l file_id = true ->
  record_processed_file l now file_id loc d =
  Raise (Exn IntegrityError
           "UNIQUE constraint failed: processed_files.archives_app_file_id").
Proof. unfold record_processed_file. now intros ->. Qed.

Lemma unique_record_processed_file l now file_id loc d l' id :
  file_ids_unique l ->
  record_processed_file l now file_id loc d = Ok (l', id) ->
  file_ids_unique l'.
Proof.
  unfold record_processed_file, file_ids_unique. intros Hu.
  destruct (is_file_processed l file_id) eqn:Hp; [discriminate|].
  intros [= <- _]. simpl. rewrite map_app. simpl.
  apply NoDup_app_remove_l with (l := []). simpl.
  apply Permutation_NoDup
    with (l := file_id :: map pf_archives_app_file_id (processed_files l)).
  - apply Permutation_cons_append.
  - constructor; [|assumption].
    intros Hin. apply is_file_processed_In in Hin. congruence.
Qed.

End LedgerFacts.

(** ** Running the computations of the engine *)

Section MonadFacts.
Variable E : env.

Lemma out_eta {A} (o : out A) : mkOut (res o) (st o) (evs o) = o.
Proof. now destruct o. Qed.

Lemma bind_ret {A B} (a : A) (k : A -> M B) w : bind (ret a) k w = k a w.
Proof. unfold bind, ret. simpl. apply out_eta. Qed.

Lemma bind_raise {A B} e (k : A -> M B) w :
  bind (raise e) k w = mkOut (Raise e) w [].
Proof. reflexivity. Qed.

Lemma bind_get_db {B} (k : ledger -> M B) w : bind get_db k w = k (db w) w.
Proof. unfold bind, get_db. simpl. apply out_eta. Qed.

Lemma bind_oracle {A B} (f : nat -> A) (k : A -> M B) w :
  bind (oracle f) k w =
  k (f (tick w)) (mkWorld (db w) (storage w) (S (tick w))).
Proof. unfold bind, oracle. simpl. apply out_eta. Qed.

Lemma bind_emit {B} ev (k : unit -> M B) w :
  bind (emit ev) k w =
  mkOut (res (k tt w)) (st (k tt w)) (ev :: evs (k tt w)).
Proof. reflexivity. Qed.

Lemma bind_record_processed_location {B} p n c (k : Z -> M B) w :
  bind (sweep_db_record_processed_location E p n c) k w =
  k (seq_processed_locations (db w) + 1)
    (mkWorld (fst (record_processed_location (db w) (utcnow E (tick w)) p n c))
             (storage w) (S (tick w))).
Proof.
  unfold bind, sweep_db_record_processed_location, oracle, get_db, put_db, ret.
  simpl. apply out_eta.
Qed.

Lemma bind_record_deleted_file {B} pf p n (k : unit -> M B) w :
  bind (sweep_db_record_deleted_file E pf p n) k w =
  k tt (mkWorld (record_deleted_file (db w) (utcnow E (tick w)) pf p n)
                (storage w) (S (tick w))).
Proof.
  unfold bind, sweep_db_record_deleted_file, oracle, get_db, put_db.
  simpl. apply out_eta.
Qed.

Lemma bind_log_error {B} op msg ctx (k : unit -> M B) w :
  bind (sweep_db_log_error E op msg ctx) k w =
  k tt (mkWorld (log_error (db w) (utcnow E (tick w)) op msg ctx)
                (storage w) (S (tick w))).
Proof.
  unfold bind, sweep_db_log_error, oracle, get_db, put_db.
  simpl. apply out_eta.
Qed.

Lemma bind_record_processed_file_fresh {B} file_id loc d (k : Z -> M B) w :
  is_file_processed (db w) file_id = false ->
  bind (sweep_db_record_processed_file E file_id loc d) k w =
  k (seq_processed_files (db w) + 1)
    (mkWorld
       (mkLedger (processed_locations (db w))
          (processed_files (db w) ++
             [mkProcessedFile (seq_processed_files (db w) + 1) file_id loc d
                              (utcnow E (tick w))])
          (deleted_files (db w)) (errors (db w))
          (seq_processed_locations (db w)) (seq_processed_files (db w) + 1)
          (seq_deleted_files (db w)) (seq_errors (db w)))
       (storage w) (S (tick w))).
Proof.
  intros Hp.
  unfold bind, sweep_db_record_processed_file, oracle, get_db, put_db, lift, ret.
  simpl. rewrite (record_processed_file_fresh _ _ _ _ _ Hp). simpl.
  apply out_eta.
Qed.

Lemma bind_enqueue {B} p (k : option string -> M B) w :
  bind (enqueue_delete_edit E p) k w =
  let r := enqueue_answer E (tick w) p in
  let o := k r (mkWorld (db w) (storage w) (S (tick w))) in
  mkOut (res o) (st o) (Enqueued p r :: evs o).
Proof. reflexivity. Qed.

End MonadFacts.

(** ** The sweep engine: what every run keeps *)

Section Safety.
Variable E : env.

(** A property of the ledger that the four recording operations keep. *)
Variable I : ledger -> Prop.
Hypothesis I_record_processed_location : forall l now p n c,
  I l -> I (fst (record_processed_location l now p n c)).
Hypothesis I_record_processed_file : forall l now file_id loc d l' id,
  I l -> record_processed_file l now file_id loc d = Ok (l', id) -> I l'.
Hypothesis I_record_deleted_file : forall l now pf p n,
  I l -> I (record_deleted_file l now pf p n).
Hypothesis I_log_error : forall l now op msg ctx,
  I l -> I (log_error l now op msg ctx).

(** The events a computation may leave. *)
Variable okev : event -> Prop.

Local Abbreviation ok := (safe I okev).

Lemma safe_ret {A} (a : A) : ok (ret a).
Proof. intros w Hw. now split. Qed.

Lemma safe_raise {A} e : ok (@raise A e).
Proof. intros w Hw. now split. Qed.

Lemma safe_prompt_end {A} : ok (@prompt_end E A).
Proof.
  intros w Hw. unfold prompt_end. destruct (answers_end E); now split.
Qed.

Lemma safe_lift {A} (r : result A) : ok (lift r).
Proof. destruct r; [apply safe_ret | intros w Hw; now split]. Qed.

Lemma safe_oracle {A} (f : nat -> A) : ok (oracle f).
Proof. intros w Hw. now split. Qed.

Lemma safe_emit e : okev e -> ok (emit e).
Proof. intros He w Hw. split; [assumption | now constructor]. Qed.

Lemma safe_bind {A B} (m : M A) (k : A -> M B) :
  ok m -> (forall a, ok (k a)) -> ok (bind m k).
Proof.
  intros Hm Hk w Hw. unfold bind.
  destruct (Hm w Hw) as [Hdb Hev].
  destruct (res (m w)) as [a|e]; simpl; [|now split].
  destruct (Hk a (st (m w)) Hdb) as [Hdb' Hev'].
  split; [assumption | now apply Forall_app].
Qed.

Lemma safe_record_processed_location p n c :
  ok (sweep_db_record_processed_location E p n c).
Proof.
  intros w Hw. split; [|constructor].
  apply (I_record_processed_location (db w) (utcnow E (tick w)) p n c Hw).
Qed.

Lemma safe_record_deleted_file pf p n :
  ok (sweep_db_record_deleted_file E pf p n).
Proof.
  intros w Hw. split; [|constructor]. now apply I_record_deleted_file.
Qed.

Lemma safe_log_error op msg ctx : ok (sweep_db_log_error E op msg ctx).
Proof.
  intros w Hw. split; [|constructor]. now apply I_log_error.
Qed.

Lemma safe_record_processed_file file_id loc d :
  ok (sweep_db_record_processed_file E file_id loc d).
Proof.
  intros w Hw. unfold sweep_db_record_processed_file, bind. simpl.
  destruct (record_processed_file (db w) (utcnow E (tick w)) file_id loc d)
    as [[l' id]|e] eqn:Hr; simpl.
  - split; [|constructor].
    now apply (I_record_processed_file _ _ _ _ _ _ _ Hw Hr).
  - now split.
Qed.

Lemma safe_sync kind :
  (forall f, okev (Synced kind f)) -> ok (sync_to_storage E kind).
Proof.
  intros Hk w Hw. unfold sync_to_storage.
  destruct (sync_failure E (tick w)); simpl; split; auto.
Qed.

Hypothesis ok_enqueued : forall p r, okev (Enqueued p r).

Lemma safe_enqueue p : ok (enqueue_delete_edit E p).
Proof.
  intros w Hw. split; [assumption|]. simpl. constructor; [apply ok_enqueued|constructor].
Qed.

Lemma safe_delete_selected pf all_locations valid_numbers :
  ok (delete_selected E pf all_locations valid_numbers).
Proof.
  induction valid_numbers as [|num rest IH]; simpl; [apply safe_ret|].
  apply safe_bind; [apply safe_lift|]. intros loc.
  apply safe_bind; [apply safe_enqueue|]. intros [msg|].
  - apply safe_bind; [apply safe_log_error | intros _; apply IH].
  - apply safe_bind; [apply safe_record_deleted_file | intros _; apply IH].
Qed.

Hypothesis ok_opened : forall p b, okev (Opened p b).
Hypothesis ok_quit : forall f, okev (Synced OnQuit f).

Lemma safe_review_prompts_fuel location_id file_id all_locations n :
  forall inputs, (List.length inputs <= n)%nat ->
  ok (review_prompts E location_id file_id all_locations inputs).
Proof.
  induction n as [|n IH]; intros inputs Hlen.
  - destruct inputs; [apply safe_prompt_end | simpl in Hlen; lia].
  - destruct inputs as [|user_input rest]; [apply safe_prompt_end|].
    simpl in Hlen. simpl.
    assert (Hrest : ok (review_prompts E location_id file_id all_locations rest))
      by (apply IH; lia).
    destruct (parse_user_command user_input) as [[] numbers].
    + exact Hrest.
    + apply safe_bind; [apply safe_record_processed_file | intros _; apply safe_ret].
    + apply safe_ret.
    + apply safe_bind; [now apply safe_sync | intros _; apply safe_ret].
    + apply safe_bind; [apply safe_lift|]. intros num.
      apply safe_bind; [|intros _; exact Hrest].
      destruct ((1 <=? num) && (num <=? Z.of_nat (List.length all_locations))).
      * apply safe_bind; [apply safe_lift|]. intros loc.
        apply safe_bind; [apply safe_oracle|]. intros ok.
        apply safe_emit, ok_opened.
      * apply safe_ret.
    + destruct (valid_numbers_of numbers all_locations) as [|v vs]; [exact Hrest|].
      destruct rest as [|confirm rest']; [apply safe_prompt_end|].
      destruct (negb (confirmed confirm)).
      * apply IH. simpl in Hlen. lia.
      * apply safe_bind; [apply safe_record_processed_file|]. intros pf.
        apply safe_bind; [apply safe_delete_selected | intros _; apply safe_ret].
Qed.

Lemma safe_review_prompts location_id file_id all_locations inputs :
  ok (review_prompts E location_id file_id all_locations inputs).
Proof. now apply safe_review_prompts_fuel with (n := List.length inputs). Qed.

Hypothesis ok_periodic : forall f, okev (Synced Periodic f).

Lemma safe_display file_id locations :
  (forall locs, okev (Presented file_id locs)) ->
  ok (display_file_locations file_id locations).
Proof.
  intros Hp. apply safe_bind; [apply safe_lift|]. intros _.
  apply safe_emit, Hp.
Qed.

Lemma safe_review_files location_id file_ids : forall last_sync_time inputs,
  (forall fid locs, In fid file_ids -> okev (Presented fid locs)) ->
  ok (review_files E location_id file_ids last_sync_time inputs).
Proof.
  induction file_ids as [|file_id more IH]; intros last inputs Hp; simpl.
  - apply safe_ret.
  - assert (Hmore : forall l i,
               ok (review_files E location_id more l i)).
    { intros l i. apply IH. intros fid locs Hin. apply Hp. now right. }
    apply safe_bind.
    { apply safe_display. intros locs. apply Hp. now left. }
    intros _. apply safe_bind; [apply safe_review_prompts|].
    intros [[] rest]; simpl; [|apply safe_ret].
    apply safe_bind; [apply safe_oracle|]. intros current_time.
    destruct (sync_interval <=? current_time - last).
    + apply safe_bind; [now apply safe_sync | intros _; apply Hmore].
    + apply Hmore.
Qed.

End Safety.

(** ** Grouping and the files that go on to review *)

Section ReviewList.

Lemma group_append_keys grouped record k :
  In k (map fst (group_append grouped record)) <->
  In k (map fst grouped) \/ k = archives_app_file_id record.
Proof.
  induction grouped as [|[k0 v] grouped IH]; simpl.
  - intuition.
  - destruct (Z.eqb_spec k0 (archives_app_file_id record)) as [Heq|Hne]; simpl.
    + intuition congruence.
    + rewrite IH. intuition.
Qed.

Lemma fold_group_append_keys records : forall grouped k,
  In k (map fst (fold_left group_append records grouped)) <->
  In k (map fst grouped) \/ In k (map archives_app_file_id records).
Proof.
  induction records as [|r records IH]; intros grouped k; simpl.
  - intuition.
  - rewrite IH, group_append_keys. intuition.
Qed.

(** The keys of the grouping are the file ids of the records. *)
Lemma group_by_file_id_keys records k :
  In k (map fst (group_by_file_id records)) <->
  In k (map archives_app_file_id records).
Proof.
  unfold group_by_file_id. rewrite fold_group_append_keys. simpl. intuition.
Qed.

(** No file the ledger knows is among the files that go on to review. *)
Lemma review_list_unprocessed E l duplicate_records file_id :
  In file_id (map fst (group_by_file_id
                         (unprocessed_records E l duplicate_records))) ->
  is_file_processed l file_id = false.
Proof.
  rewrite group_by_file_id_keys, in_map_iff.
  intros [rec [<- Hin]]. unfold unprocessed_records in Hin.
  apply filter_In in Hin. destruct Hin as [_ H].
  now apply negb_true_iff in H.
Qed.

End ReviewList.

(** ** The structure of a run *)

Section RunFacts.
Variable E : env.

(** The body of the sweep either leaves before the review, with the
    ledger as it was and no event, or is the review loop over the files
    the ledger does not know, started right after the location row. *)
Lemma sweep_body_run location_path inputs w :
  (evs (sweep_body E location_path inputs w) = [] /\
   db (st (sweep_body E location_path inputs w)) = db w /\
   storage (st (sweep_body E location_path inputs w)) = storage w)
  \/
  exists target_location,
    let grouped :=
      group_by_file_id
        (unprocessed_records E (db w)
           (find_duplicates_in_location (env_catalog E) target_location)) in
    let w1 :=
      mkWorld (fst (record_processed_location
                      (db w) (utcnow E (tick w)) location_path
                      (Z.of_nat (List.length grouped)) false))
              (storage w) (S (S (tick w))) in
    sweep_body E location_path inputs w =
    review_files E (seq_processed_locations (db w) + 1) (map fst grouped)
                 (time_time E (S (tick w))) inputs w1.
Proof.
  unfold sweep_body.
  destruct (normalize_path_for_query (env_host E) location_path
              (file_server_mount E)) as [target|e]; [|now left].
  unfold lift. rewrite bind_ret.
  destruct (find_duplicates_in_location (env_catalog E) target) eqn:Hd;
    [now left|].
  rewrite <- Hd, bind_get_db.
  destruct (group_by_file_id (unprocessed_records E (db w)
              (find_duplicates_in_location (env_catalog E) target)))
    as [|g grouped] eqn:Hg; [now left|].
  right. exists target. rewrite Hg.
  now rewrite bind_record_processed_location, bind_oracle.
Qed.

Lemma sweep_except_run location_path r w :
  evs (sweep_except E location_path r w) = [] /\
  storage (st (sweep_except E location_path r w)) = storage w /\
  db (st (sweep_except E location_path r w)) =
    match r with
    | Ok _ => db w
    | Raise (Exception e) =>
        log_error (db w) (utcnow E (tick w)) "sweep" (exn_str e)
                  (Some location_path)
    | Raise KeyboardInterrupt => db w
    end.
Proof. now destruct r as [a|[e|]]. Qed.

Lemma sweep_finally_run w :
  sweep_finally E w =
  match sync_failure E (tick w) with
  | Some e => mkOut (Raise e) (mkWorld (db w) (storage w) (S (tick w)))
                    (final_events (Some e))
  | None => mkOut (Ok tt) (mkWorld (db w) (Some (db w)) (S (tick w)))
                  (final_events None)
  end.
Proof.
  unfold sweep_finally, bind, sync_to_storage.
  now destruct (sync_failure E (tick w)).
Qed.

(** The events of a run: those of the body, then those of the final
    clause. *)
Lemma run_sweep_events location_path disk inputs :
  exists failure,
    evs (run_sweep E location_path disk inputs) =
    evs (sweep_body E location_path inputs (mkWorld (open_db disk) (storage_file disk) 0))
    ++ final_events failure.
Proof.
  unfold run_sweep.
  set (body := sweep_body E location_path inputs _).
  destruct (sweep_except_run location_path (res body) (st body)) as [He _].
  rewrite He, sweep_finally_run. simpl.
  destruct (sync_failure E _) as [e|]; [exists (Some e) | exists None];
    reflexivity.
Qed.

Lemma run_sweep_db location_path disk inputs :
  db (st (run_sweep E location_path disk inputs)) =
  db (st (sweep_except E location_path
            (res (sweep_body E location_path inputs
                    (mkWorld (open_db disk) (storage_file disk) 0)))
            (st (sweep_body E location_path inputs
                   (mkWorld (open_db disk) (storage_file disk) 0))))).
Proof.
  unfold run_sweep. rewrite sweep_finally_run.
  now destruct (sync_failure E _).
Qed.

End RunFacts.

(** ** Lists of events *)

Section EventLists.

Lemma app_split_left {A} (l1 l2 pre post : list A) x :
  l1 ++ l2 = pre ++ x :: post -> ~ In x l1 ->
  exists pre', pre = l1 ++ pre' /\ l2 = pre' ++ x :: post.
Proof.
  revert pre. induction l1 as [|a l1 IH]; intros pre Heq Hnot.
  - now exists pre.
  - destruct pre as [|b pre]; simpl in Heq; injection Heq as Hab Heq.
    + subst. elim Hnot. now left.
    + subst b. destruct (IH pre Heq) as [pre' [-> ->]].
      * intros Hin. apply Hnot. now right.
      * now exists pre'.
Qed.

Lemma app_split_right {A} (l1 l2 pre post : list A) x :
  l1 ++ l2 = pre ++ x :: post -> ~ In x l2 ->
  exists post', post = post' ++ l2 /\ l1 = pre ++ x :: post'.
Proof.
  revert pre. induction l1 as [|a l1 IH]; intros pre Heq Hnot.
  - simpl in Heq. subst l2. elim Hnot. apply in_elt.
  - destruct pre as [|b pre]; simpl in Heq; injection Heq as Hab Heq.
    + subst. now exists l1.
    + subst b. destruct (IH pre Heq Hnot) as [post' [-> ->]].
      now exists post'.
Qed.

Lemma Forall_not_failed_checkpoint l e :
  Forall not_failed_checkpoint l -> ~ In (Synced Periodic (Some e)) l.
Proof.
  intros HF Hin. rewrite Forall_forall in HF. exact (HF _ Hin).
Qed.

End EventLists.

(** ** Failed checkpoints *)

Section Checkpoints.
Variable E : env.

Local Abbreviation quiet := (safe (fun _ => True) not_failed_checkpoint).

Lemma quiet_events {A} (m : M A) w e :
  quiet m -> ~ In (Synced Periodic (Some e)) (evs (m w)).
Proof.
  intros Hq. apply Forall_not_failed_checkpoint. now apply (Hq w).
Qed.

Lemma quiet_ends {A} (m : M A) : quiet m -> failed_checkpoint_ends m.
Proof.
  intros Hq w pre e post Heq. exfalso.
  apply (quiet_events m w e Hq). rewrite Heq. apply in_elt.
Qed.

Lemma bind_quiet_ends {A B} (m : M A) (k : A -> M B) :
  quiet m -> (forall a, failed_checkpoint_ends (k a)) ->
  failed_checkpoint_ends (bind m k).
Proof.
  intros Hq Hk w pre e post. unfold bind.
  pose proof (quiet_events m w e Hq) as Hnot.
  destruct (res (m w)) as [a|e']; simpl; intros Heq.
  - destruct (app_split_left _ _ _ _ _ Heq Hnot) as [pre' [_ Hk']].
    exact (Hk a (st (m w)) pre' e post Hk').
  - elim Hnot. rewrite Heq. apply in_elt.
Qed.

Lemma sync_then_ends {B} (k : M B) :
  failed_checkpoint_ends k ->
  failed_checkpoint_ends (bind (sync_to_storage E Periodic) (fun _ => k)).
Proof.
  intros Hk w pre e post. unfold bind, sync_to_storage.
  destruct (sync_failure E (tick w)) as [e'|]; simpl; intros Heq.
  - destruct pre as [|ev pre]; simpl in Heq.
    + injection Heq as <- <-. now split.
    + injection Heq as _ Heq. now destruct pre.
  - destruct pre as [|ev pre]; simpl in Heq; [discriminate|].
    injection Heq as _ Heq. exact (Hk _ pre e post Heq).
Qed.

Lemma quiet_display file_id locations :
  quiet (display_file_locations file_id locations).
Proof. now apply safe_display. Qed.

Lemma quiet_review_prompts location_id file_id all_locations inputs :
  quiet (review_prompts E location_id file_id all_locations inputs).
Proof. now apply safe_review_prompts. Qed.

(** A failed periodic sync is the last thing the review loop does. *)
Lemma review_files_failed_checkpoint location_id file_ids :
  forall last_sync_time inputs,
    failed_checkpoint_ends
      (review_files E location_id file_ids last_sync_time inputs).
Proof.
  induction file_ids as [|file_id more IH]; intros last inputs.
  - intros w pre e post Heq. simpl in Heq. now destruct pre.
  - simpl. apply bind_quiet_ends; [apply quiet_display|]. intros _.
    apply bind_quiet_ends; [apply quiet_review_prompts|].
    intros [[] rest]; simpl.
    + apply bind_quiet_ends; [now apply safe_oracle|]. intros current_time.
      destruct (sync_interval <=? current_time - last).
      * apply sync_then_ends, IH.
      * apply IH.
    + apply quiet_ends. now apply safe_ret.
Qed.

(** C3, as the code has it.  When a periodic checkpoint sync fails, the
    review loop ends there: the exception leaves the loop, nothing more is
    presented to the operator, the exception is logged to the errors table
    under the operation [sweep] with the location path as context, and the
    sync is tried again once, by the final sync. *)
Theorem failed_checkpoint_ends_review location_path disk inputs pre e post :
  evs (run_sweep E location_path disk inputs)
  = pre ++ Synced Periodic (Some e) :: post ->
  (exists failure, post = final_events failure) /\
  res (sweep_body E location_path inputs (mkWorld (open_db disk) (storage_file disk) 0))
  = Raise e /\
  exists rows row,
    errors (db (st (run_sweep E location_path disk inputs))) = rows ++ [row]
    /\ error_columns row = ("sweep", exn_str e, Some location_path).
Proof.
  intros Heq.
  destruct (run_sweep_events E location_path disk inputs) as [failure Hev].
  rewrite Hev in Heq.
  assert (Hnot : ~ In (Synced Periodic (Some e)) (final_events failure)).
  { unfold final_events. destruct failure; simpl; intuition discriminate. }
  destruct (app_split_right _ _ _ _ _ Heq Hnot) as [post' [-> Hbody]].
  assert (Hends : post' = [] /\
                  res (sweep_body E location_path inputs
                         (mkWorld (open_db disk) (storage_file disk) 0)) = Raise e).
  { destruct (sweep_body_run E location_path inputs
                (mkWorld (open_db disk) (storage_file disk) 0)) as [[Hnil _]|[target Hrun]].
    - rewrite Hnil in Hbody. now destruct pre.
    - cbv zeta in Hrun. rewrite Hrun in Hbody |- *.
      exact (review_files_failed_checkpoint _ _ _ _ _ _ _ _ Hbody). }
  destruct Hends as [-> Hres].
  split; [now exists failure|]. split; [assumption|].
  rewrite run_sweep_db, Hres.
  match goal with
  | |- context [sweep_except E ?lp ?r ?w] =>
      destruct (sweep_except_run E lp r w) as [_ [_ Hdb]]
  end.
  rewrite Hdb. simpl errors. eexists _, _. split; reflexivity.
Qed.

End Checkpoints.

Section CheckpointExample.

(** C3, as stated, fails.  On [catalog0] the operator keeps file 7, the
    checkpoint is due and its sync fails: file 8 is never presented,
    although the answer of the operator for it is waiting; the exception
    has left the review loop. *)
Lemma checkpoint_failure_aborts_review :
  evs (run_sweep (env0 [] (Some 4%nat)) "/mnt/records/A" (mkFiles None None) ["c"; "c"])
  = [Presented 7 locations7; Synced Periodic (Some disk_full);
     Synced Final None; Closed]
  /\ ~ checkpoint_failure_survived.
Proof.
  split; [reflexivity|].
  intros H.
  apply (H (env0 [] (Some 2%nat)) 1 [7; 8] 0 ["c"; "c"]
           (mkWorld create_new_db None 0) disk_full).
  - right. left. reflexivity.
  - reflexivity.
Qed.

Lemma failed_checkpoint_ends_review_witness :
  (exists failure, [Synced Final None; Closed] = final_events failure) /\
  res (sweep_body (env0 [] (Some 4%nat)) "/mnt/records/A" ["c"; "c"]
                  (mkWorld (open_db (mkFiles None None)) None 0))
  = Raise disk_full /\
  exists rows row,
    errors (db (st (run_sweep (env0 [] (Some 4%nat)) "/mnt/records/A" (mkFiles None None)
                              ["c"; "c"]))) = rows ++ [row]
    /\ error_columns row = ("sweep", exn_str disk_full, Some "/mnt/records/A").
Proof.
  apply (failed_checkpoint_ends_review (env0 [] (Some 4%nat))
           "/mnt/records/A" (mkFiles None None) ["c"; "c"] [Presented 7 locations7]).
  reflexivity.
Defined.

End CheckpointExample.

(** ** The ledger invariant and re-entry *)

Section Reentry.
Variable E : env.

Lemma sweep_body_safe location_path inputs w :
  file_ids_unique (db w) ->
  file_ids_unique (db (st (sweep_body E location_path inputs w))) /\
  Forall (presents_unprocessed (db w))
         (evs (sweep_body E location_path inputs w)).
Proof.
  intros Hw.
  destruct (sweep_body_run E location_path inputs w)
    as [[Hnil [Hdb _]]|[target Hrun]].
  - rewrite Hnil, Hdb. now split.
  - cbv zeta in Hrun. rewrite Hrun.
    set (file_ids := map fst _).
    match goal with
    | |- context [review_files E ?lid file_ids ?l ?i ?w1] =>
        destruct (safe_review_files E file_ids_unique
                    unique_record_processed_file
                    unique_record_deleted_file
                    unique_log_error
                    (presents_only file_ids)
                    (fun _ _ => Logic.I) (fun _ _ => Logic.I)
                    (fun _ => Logic.I) (fun _ => Logic.I)
                    lid file_ids l i (fun fid _ Hin => Hin) w1)
          as [Hdb Hev]
    end.
    + simpl db. exact Hw.
    + split; [assumption|].
      apply Forall_impl with (2 := Hev).
      intros [fid locs| | | |]; simpl; try easy.
      apply review_list_unprocessed.
Qed.

(** C4. The file ids of the processed files are unique, and stay so:
    each of the four recording operations keeps them unique, a second
    decision on a file is refused by the uniqueness constraint, and a whole
    sweep keeps them unique.  A file the ledger records as processed is
    dropped before the review loop: it is not among the files that
    discovery, filtering and grouping hand to the review, and no sweep
    presents it to the operator again. *)
Theorem ledger_unique_and_never_presented_again
        location_path disk inputs :
  file_ids_unique (open_db disk) ->
  (forall now p n c,
      file_ids_unique
        (fst (record_processed_location (open_db disk) now p n c))) /\
  (forall now pf p n,
      file_ids_unique (record_deleted_file (open_db disk) now pf p n)) /\
  (forall now op msg ctx,
      file_ids_unique (log_error (open_db disk) now op msg ctx)) /\
  (forall now file_id loc d,
      match record_processed_file (open_db disk) now file_id loc d with
      | Ok (l', _) =>
          is_file_processed (open_db disk) file_id = false /\
          file_ids_unique l'
      | Raise (Exception e) =>
          is_file_processed (open_db disk) file_id = true /\
          exn_class e = IntegrityError
      | Raise KeyboardInterrupt => False
      end) /\
  file_ids_unique (db (st (run_sweep E location_path disk inputs))) /\
  (forall file_id,
      is_file_processed (open_db disk) file_id = true ->
      (forall duplicate_records,
          ~ In file_id
             (map fst (group_by_file_id
                         (unprocessed_records E (open_db disk)
                                              duplicate_records)))) /\
      (forall locations,
          ~ In (Presented file_id locations)
               (evs (run_sweep E location_path disk inputs)))).
Proof.
  intros Hu. repeat apply conj.
  - intros. now apply unique_record_processed_location.
  - intros. now apply unique_record_deleted_file.
  - intros. now apply unique_log_error.
  - intros now file_id loc d.
    destruct (record_processed_file (open_db disk) now file_id loc d)
      as [[l' id]|e] eqn:Hr.
    + split; [|exact (unique_record_processed_file _ _ _ _ _ _ _ Hu Hr)].
      unfold record_processed_file in Hr.
      now destruct (is_file_processed (open_db disk) file_id).
    + unfold record_processed_file in Hr.
      destruct (is_file_processed (open_db disk) file_id);
        [|discriminate].
      injection Hr as <-. now split.
  - rewrite run_sweep_db.
    match goal with
    | |- context [sweep_except E ?lp ?r ?w] =>
        destruct (sweep_except_run E lp r w) as [_ [_ Hdb]]
    end.
    rewrite Hdb.
    destruct (sweep_body_safe location_path inputs
                (mkWorld (open_db disk) (storage_file disk) 0) Hu) as [Hb _].
    destruct (res (sweep_body E location_path inputs _)) as [a|[e|]];
      [assumption | now apply unique_log_error | assumption].
  - intros file_id Hp. split.
    + intros duplicate_records Hin.
      apply review_list_unprocessed in Hin. congruence.
    + intros locations Hin.
      destruct (run_sweep_events E location_path disk inputs)
        as [failure Hev].
      rewrite Hev in Hin. apply in_app_or in Hin. destruct Hin as [Hin|Hin].
      * destruct (sweep_body_safe location_path inputs
                    (mkWorld (open_db disk) (storage_file disk) 0) Hu) as [_ Hf].
        rewrite Forall_forall in Hf. apply Hf in Hin. simpl in Hin.
        congruence.
      * unfold final_events in Hin.
        destruct failure; simpl in Hin; intuition discriminate.
Qed.

End Reentry.

Section ReentryExample.

Lemma ledger7_unique : file_ids_unique (open_db (mkFiles None (Some ledger7))).
Proof.
  unfold file_ids_unique. simpl. constructor; [simpl; tauto | constructor].
Defined.

(** With file 7 already decided, a sweep of [A] presents file 8 only. *)
Example reentry_presents_file_8_only :
  evs (run_sweep (env0 [] None) "/mnt/records/A" (mkFiles None (Some ledger7)) ["c"])
  = [Presented 8 locations8; Synced Periodic None; Synced Final None; Closed].
Proof. reflexivity. Qed.

(** Without a stored copy, a sweep goes on from the staging file left in
    the working directory: file 7, decided there, is not presented. *)
Example leftover_staging_file_is_kept :
  evs (run_sweep (env0 [] None) "/mnt/records/A" (mkFiles (Some ledger7) None)
                 ["c"])
  = [Presented 8 locations8; Synced Periodic None; Synced Final None; Closed]
  /\ evs (run_sweep (env0 [] None) "/mnt/records/A" (mkFiles None None)
                    ["c"; "c"])
     = [Presented 7 locations7; Synced Periodic None;
        Presented 8 locations8; Synced Periodic None;
        Synced Final None; Closed].
Proof. split; reflexivity. Qed.

Lemma ledger_unique_and_never_presented_again_witness :
  file_ids_unique (open_db (mkFiles None (Some ledger7))) /\
  file_ids_unique
    (db (st (run_sweep (env0 [] None) "/mnt/records/A" (mkFiles None (Some ledger7)) ["c"])))
  /\
  forall locations,
    ~ In (Presented 7 locations)
         (evs (run_sweep (env0 [] None) "/mnt/records/A" (mkFiles None (Some ledger7)) ["c"])).
Proof.
  split; [exact ledger7_unique|].
  destruct (ledger_unique_and_never_presented_again
              (env0 [] None) "/mnt/records/A" (mkFiles None (Some ledger7)) ["c"]
              ledger7_unique)
    as (_ & _ & _ & _ & Hunique & Hnever).
  split; [exact Hunique|].
  exact (proj2 (Hnever 7 eq_refl)).
Defined.

End ReentryExample.

(** ** Where a [KeyboardInterrupt] comes from *)

Section Interrupts.
Variable E : env.

(** The operator closes the input and does not press Ctrl-C. *)
Hypothesis input_closed : answers_end E = InputClosed.

(** A computation that does not end by [KeyboardInterrupt]. *)
Local Abbreviation steady m :=
  (forall w, res (m w) <> Raise KeyboardInterrupt).















End Interrupts.


(** ** The exits of the review loop *)

Section Exits.
Variable E : env.


End Exits.

Section ExitExamples.

(** The three exits on [catalog0]: all files reviewed, quit, and an
    operator who stops answering. *)
Example exit_after_all_files :
  evs (run_sweep (env0 [] None) "/mnt/records/A" (mkFiles None None) ["c"; "s"])
  = [Presented 7 locations7; Synced Periodic None;
     Presented 8 locations8; Synced Periodic None;
     Synced Final None; Closed].
Proof. reflexivity. Qed.

Example exit_by_quit :
  evs (run_sweep (env0 [] None) "/mnt/records/A" (mkFiles None None) ["c"; "q"])
  = [Presented 7 locations7; Synced Periodic None;
     Presented 8 locations8; Synced OnQuit None;
     Synced Final None; Closed].
Proof. reflexivity. Qed.

Example exit_by_exception :
  let o := run_sweep (env0 [] None) "/mnt/records/A" (mkFiles None None) ["c"] in
  evs o = [Presented 7 locations7; Synced Periodic None;
           Presented 8 locations8; Synced Final None; Closed]
  /\ map error_columns (errors (db (st o)))
     = [("sweep", "EOF when reading a line", Some "/mnt/records/A")]
  /\ storage (st o) = Some (db (st o)).
Proof. repeat split. Qed.


End ExitExamples.

(** ** The delete command *)

Section DeleteFacts.
Variable E : env.

Lemma py_index_in_range all_locations n :
  in_range all_locations n = true ->
  exists loc, py_index all_locations (n - 1) = Ok loc /\
              location_number all_locations n = Some loc.
Proof.
  unfold in_range, py_index, location_number. intros H.
  apply andb_true_iff in H. destruct H as [H1 H2].
  apply Z.leb_le in H1. apply Z.leb_le in H2.
  destruct (Z.ltb_spec (n - 1) 0) as [Hneg|_]; [lia|].
  destruct (Z.leb_spec 0 (n - 1)) as [_|Hneg]; [|lia].
  destruct (Z.ltb_spec (n - 1) (Z.of_nat (List.length all_locations)))
    as [_|Hbig]; [|lia].
  simpl.
  destruct (nth_error all_locations (Z.to_nat (n - 1))) as [loc|] eqn:Hn.
  - now exists loc.
  - apply nth_error_None in Hn. lia.
Qed.

Lemma valid_numbers_in_range numbers all_locations :
  Forall (fun n => in_range all_locations n = true)
         (valid_numbers_of numbers all_locations).
Proof.
  apply Forall_forall. intros n Hin.
  unfold valid_numbers_of in Hin. apply filter_In in Hin. now destruct Hin.
Qed.

(** What the loop over the selected numbers does: one attempt per number,
    in order, at the location the number stands for; a deletion row for
    each accepted attempt, an error row for each refused one, and nothing
    else in the ledger. *)
Lemma delete_selected_run processed_file_id all_locations valid_numbers :
  Forall (fun n => in_range all_locations n = true) valid_numbers ->
  forall w,
  exists (attempts : list attempt) new_deleted new_errors,
    map (fun a => Some (fst a)) attempts
    = map (location_number all_locations) valid_numbers
    /\ res (delete_selected E processed_file_id all_locations valid_numbers w)
       = Ok tt
    /\ evs (delete_selected E processed_file_id all_locations valid_numbers w)
       = enqueue_events E attempts
    /\ deleted_files
         (db (st (delete_selected E processed_file_id all_locations
                                  valid_numbers w)))
       = deleted_files (db w) ++ new_deleted
    /\ map deletion_columns new_deleted
       = deletions_of E processed_file_id attempts
    /\ errors
         (db (st (delete_selected E processed_file_id all_locations
                                  valid_numbers w)))
       = errors (db w) ++ new_errors
    /\ map error_columns new_errors = delete_errors_of E attempts
    /\ processed_files
         (db (st (delete_selected E processed_file_id all_locations
                                  valid_numbers w)))
       = processed_files (db w)
    /\ processed_locations
         (db (st (delete_selected E processed_file_id all_locations
                                  valid_numbers w)))
       = processed_locations (db w).
Proof.
  induction 1 as [|num rest Hnum _ IH]; intros w.
  - exists [], [], []. simpl. now rewrite !app_nil_r.
  - destruct (py_index_in_range _ _ Hnum) as [loc [Hidx Hloc]].
    simpl delete_selected. rewrite Hidx. unfold lift.
    rewrite bind_ret, bind_enqueue. cbv zeta.
    set (r := enqueue_answer E (tick w) (location_path_of E loc)).
    destruct r as [msg|] eqn:Hr.
    + rewrite bind_log_error.
      match goal with
      | |- context [delete_selected E _ _ rest ?w1] =>
          destruct (IH w1)
            as (attempts & nd & ne & Hsel & Hres & Hev & Hd & Hdc & He & Hec
                & Hpf & Hpl)
      end.
      exists ((loc, Some msg) :: attempts), nd,
        (mkError (seq_errors (db w) + 1) "delete" msg (utcnow E (S (tick w)))
                 (Some (location_path_of E loc)) :: ne).
      simpl in *. rewrite Hsel, Hloc, Hres, Hev, Hd, Hdc, He, Hec, Hpf, Hpl.
      rewrite <- app_assoc. now repeat split.
    + rewrite bind_record_deleted_file.
      match goal with
      | |- context [delete_selected E _ _ rest ?w1] =>
          destruct (IH w1)
            as (attempts & nd & ne & Hsel & Hres & Hev & Hd & Hdc & He & Hec
                & Hpf & Hpl)
      end.
      exists ((loc, None) :: attempts),
        (mkDeletedFile (seq_deleted_files (db w) + 1) processed_file_id
                       (location_path_of E loc) (loc_size loc)
                       (utcnow E (S (tick w))) :: nd), ne.
      simpl in *. rewrite Hsel, Hloc, Hres, Hev, Hd, Hdc, He, Hec, Hpf, Hpl.
      rewrite <- app_assoc. now repeat split.
Qed.

End DeleteFacts.

Section DeleteCommand.
Variable E : env.

Lemma bind_then_ret {A B} (m : M A) (a : A) (b : B) w :
  res (m w) = Ok a ->
  bind m (fun _ => ret b) w = mkOut (Ok b) (st (m w)) (evs (m w)).
Proof.
  intros H. unfold bind. rewrite H. simpl. now rewrite app_nil_r.
Qed.

Lemma count_occ_valid_numbers numbers all_locations n :
  count_occ Z.eq_dec (valid_numbers_of numbers all_locations) n
  = if in_range all_locations n then count_occ Z.eq_dec numbers n else 0%nat.
Proof.
  unfold valid_numbers_of. fold (in_range all_locations).
  induction numbers as [|m numbers IH]; simpl.
  - now destruct (in_range all_locations n).
  - destruct (in_range all_locations m) eqn:Hm; simpl;
      destruct (Z.eq_dec m n) as [->|Hne]; rewrite IH; try reflexivity.
    + now rewrite Hm.
    + now rewrite Hm.
Qed.

(** C6. In a confirmed delete command every selected location is
    attempted, in order, whatever the earlier attempts gave; a deletion
    row is created exactly for the attempts the deletion service
    accepted, with the path and the size of the location; for a refused
    attempt no deletion row is created and an error row is, with the
    operation [delete], the message of the service and the attempted path
    as context. *)
Theorem deletion_rows_follow_enqueue
        processed_file_id all_locations numbers w :
  exists (attempts : list attempt) new_deleted new_errors,
    map (fun a => Some (fst a)) attempts
    = map (location_number all_locations)
          (valid_numbers_of numbers all_locations)
    /\ res (delete_selected E processed_file_id all_locations
              (valid_numbers_of numbers all_locations) w) = Ok tt
    /\ evs (delete_selected E processed_file_id all_locations
              (valid_numbers_of numbers all_locations) w)
       = enqueue_events E attempts
    /\ deleted_files
         (db (st (delete_selected E processed_file_id all_locations
                    (valid_numbers_of numbers all_locations) w)))
       = deleted_files (db w) ++ new_deleted
    /\ map deletion_columns new_deleted
       = deletions_of E processed_file_id attempts
    /\ errors
         (db (st (delete_selected E processed_file_id all_locations
                    (valid_numbers_of numbers all_locations) w)))
       = errors (db w) ++ new_errors
    /\ map error_columns new_errors = delete_errors_of E attempts.
Proof.
  destruct (delete_selected_run E processed_file_id all_locations
              (valid_numbers_of numbers all_locations)
              (valid_numbers_in_range numbers all_locations) w)
    as (attempts & nd & ne & Hsel & Hres & Hev & Hd & Hdc & He & Hec & _).
  exists attempts, nd, ne. now repeat split.
Qed.

(** C10. In a delete command over a file with N locations the numbers
    outside 1..N are dropped and the others are kept as often as they
    were typed.  The command is turned down, and the operator asked
    again, only when no number is kept.  Otherwise, once confirmed, every
    kept occurrence is one call of the deletion service at the location
    of its number, repeats included, with one deletion row per accepted
    call, and the decision recorded is [deleted_all] when the number of
    kept occurrences is N and [deleted_some] when it is not. *)
Theorem delete_selection_keeps_multiplicity
        location_id file_id all_locations user_input numbers more w :
  parse_user_command user_input = (Delete, numbers) ->
  is_file_processed (db w) file_id = false ->
  (forall n,
      count_occ Z.eq_dec (valid_numbers_of numbers all_locations) n
      = if in_range all_locations n
        then count_occ Z.eq_dec numbers n else 0%nat) /\
  (valid_numbers_of numbers all_locations = [] ->
   review_prompts E location_id file_id all_locations (user_input :: more) w
   = review_prompts E location_id file_id all_locations more w) /\
  (valid_numbers_of numbers all_locations <> [] ->
   forall confirm rest,
     more = confirm :: rest -> confirmed confirm = true ->
     exists (attempts : list attempt) pf_row new_deleted,
       map (fun a => Some (fst a)) attempts
       = map (location_number all_locations)
             (valid_numbers_of numbers all_locations)
       /\ res (review_prompts E location_id file_id all_locations
                 (user_input :: more) w) = Ok (Break, rest)
       /\ evs (review_prompts E location_id file_id all_locations
                 (user_input :: more) w) = enqueue_events E attempts
       /\ processed_files
            (db (st (review_prompts E location_id file_id all_locations
                       (user_input :: more) w)))
          = processed_files (db w) ++ [pf_row]
       /\ pf_archives_app_file_id pf_row = file_id
       /\ pf_decision pf_row
          = (if Nat.eqb (List.length (valid_numbers_of numbers all_locations))
                        (List.length all_locations)
             then deleted_all else deleted_some)
       /\ deleted_files
            (db (st (review_prompts E location_id file_id all_locations
                       (user_input :: more) w)))
          = deleted_files (db w) ++ new_deleted
       /\ map deletion_columns new_deleted
          = deletions_of E (pf_id pf_row) attempts).
Proof.
  intros Hparse Hfresh. split; [|split].
  - intros n. apply count_occ_valid_numbers.
  - intros Hnone. simpl. now rewrite Hparse, Hnone.
  - intros Hsome confirm rest -> Hyes.
    simpl review_prompts. rewrite Hparse.
    pose proof (valid_numbers_in_range numbers all_locations) as Hrange.
    destruct (valid_numbers_of numbers all_locations) as [|v vs] eqn:Hv;
      [congruence|].
    rewrite Hyes. change (negb true) with false. cbv iota.
    rewrite (bind_record_processed_file_fresh E _ _ _ _ _ Hfresh).
    match goal with
    | |- context [bind (delete_selected E ?pf _ _) _ ?w1] =>
        destruct (delete_selected_run E pf all_locations (v :: vs) Hrange w1)
          as (attempts & nd & ne & Hsel & Hres & Hev & Hd & Hdc & He & Hec
              & Hpf & Hpl);
        rewrite (bind_then_ret _ tt (Break, rest) w1 Hres)
    end.
    exists attempts,
      (mkProcessedFile (seq_processed_files (db w) + 1) file_id location_id
                       (delete_decision (v :: vs) all_locations)
                       (utcnow E (tick w))), nd.
    simpl in *. rewrite Hsel, Hev, Hpf, Hd, Hdc. now repeat split.
Qed.

(** C9. The skip command writes nothing: the review of the file ends
    with the ledger, the stored copy and the clock as they were and with
    no event, so the file is as unprocessed as before and goes on to
    review again in a later sweep; the ledger is still unchanged when the
    loop has gone through the checkpoint that follows. *)
Theorem skip_writes_nothing
        location_id file_id all_locations user_input rest w :
  fst (parse_user_command user_input) = Skip ->
  review_prompts E location_id file_id all_locations (user_input :: rest) w
  = mkOut (Ok (Break, rest)) w []
  /\ (is_file_processed (db w) file_id = false ->
      is_file_processed
        (db (st (review_prompts E location_id file_id all_locations
                   (user_input :: rest) w))) file_id = false)
  /\ (forall duplicate_records,
         unprocessed_records E
           (db (st (review_prompts E location_id file_id all_locations
                      (user_input :: rest) w))) duplicate_records
         = unprocessed_records E (db w) duplicate_records)
  /\ (forall last_sync_time,
         db (st (review_files E location_id [file_id] last_sync_time
                   (user_input :: rest) w)) = db w).
Proof.
  intros Hskip.
  assert (Hrun : review_prompts E location_id file_id all_locations
                   (user_input :: rest) w = mkOut (Ok (Break, rest)) w []).
  { simpl. destruct (parse_user_command user_input) as [c numbers].
    simpl in Hskip. now subst c. }
  rewrite Hrun. simpl. repeat split; try easy.
  intros last. simpl review_files.
  destruct (parse_user_command user_input) as [c numbers].
  simpl in Hskip. subst c.
  unfold display_file_locations, bind, lift, oracle, sync_to_storage.
  destruct (py_index (get_all_locations_for_file (env_catalog E) file_id) 0)
    as [loc|e]; simpl; [|reflexivity].
  destruct (sync_interval <=? time_time E (tick w) - last); simpl;
    [|reflexivity].
  now destruct (sync_failure E (S (tick w))).
Qed.

End DeleteCommand.

(** ** The decision of a delete command *)

Section Decision.

Lemma in_range_numbers all_locations n :
  in_range all_locations n = true <->
  In n (map Z.of_nat (seq 1 (List.length all_locations))).
Proof.
  unfold in_range. rewrite andb_true_iff, !Z.leb_le, in_map_iff. split.
  - intros [H1 H2]. exists (Z.to_nat n). split; [lia|].
    apply in_seq. lia.
  - intros [k [<- Hk]]. apply in_seq in Hk. lia.
Qed.

(** When no number is repeated the decision is the intended one:
    [deleted_all] exactly when every location is selected. *)
Lemma delete_decision_of_distinct_numbers numbers all_locations :
  NoDup (valid_numbers_of numbers all_locations) ->
  delete_decision (valid_numbers_of numbers all_locations) all_locations
  = deleted_all
  <-> forall n, in_range all_locations n = true ->
                In n (valid_numbers_of numbers all_locations).
Proof.
  intros Hnd.
  set (V := valid_numbers_of numbers all_locations) in *.
  set (R := map Z.of_nat (seq 1 (List.length all_locations))).
  assert (HR : NoDup R).
  { apply NoDup_map_NoDup_ForallPairs; [intros a b _ _; apply Nat2Z.inj | apply seq_NoDup]. }
  assert (HlenR : List.length R = List.length all_locations).
  { unfold R. now rewrite length_map, length_seq. }
  assert (HVR : incl V R).
  { intros n Hn. apply in_range_numbers.
    pose proof (valid_numbers_in_range numbers all_locations) as HF.
    rewrite Forall_forall in HF. now apply HF. }
  unfold delete_decision. split.
  - destruct (Nat.eqb_spec (List.length V) (List.length all_locations))
      as [Hlen|]; [|discriminate].
    intros _ n Hn. apply in_range_numbers in Hn.
    apply (@NoDup_length_incl _ V R Hnd); [lia | exact HVR | exact Hn].
  - intros Hall.
    assert (HRV : incl R V).
    { intros n Hn. apply Hall. now apply in_range_numbers. }
    pose proof (NoDup_incl_length HR HRV).
    pose proof (NoDup_incl_length Hnd HVR).
    destruct (Nat.eqb_spec (List.length V) (List.length all_locations));
      [reflexivity | lia].
Qed.

(** C2. The decision of a confirmed delete is to be [deleted_all]
    exactly when the selection covers every location of the file.  File 8
    has the two locations [A/p.pdf] and [A/q.pdf].  The operator answers
    [1 1] and confirms: location 1 alone is selected, [A/q.pdf] is never
    handed to the deletion service, and the decision recorded is
    [deleted_all].  The operator answers [1 2 1] and confirms: every
    location is selected, and the decision recorded is [deleted_some]. *)
Theorem repeated_number_decision :
  List.length (get_all_locations_for_file catalog0 8) = 2%nat /\
  (let o := run_sweep (env0 [] None) "/mnt/records/A" (mkFiles None None)
                      ["s"; "1 1"; "yes"] in
   map pf_decision (processed_files (db (st o))) = [deleted_all] /\
   map df_path (deleted_files (db (st o)))
   = ["/mnt/records/A/p.pdf"; "/mnt/records/A/p.pdf"] /\
   ~ In (Enqueued "/mnt/records/A/q.pdf" None) (evs o)) /\
  (let o := run_sweep (env0 [] None) "/mnt/records/A" (mkFiles None None)
                      ["s"; "1 2 1"; "yes"] in
   map pf_decision (processed_files (db (st o))) = [deleted_some] /\
   map df_path (deleted_files (db (st o)))
   = ["/mnt/records/A/p.pdf"; "/mnt/records/A/q.pdf";
      "/mnt/records/A/p.pdf"]).
Proof.
  split; [reflexivity|]. split.
  - cbv zeta. split; [reflexivity|]. split; [reflexivity|].
    vm_compute. intuition discriminate.
  - cbv zeta. split; reflexivity.
Qed.

End Decision.

Section CommandExamples.

Lemma delete_selection_keeps_multiplicity_witness :
  parse_user_command "3 1 1 9" = (Delete, [3; 1; 1; 9]) /\
  is_file_processed (db (mkWorld create_new_db None 0)) 8 = false /\
  forall n,
    count_occ Z.eq_dec (valid_numbers_of [3; 1; 1; 9] locations8) n
    = if in_range locations8 n
      then count_occ Z.eq_dec [3; 1; 1; 9] n else 0%nat.
Proof.
  split; [reflexivity|]. split; [reflexivity|].
  exact (proj1 (delete_selection_keeps_multiplicity
                  (env0 [] None) 1 8 locations8 "3 1 1 9" [3; 1; 1; 9]
                  ["yes"] (mkWorld create_new_db None 0) eq_refl eq_refl)).
Defined.

(** Numbers 3 and 9 are dropped, number 1 is kept twice: two calls for
    [A/p.pdf], two deletion rows, and two occurrences over two locations
    recorded as [deleted_all]. *)
Example delete_with_repeats_and_strays :
  let o := review_prompts (env0 [] None) 1 8 locations8 ["3 1 1 9"; "yes"]
                          (mkWorld create_new_db None 0) in
  res o = Ok (Break, [])
  /\ evs o = [Enqueued "/mnt/records/A/p.pdf" None;
              Enqueued "/mnt/records/A/p.pdf" None]
  /\ map deletion_columns (deleted_files (db (st o)))
     = [(1, "/mnt/records/A/p.pdf", 1024); (1, "/mnt/records/A/p.pdf", 1024)]
  /\ map pf_decision (processed_files (db (st o))) = [deleted_all].
Proof. repeat split. Qed.

(** Only strays: the command is turned down and the next answer is read
    as a command. *)
Example delete_with_strays_only :
  review_prompts (env0 [] None) 1 8 locations8 ["0 3"; "s"]
                 (mkWorld create_new_db None 0)
  = mkOut (Ok (Break, [])) (mkWorld create_new_db None 0) [].
Proof. reflexivity. Qed.

(** A refused enqueue: no deletion row, an error row, and the next
    selected location is still attempted. *)
Example refused_enqueue_goes_on :
  let o := review_prompts (env0 ["/mnt/records/A/p.pdf"] None) 1 8 locations8
                          ["1 2"; "y"] (mkWorld create_new_db None 0) in
  evs o = [Enqueued "/mnt/records/A/p.pdf" (Some "Connection timed out");
           Enqueued "/mnt/records/A/q.pdf" None]
  /\ map deletion_columns (deleted_files (db (st o)))
     = [(1, "/mnt/records/A/q.pdf", 1024)]
  /\ map error_columns (errors (db (st o)))
     = [("delete", "Connection timed out", Some "/mnt/records/A/p.pdf")]
  /\ map pf_decision (processed_files (db (st o))) = [deleted_all].
Proof. repeat split. Qed.

Lemma skip_writes_nothing_witness :
  review_prompts (env0 [] None) 1 7 locations7 [" S "; "c"]
                 (mkWorld create_new_db None 0)
  = mkOut (Ok (Break, ["c"])) (mkWorld create_new_db None 0) [].
Proof.
  exact (proj1 (skip_writes_nothing (env0 [] None) 1 7 locations7 " S " ["c"]
                  (mkWorld create_new_db None 0) eq_refl)).
Defined.

(** The scenario of one selected copy out of several. *)
Example delete_one_copy :
  let o := review_prompts (env0 [] None) 1 7 locations7 ["1"; "yes"]
                          (mkWorld create_new_db None 0) in
  evs o = [Enqueued "/mnt/records/A/x.dwg" None]
  /\ map deletion_columns (deleted_files (db (st o)))
     = [(1, "/mnt/records/A/x.dwg", 500000)]
  /\ map pf_decision (processed_files (db (st o))) = [deleted_some].
Proof. repeat split. Qed.

End CommandExamples.

(** * Further properties of the code *)

Import LedgerShape Sessions Cli SplitPath.

(** ** Grouping by file id *)

Section GroupingFacts.

Lemma group_by_file_id_snoc records r :
  group_by_file_id (records ++ [r])
  = group_append (group_by_file_id records) r.
Proof. unfold group_by_file_id. now rewrite fold_left_app. Qed.

Lemma group_append_keys_list grouped r :
  map fst (group_append grouped r)
  = if existsb (Z.eqb (archives_app_file_id r)) (map fst grouped)
    then map fst grouped
    else map fst grouped ++ [archives_app_file_id r].
Proof.
  induction grouped as [|[k v] grouped IH]; simpl; [reflexivity|].
  rewrite (Z.eqb_sym (archives_app_file_id r) k).
  destruct (k =? archives_app_file_id r); simpl; [reflexivity|].
  rewrite IH.
  now destruct (existsb (Z.eqb (archives_app_file_id r)) (map fst grouped)).
Qed.

Lemma existsb_eqb_In k l : existsb (Z.eqb k) l = true <-> In k l.
Proof.
  rewrite existsb_exists. split.
  - intros [x [Hin Heq]]. apply Z.eqb_eq in Heq. now subst.
  - intros Hin. exists k. split; [assumption | apply Z.eqb_refl].
Qed.

Lemma group_keys_snoc records r :
  map fst (group_by_file_id (records ++ [r]))
  = if existsb (Z.eqb (archives_app_file_id r))
               (map archives_app_file_id records)
    then map fst (group_by_file_id records)
    else map fst (group_by_file_id records) ++ [archives_app_file_id r].
Proof.
  rewrite group_by_file_id_snoc, group_append_keys_list.
  destruct (existsb (Z.eqb (archives_app_file_id r))
              (map fst (group_by_file_id records))) eqn:H1;
    destruct (existsb (Z.eqb (archives_app_file_id r))
                (map archives_app_file_id records)) eqn:H2;
    try reflexivity; exfalso.
  - apply existsb_eqb_In, group_by_file_id_keys, existsb_eqb_In in H1.
    congruence.
  - apply existsb_eqb_In, group_by_file_id_keys, existsb_eqb_In in H2.
    congruence.
Qed.

Lemma group_keys_NoDup records :
  NoDup (map fst (group_by_file_id records)).
Proof.
  induction records as [|r records IH] using rev_ind; [constructor|].
  rewrite group_keys_snoc.
  destruct (existsb (Z.eqb (archives_app_file_id r))
              (map archives_app_file_id records)) eqn:H; [assumption|].
  apply NoDup_app_remove_l with (l := []). simpl.
  apply Permutation_NoDup
    with (l := archives_app_file_id r :: map fst (group_by_file_id records)).
  - apply Permutation_cons_append.
  - constructor; [|assumption].
    intros Hin. apply group_by_file_id_keys, existsb_eqb_In in Hin.
    congruence.
Qed.

(** The keys of the grouping: every file id of the records and no other,
    each once, in the order in which the ids first occur: a further
    record adds its id at the end when the id is new and changes nothing
    of the keys when it is not. *)
Theorem group_by_file_id_keys_in_first_occurrence_order records :
  NoDup (map fst (group_by_file_id records))
  /\ (forall k, In k (map fst (group_by_file_id records))
                <-> In k (map archives_app_file_id records))
  /\ (forall r,
         map fst (group_by_file_id (records ++ [r]))
         = if existsb (Z.eqb (archives_app_file_id r))
                      (map archives_app_file_id records)
           then map fst (group_by_file_id records)
           else map fst (group_by_file_id records)
                ++ [archives_app_file_id r]).
Proof.
  split; [apply group_keys_NoDup|]. split.
  - intros k. apply group_by_file_id_keys.
  - apply group_keys_snoc.
Qed.

Lemma filter_snoc {A} (f : A -> bool) l x :
  filter f (l ++ [x]) = filter f l ++ if f x then [x] else [].
Proof. rewrite filter_app. simpl. now destruct (f x). Qed.

Lemma group_append_In grouped r k v :
  NoDup (map fst grouped) ->
  In (k, v) (group_append grouped r) ->
  (k <> archives_app_file_id r /\ In (k, v) grouped)
  \/ (k = archives_app_file_id r /\
      ((exists v0, In (k, v0) grouped /\ v = v0 ++ [r])
       \/ (~ In k (map fst grouped) /\ v = [r]))).
Proof.
  induction grouped as [|[k0 v0] grouped IH]; simpl; intros Hnd Hin.
  - destruct Hin as [[= <- <-]|[]]. right. split; [reflexivity|].
    right. now split.
  - inversion Hnd as [|? ? Hnot Hnd']; subst.
    destruct (Z.eqb_spec k0 (archives_app_file_id r)) as [Heq|Hne].
    + destruct Hin as [[= <- <-]|Hin].
      * right. split; [assumption|]. left. exists v0. split; [now left|reflexivity].
      * left. split; [|now right]. intros ->.
        apply Hnot. rewrite Heq. apply in_map_iff. now exists (archives_app_file_id r, v).
    + destruct Hin as [[= <- <-]|Hin].
      * left. split; [assumption | now left].
      * destruct (IH Hnd' Hin) as [[Hk Hg]|[Hk [[v1 [Hg Hv]]|[Hg Hv]]]].
        -- left. split; [assumption | now right].
        -- right. split; [assumption|]. left. exists v1. split; [now right|assumption].
        -- right. split; [assumption|]. right. split; [|assumption].
           intros [Hk0|Hin']; [simpl in Hk0; congruence | now apply Hg].
Qed.

(** Each group holds exactly the records of its file id, in the order of
    the input, and no group is empty. *)
Theorem group_by_file_id_groups records k v :
  In (k, v) (group_by_file_id records) ->
  v = filter (fun r => archives_app_file_id r =? k) records /\ v <> [].
Proof.
  revert k v. induction records as [|r records IH] using rev_ind;
    intros k v Hin; [destruct Hin|].
  rewrite group_by_file_id_snoc in Hin.
  pose proof (group_keys_NoDup records) as Hnd.
  pose proof (group_by_file_id_keys records) as Hkeys.
  rewrite filter_snoc.
  destruct (group_append_In _ _ _ _ Hnd Hin)
    as [[Hk Hg]|[Hk [[v0 [Hg Hv]]|[Hg Hv]]]].
  - destruct (IH k v Hg) as [Hv Hne].
    destruct (Z.eqb_spec (archives_app_file_id r) k); [congruence|].
    now rewrite app_nil_r.
  - destruct (IH k v0 Hg) as [Hv0 Hne]. subst v k.
    rewrite Z.eqb_refl. split; [now rewrite <- Hv0|].
    now destruct v0.
  - subst v k. rewrite Z.eqb_refl. split; [|discriminate].
    assert (Hnone : filter (fun r0 => archives_app_file_id r0
                                      =? archives_app_file_id r) records = []).
    { destruct (filter _ records) as [|x xs] eqn:Hf; [reflexivity|].
      exfalso. apply Hg. apply Hkeys.
      assert (Hx : In x (filter (fun r0 => archives_app_file_id r0
                                           =? archives_app_file_id r) records))
        by (rewrite Hf; now left).
      apply filter_In in Hx. destruct Hx as [Hx Heq].
      apply Z.eqb_eq in Heq. rewrite <- Heq. now apply in_map. }
    now rewrite Hnone.
Qed.

Lemma group_by_file_id_groups_witness :
  In (7, [mkFileRecord 7 "A" "x.dwg" 500000 2;
          mkFileRecord 7 "A" "y.dwg" 500000 2])
     (group_by_file_id [mkFileRecord 7 "A" "x.dwg" 500000 2;
                        mkFileRecord 8 "A" "p.pdf" 1024 2;
                        mkFileRecord 7 "A" "y.dwg" 500000 2])
  /\ [mkFileRecord 7 "A" "x.dwg" 500000 2;
      mkFileRecord 7 "A" "y.dwg" 500000 2] <> [].
Proof.
  assert (Hin : In (7, [mkFileRecord 7 "A" "x.dwg" 500000 2;
                        mkFileRecord 7 "A" "y.dwg" 500000 2])
                   (group_by_file_id [mkFileRecord 7 "A" "x.dwg" 500000 2;
                                      mkFileRecord 8 "A" "p.pdf" 1024 2;
                                      mkFileRecord 7 "A" "y.dwg" 500000 2])).
  { left. reflexivity. }
  split; [exact Hin|].
  exact (proj2 (group_by_file_id_groups _ _ _ Hin)).
Defined.

Lemma group_append_concat grouped r :
  Permutation (List.concat (map snd (group_append grouped r)))
              (List.concat (map snd grouped) ++ [r]).
Proof.
  induction grouped as [|[k v] grouped IH]; simpl; [reflexivity|].
  destruct (k =? archives_app_file_id r); simpl.
  - rewrite <- !app_assoc. apply Permutation_app_head.
    apply Permutation_app_comm.
  - rewrite <- app_assoc. now apply Permutation_app_head.
Qed.

(** Grouping loses no record and repeats none: the groups together are a
    rearrangement of the records. *)
Theorem group_by_file_id_partitions records :
  Permutation (List.concat (map snd (group_by_file_id records))) records
  /\ (List.length (group_by_file_id records) <= List.length records)%nat.
Proof.
  split.
  - induction records as [|r records IH] using rev_ind; [reflexivity|].
    rewrite group_by_file_id_snoc, group_append_concat.
    now apply Permutation_app_tail.
  - pose proof (group_keys_NoDup records) as Hnd.
    pose proof (group_by_file_id_keys records) as Hkeys.
    rewrite <- (length_map fst (group_by_file_id records)).
    rewrite <- (length_map archives_app_file_id records).
    apply NoDup_incl_length; [assumption|].
    intros k Hk. now apply Hkeys.
Qed.

End GroupingFacts.

(** ** Reading the commands of the operator *)

Section CommandFacts.

Lemma lower_char_idem a : lower_char (lower_char a) = lower_char a.
Proof. destruct a as [[] [] [] [] [] [] [] []]; reflexivity. Qed.

Lemma is_space_lower_char a : is_space (lower_char a) = is_space a.
Proof. destruct a as [[] [] [] [] [] [] [] []]; reflexivity. Qed.

Lemma lower_idem s : lower (lower s) = lower s.
Proof.
  induction s as [|a s IH]; simpl; [reflexivity|].
  now rewrite lower_char_idem, IH.
Qed.

Lemma lstrip_lower s : lstrip (lower s) = lower (lstrip s).
Proof.
  induction s as [|a s IH]; simpl; [reflexivity|].
  rewrite is_space_lower_char. now destruct (is_space a).
Qed.

Lemma rstrip_lower s : rstrip (lower s) = lower (rstrip s).
Proof.
  induction s as [|a s IH]; simpl; [reflexivity|].
  rewrite IH, is_space_lower_char.
  destruct (rstrip s); simpl; [now destruct (is_space a) | reflexivity].
Qed.

Lemma strip_lower s : strip (lower s) = lower (strip s).
Proof. unfold strip. now rewrite lstrip_lower, rstrip_lower. Qed.

(** A string that is empty or begins with a character that is no space. *)
Lemma lstrip_head s :
  lstrip s = EmptyString \/
  exists a t, lstrip s = String a t /\ is_space a = false.
Proof.
  induction s as [|a s IH]; simpl; [now left|].
  destruct (is_space a) eqn:Ha; [assumption|]. right. now exists a, s.
Qed.

Lemma rstrip_head a t :
  is_space a = false -> exists t', rstrip (String a t) = String a t'.
Proof.
  intros Ha. simpl. rewrite Ha. destruct (rstrip t); eauto.
Qed.

Lemma rstrip_idem s : rstrip (rstrip s) = rstrip s.
Proof.
  induction s as [|a s IH]; simpl; [reflexivity|].
  destruct (rstrip s) as [|b r] eqn:Hr.
  - destruct (is_space a) eqn:Ha; simpl; [reflexivity | now rewrite Ha].
  - change (rstrip (String a (String b r))
            = String a (String b r)).
    simpl. simpl in IH. now rewrite IH.
Qed.

Lemma strip_head s :
  strip s = EmptyString \/
  exists a t, strip s = String a t /\ is_space a = false.
Proof.
  unfold strip. destruct (lstrip_head s) as [->|(a & t & -> & Ha)].
  - now left.
  - right. destruct (rstrip_head a t Ha) as [t' Ht]. now exists a, t'.
Qed.

Lemma lstrip_of_head a t : is_space a = false -> lstrip (String a t) = String a t.
Proof. intros Ha. simpl. now rewrite Ha. Qed.

Lemma strip_idem s : strip (strip s) = strip s.
Proof.
  destruct (strip_head s) as [H|(a & t & H & Ha)].
  - rewrite H. reflexivity.
  - unfold strip at 1. rewrite H, (lstrip_of_head a t Ha), <- H.
    unfold strip. apply rstrip_idem.
Qed.

(** Commands are read without regard to case and to the white space
    around them. *)
Theorem parse_user_command_ignores_case_and_margins s :
  parse_user_command (strip s) = parse_user_command s
  /\ parse_user_command (lower s) = parse_user_command s.
Proof.
  unfold parse_user_command. split.
  - now rewrite strip_idem.
  - now rewrite strip_lower, lower_idem.
Qed.

Lemma split_ws_aux_nonempty s : forall cur,
  cur <> EmptyString -> split_ws_aux cur s <> [].
Proof.
  induction s as [|a s IH]; intros cur Hcur; simpl.
  - destruct cur; [congruence | discriminate].
  - destruct (is_space a).
    + destruct cur; [congruence | discriminate].
    + apply IH. destruct cur; discriminate.
Qed.

Lemma split_ws_nonempty a t :
  is_space a = false -> split_ws (String a t) <> [].
Proof.
  intros Ha. unfold split_ws. simpl. rewrite Ha.
  apply split_ws_aux_nonempty. discriminate.
Qed.

Lemma int_all_length tokens numbers :
  int_all tokens = Some numbers -> List.length numbers = List.length tokens.
Proof.
  revert numbers. induction tokens as [|x tokens IH]; simpl; intros numbers H.
  - now injection H as <-.
  - destruct (py_int x); [|discriminate].
    destruct (int_all tokens) as [ns|]; [|discriminate].
    simpl in H. injection H as <-. simpl. now rewrite (IH ns).
Qed.

(** The numbers that come with a command: one for [open], at least one
    for a delete, none for the others; so the [numbers[0]] of the open
    branch is always there. *)
Theorem parse_user_command_numbers s :
  match parse_user_command s with
  | (OpenCmd, numbers) =>
      exists n, numbers = [n] /\ py_index numbers 0 = Ok n
  | (Delete, numbers) => numbers <> []
  | (_, numbers) => numbers = []
  end.
Proof.
  unfold parse_user_command.
  destruct (strip_head s) as [->|(a & t & -> & Ha)]; [reflexivity|].
  simpl lower.
  assert (Hsp : is_space (lower_char a) = false)
    by now rewrite is_space_lower_char.
  set (c := String (lower_char a) (lower t)).
  assert (Hdel : match
                   match int_all (split_ws c) with
                   | Some numbers => (Delete, numbers)
                   | None => (Invalid, [])
                   end
                 with
                 | (OpenCmd, numbers) =>
                     exists n, numbers = [n] /\ py_index numbers 0 = Ok n
                 | (Delete, numbers) => numbers <> []
                 | (_, numbers) => numbers = []
                 end).
  { destruct (int_all (split_ws c)) as [numbers|] eqn:Hi; [|reflexivity].
    apply int_all_length in Hi. intros ->.
    apply (split_ws_nonempty (lower_char a) (lower t) Hsp).
    fold c. now destruct (split_ws c). }
  assert (Hopen : match
                    match split_ws c with
                    | _ :: x :: _ =>
                        match py_int x with
                        | Some num => (OpenCmd, [num])
                        | None => (Invalid, [])
                        end
                    | _ => (Invalid, [])
                    end
                  with
                  | (OpenCmd, numbers) =>
                      exists n, numbers = [n] /\ py_index numbers 0 = Ok n
                  | (Delete, numbers) => numbers <> []
                  | (_, numbers) => numbers = []
                  end).
  { destruct (split_ws c) as [|x0 [|x l]]; try reflexivity.
    destruct (py_int x) as [num|]; [|reflexivity].
    exists num. now split. }
  destruct (String.eqb c "c"); [reflexivity|].
  destruct (String.eqb c "s"); [reflexivity|].
  destruct (String.eqb c "q"); [reflexivity|].
  unfold c at 1.
  destruct (lower_char a) as [[] [] [] [] [] [] [] []]; try exact Hdel.
  destruct (lower t) as [|b t']; [exact Hdel|].
  destruct b as [[] [] [] [] [] [] [] []]; first [exact Hdel | exact Hopen].
Qed.

End CommandFacts.

(** ** What discovery returns *)

Section DiscoveryFacts.

Lemma filter_filter_length {A} (p q : A -> bool) l :
  (List.length (filter p (filter q l)) <= List.length (filter p l))%nat.
Proof.
  induction l as [|x l IH]; simpl; [lia|].
  destruct (q x); simpl; destruct (p x); simpl; lia.
Qed.

Lemma filter_filter_implied {A} (p q : A -> bool) l :
  (forall x, p x = true -> q x = true) ->
  filter p (filter q l) = filter p l.
Proof.
  intros H. induction l as [|x l IH]; simpl; [reflexivity|].
  destruct (p x) eqn:Hp.
  - rewrite (H x Hp). simpl. now rewrite Hp, IH.
  - destruct (q x); simpl; [now rewrite Hp|assumption].
Qed.

Lemma filter_map_comm {A B} (f : A -> B) (p : B -> bool) l :
  filter p (map f l) = map f (filter (fun x => p (f x)) l).
Proof.
  induction l as [|x l IH]; simpl; [reflexivity|].
  destruct (p (f x)); simpl; now rewrite IH.
Qed.

(** Discovery never returns a file without duplicates.  Every record it
    returns lies at the target location; its [loc_count] is at least 2,
    is the number of returned records of the same file, and is at most
    the number of locations of the file in the whole catalog, which is
    the number of locations [get_all_locations_for_file] lists.  So the
    list of locations of a discovered file is never empty, and its first
    entry, which the table title reads, is there. *)
Theorem discovered_files_have_duplicates c target_location rec :
  In rec (find_duplicates_in_location c target_location) ->
  file_server_directories rec = target_location
  /\ 2 <= loc_count rec
  /\ loc_count rec
     = Z.of_nat (List.length
                   (filter (fun r => archives_app_file_id r
                                     =? archives_app_file_id rec)
                           (find_duplicates_in_location c target_location)))
  /\ loc_count rec <= duplicate_count c (archives_app_file_id rec)
  /\ Z.of_nat (List.length
                 (get_all_locations_for_file c (archives_app_file_id rec)))
     = duplicate_count c (archives_app_file_id rec)
  /\ exists loc,
       py_index (get_all_locations_for_file c (archives_app_file_id rec)) 0
       = Ok loc.
Proof.
  intros Hin.
  apply find_duplicates_in_location_spec in Hin.
  destruct Hin as (fl & f & Hj & Hdir & Hcount & ->). simpl.
  assert (Hle : partition_count (locs_rows c target_location) (fl_file_id fl)
                <= duplicate_count c (fl_file_id fl)).
  { unfold duplicate_count, partition_count, locs_rows.
    apply inj_le. apply filter_filter_length. }
  assert (Hlen : Z.of_nat (List.length
                   (get_all_locations_for_file c (fl_file_id fl)))
                 = duplicate_count c (fl_file_id fl)).
  { unfold get_all_locations_for_file, duplicate_count, partition_count.
    now rewrite length_map. }
  repeat split; try assumption; try lia.
  - unfold find_duplicates_in_location.
    rewrite filter_map_comm, length_map. simpl.
    rewrite filter_filter_implied; [reflexivity|].
    intros [fl' f'] Heq. simpl in *. apply Z.eqb_eq in Heq. rewrite Heq.
    now apply Z.ltb_lt.
  - unfold py_index.
    destruct (get_all_locations_for_file c (fl_file_id fl)) as [|loc locs];
      [simpl in Hlen; lia|].
    exists loc. simpl.
    destruct (Z.ltb_spec 0 (Z.pos (Pos.of_succ_nat (List.length locs))));
      [reflexivity | lia].
Qed.

Lemma discovered_files_have_duplicates_witness :
  In (mkFileRecord 8 "A" "p.pdf" 1024 2)
     (find_duplicates_in_location catalog0 "A")
  /\ exists loc, py_index (get_all_locations_for_file catalog0 8) 0 = Ok loc.
Proof.
  assert (Hin : In (mkFileRecord 8 "A" "p.pdf" 1024 2)
                   (find_duplicates_in_location catalog0 "A")).
  { simpl. right. right. left. reflexivity. }
  split; [exact Hin|].
  exact (proj2 (proj2 (proj2 (proj2 (proj2
           (discovered_files_have_duplicates catalog0 "A" _ Hin)))))).
Defined.

End DiscoveryFacts.

(** ** Recording and looking up *)

Section LedgerLookup.

(** A recorded decision is found again, and only it: after a successful
    [record_processed_file] the file was unknown before and is known
    now, the answer for every other file is as before, and none of the
    other three recording operations changes any answer. *)
Theorem record_processed_file_then_lookup l now file_id loc d l' id :
  record_processed_file l now file_id loc d = Ok (l', id) ->
  is_file_processed l file_id = false
  /\ is_file_processed l' file_id = true
  /\ (forall other, other <> file_id ->
                    is_file_processed l' other = is_file_processed l other)
  /\ (forall other now' p n c,
         is_file_processed (fst (record_processed_location l' now' p n c)) other
         = is_file_processed l' other)
  /\ (forall other now' pf p n,
         is_file_processed (record_deleted_file l' now' pf p n) other
         = is_file_processed l' other)
  /\ (forall other now' op msg ctx,
         is_file_processed (log_error l' now' op msg ctx) other
         = is_file_processed l' other).
Proof.
  unfold record_processed_file.
  destruct (is_file_processed l file_id) eqn:Hp; [discriminate|].
  intros [= <- _]. repeat split.
  - unfold is_file_processed. simpl. rewrite existsb_app. simpl.
    rewrite Z.eqb_refl. now rewrite orb_true_r.
  - intros other Hne. unfold is_file_processed. simpl.
    rewrite existsb_app. simpl.
    destruct (Z.eqb_spec file_id other); [congruence|].
    now rewrite !orb_false_r.
Qed.

Lemma record_processed_file_then_lookup_witness :
  record_processed_file create_new_db "2026-01-01T00:00:00" 7 1 kept_all
  = Ok (mkLedger [] [mkProcessedFile 1 7 1 kept_all "2026-01-01T00:00:00"]
                 [] [] 0 1 0 0, 1)
  /\ is_file_processed
       (mkLedger [] [mkProcessedFile 1 7 1 kept_all "2026-01-01T00:00:00"]
                 [] [] 0 1 0 0) 7 = true.
Proof.
  split; [reflexivity|].
  exact (proj1 (proj2 (record_processed_file_then_lookup
                         create_new_db "2026-01-01T00:00:00" 7 1 kept_all
                         _ _ eq_refl))).
Defined.

End LedgerLookup.

(** ** What a whole sweep keeps of the ledger *)

Section SweepKeeps.
Variable E : env.
Variable I : ledger -> Prop.
Hypothesis I_record_processed_file : forall l now file_id loc d l' id,
  I l -> record_processed_file l now file_id loc d = Ok (l', id) -> I l'.
Hypothesis I_record_deleted_file : forall l now pf p n,
  I l -> I (record_deleted_file l now pf p n).
Hypothesis I_log_error : forall l now op msg ctx,
  I l -> I (log_error l now op msg ctx).

Lemma review_files_keeps location_id file_ids last_sync_time inputs w :
  I (db w) ->
  I (db (st (review_files E location_id file_ids last_sync_time inputs w))).
Proof.
  intros Hw.
  now apply (safe_review_files E I I_record_processed_file
               I_record_deleted_file I_log_error (fun _ => True)
               (fun _ _ => Logic.I) (fun _ _ => Logic.I)
               (fun _ => Logic.I) (fun _ => Logic.I)
               location_id file_ids last_sync_time inputs
               (fun _ _ _ => Logic.I) w).
Qed.

Hypothesis I_record_processed_location : forall l now p n c,
  I l -> I (fst (record_processed_location l now p n c)).

Lemma sweep_body_keeps location_path inputs w :
  I (db w) -> I (db (st (sweep_body E location_path inputs w))).
Proof.
  intros Hw.
  destruct (sweep_body_run E location_path inputs w)
    as [[_ [Hdb _]]|[target Hrun]].
  - now rewrite Hdb.
  - cbv zeta in Hrun. rewrite Hrun.
    apply review_files_keeps.
    exact (I_record_processed_location (db w) _ _ _ _ Hw).
Qed.

Lemma run_sweep_keeps location_path disk inputs :
  I (open_db disk) ->
  I (db (st (run_sweep E location_path disk inputs))).
Proof.
  intros Hs. rewrite run_sweep_db.
  match goal with
  | |- context [sweep_except E ?lp ?r ?w] =>
      destruct (sweep_except_run E lp r w) as [_ [_ Hdb]]
  end.
  rewrite Hdb.
  pose proof (sweep_body_keeps location_path inputs
                (mkWorld (open_db disk) (storage_file disk) 0) Hs) as Hb.
  destruct (res (sweep_body E location_path inputs _)) as [a|[e|]];
    [assumption | now apply I_log_error | assumption].
Qed.

End SweepKeeps.

(** ** Identifiers *)

Section Identifiers.

Lemma ids_ok_snoc ids seq :
  ids_ok ids seq -> ids_ok (ids ++ [seq + 1]) (seq + 1).
Proof.
  intros [Hseq [Hs Hb]]. split; [lia|]. split.
  - induction ids as [|i ids IH]; simpl.
    + constructor; constructor.
    + inversion Hs as [|? ? Hs' Hlt]; subst.
      inversion Hb as [|? ? Hi Hb']; subst.
      constructor; [now apply IH|].
      apply Forall_app. split; [assumption|].
      constructor; [lia | constructor].
  - apply Forall_app. split.
    + apply Forall_impl with (2 := Hb). intros i Hi. lia.
    + constructor; [lia | constructor].
Qed.

Lemma ids_ok_fresh ids seq i :
  ids_ok ids seq -> In i ids -> i < seq + 1.
Proof.
  intros [_ [_ Hb]] Hin. rewrite Forall_forall in Hb.
  specialize (Hb i Hin). lia.
Qed.

Lemma ids_ok_NoDup ids seq : ids_ok ids seq -> NoDup ids.
Proof.
  intros [_ [Hs _]]. induction Hs as [|i ids Hs IH Hlt]; constructor.
  - intros Hin. rewrite Forall_forall in Hlt. specialize (Hlt i Hin). lia.
  - assumption.
Qed.

Lemma ids_record_processed_location l now p n c :
  ledger_ids_ok l ->
  ledger_ids_ok (fst (record_processed_location l now p n c)).
Proof.
  intros (H1 & H2 & H3 & H4).
  split; [|split; [|split]]; simpl; rewrite ?map_app; simpl;
    try assumption; now apply ids_ok_snoc.
Qed.

Lemma ids_record_deleted_file l now pf p n :
  ledger_ids_ok l -> ledger_ids_ok (record_deleted_file l now pf p n).
Proof.
  intros (H1 & H2 & H3 & H4).
  split; [|split; [|split]]; simpl; rewrite ?map_app; simpl;
    try assumption; now apply ids_ok_snoc.
Qed.

Lemma ids_log_error l now op msg ctx :
  ledger_ids_ok l -> ledger_ids_ok (log_error l now op msg ctx).
Proof.
  intros (H1 & H2 & H3 & H4).
  split; [|split; [|split]]; simpl; rewrite ?map_app; simpl;
    try assumption; now apply ids_ok_snoc.
Qed.

Lemma ids_record_processed_file l now file_id loc d l' id :
  ledger_ids_ok l ->
  record_processed_file l now file_id loc d = Ok (l', id) ->
  ledger_ids_ok l'.
Proof.
  intros (H1 & H2 & H3 & H4). unfold record_processed_file.
  destruct (is_file_processed l file_id); [discriminate|].
  intros [= <- _].
  split; [|split; [|split]]; simpl; rewrite ?map_app; simpl;
    try assumption; now apply ids_ok_snoc.
Qed.

(** Identifiers are given out in increasing order and never twice.  On a
    ledger whose tables have increasing identifiers within their
    sequences, as the empty ledger has, each recording operation gives
    the new row an identifier above every identifier of its table and
    leaves a ledger of the same kind, and so does a whole sweep; the
    identifiers of each table of the ledger after a sweep are distinct. *)
Theorem identifiers_increase (E : env) location_path disk inputs :
  ledger_ids_ok (open_db disk) ->
  ledger_ids_ok create_new_db
  /\ (forall now p n c i,
         In i (map pl_id (processed_locations (open_db disk))) ->
         i < snd (record_processed_location (open_db disk) now p n c))
  /\ (forall now file_id loc d l' id i,
         record_processed_file (open_db disk) now file_id loc d
         = Ok (l', id) ->
         ledger_ids_ok l' /\
         (In i (map pf_id (processed_files (open_db disk))) -> i < id))
  /\ (forall now p n c,
         ledger_ids_ok
           (fst (record_processed_location (open_db disk) now p n c)))
  /\ (forall now pf p n,
         ledger_ids_ok (record_deleted_file (open_db disk) now pf p n))
  /\ (forall now op msg ctx,
         ledger_ids_ok (log_error (open_db disk) now op msg ctx))
  /\ ledger_ids_ok (db (st (run_sweep E location_path disk inputs)))
  /\ NoDup (map pf_id (processed_files
                         (db (st (run_sweep E location_path disk inputs)))))
  /\ NoDup (map df_id (deleted_files
                         (db (st (run_sweep E location_path disk inputs))))).
Proof.
  intros Hok.
  assert (Hrun : ledger_ids_ok
                   (db (st (run_sweep E location_path disk inputs)))).
  { apply run_sweep_keeps; try assumption.
    - exact ids_record_processed_file.
    - exact ids_record_deleted_file.
    - exact ids_log_error.
    - exact ids_record_processed_location. }
  split; [|split; [|split; [|split; [|split; [|split; [|split; [|split]]]]]]].
  - unfold ledger_ids_ok, ids_ok, create_new_db. simpl.
    repeat split; try lia; constructor.
  - intros now p n c i Hi. simpl.
    destruct Hok as (H1 & _). now apply (ids_ok_fresh _ _ _ H1).
  - intros now file_id loc d l' id i Hr. split.
    + exact (ids_record_processed_file _ _ _ _ _ _ _ Hok Hr).
    + intros Hi. unfold record_processed_file in Hr.
      destruct (is_file_processed (open_db disk) file_id); [discriminate|].
      injection Hr as _ <-.
      destruct Hok as (_ & H2 & _). now apply (ids_ok_fresh _ _ _ H2).
  - intros. now apply ids_record_processed_location.
  - intros. now apply ids_record_deleted_file.
  - intros. now apply ids_log_error.
  - exact Hrun.
  - destruct Hrun as (_ & H2 & _). exact (ids_ok_NoDup _ _ H2).
  - destruct Hrun as (_ & _ & H3 & _). exact (ids_ok_NoDup _ _ H3).
Qed.

Lemma identifiers_increase_witness :
  ledger_ids_ok (open_db (mkFiles None (Some ledger7)))
  /\ ledger_ids_ok
       (db (st (run_sweep (env0 [] None) "/mnt/records/A" (mkFiles None (Some ledger7))
                          ["1"; "yes"]))).
Proof.
  assert (H : ledger_ids_ok (open_db (mkFiles None (Some ledger7)))).
  { unfold ledger_ids_ok, ids_ok. simpl.
    repeat split; try lia; repeat constructor; lia. }
  split; [exact H|].
  exact (proj1 (proj2 (proj2 (proj2 (proj2 (proj2 (proj2
           (identifiers_increase (env0 [] None) "/mnt/records/A"
              (mkFiles None (Some ledger7)) ["1"; "yes"] H)))))))).
Defined.

End Identifiers.

(** ** More on the path mapping *)

Section MorePathFacts.
Variable h : host.

Lemma splitroot_not_slash a t :
  Ascii.eqb a "/" = false ->
  splitroot (String a t) = (EmptyString, String a t).
Proof.
  destruct a as [[] [] [] [] [] [] [] []]; try reflexivity. discriminate.
Qed.

Lemma join_head s segs :
  s <> EmptyString -> contains "/" s = false ->
  exists a t, join "/" (s :: segs) = String a t /\ Ascii.eqb a "/" = false.
Proof.
  destruct s as [|a s]; [congruence|]. intros _ Hc. simpl in Hc.
  apply orb_false_iff in Hc. destruct Hc as [Ha _].
  destruct segs; simpl; eauto.
Qed.

Lemma keep_segment_nonempty s : keep_segment s = true -> s <> EmptyString.
Proof. now destruct s. Qed.

(** The text of a relative path with clean segments parses back to it. *)
Lemma parse_render_relative segs :
  (forall x, In x segs -> keep_segment x = true /\ contains "/" x = false) ->
  parse (render (mkPath EmptyString segs)) = mkPath EmptyString segs.
Proof.
  intros Hclean. destruct segs as [|s segs]; [reflexivity|].
  destruct (Hclean s (or_introl eq_refl)) as [Hs Hslash].
  destruct (join_head s segs (keep_segment_nonempty s Hs) Hslash)
    as (a & t & Hj & Ha).
  change (render (mkPath EmptyString (s :: segs)))
    with (join "/" (s :: segs)).
  unfold parse. rewrite Hj, (splitroot_not_slash a t Ha), <- Hj.
  rewrite split_on_join, filter_keep_clean; try reflexivity;
    try discriminate; intros x Hx; now apply Hclean.
Qed.

Lemma realpath_walk_In segs : forall stack x,
  In x (realpath_walk stack segs) ->
  In x stack \/ (In x segs /\ String.eqb x ".." = false).
Proof.
  induction segs as [|s segs IH]; intros stack x Hin; simpl in Hin;
    [now left|].
  destruct (String.eqb s "..") eqn:Hs.
  - destruct (IH _ _ Hin) as [H|[H1 H2]].
    + left. clear -H. induction stack as [|y stack IHs]; [destruct H|].
      simpl in H. destruct stack; [destruct H|].
      destruct H as [<-|H]; [now left | right; now apply IHs].
    + right. split; [now right | assumption].
  - destruct (IH _ _ Hin) as [H|[H1 H2]].
    + apply in_app_or in H. destruct H as [H|[<-|[]]]; [now left|].
      right. split; [now left | assumption].
    + right. split; [now right | assumption].
Qed.

Lemma strip_prefix_Some pre l rest :
  strip_prefix pre l = Some rest <-> l = pre ++ rest.
Proof.
  revert l. induction pre as [|x pre IH]; intros l; simpl.
  - split; [now intros [= ->] | now intros ->].
  - destruct l as [|y l]; [split; discriminate|].
    destruct (String.eqb_spec x y) as [->|Hne].
    + rewrite IH. split; [now intros -> | now intros [= ->]].
    + split; [discriminate | intros [= -> _]; congruence].
Qed.

Lemma extract_rooted full base :
  root full <> EmptyString -> root base <> EmptyString ->
  extract_server_dirs h full base
  = match strip_prefix (realpath_walk [] (tail base))
                       (realpath_walk [] (tail full)) with
    | Some rest => Ok (render (mkPath EmptyString rest))
    | None =>
        Raise (Exn ValueError
                 (render (mkPath "/" (realpath_walk [] (tail full)))
                  ++ " is not under "
                  ++ render (mkPath "/" (realpath_walk [] (tail base)))))
    end.
Proof.
  intros Hf Hb. unfold extract_server_dirs.
  rewrite (expanduser_rooted h full Hf), (expanduser_rooted h base Hb).
  rewrite (resolve_rooted h full Hf), (resolve_rooted h base Hb).
  unfold relative_to. simpl root. simpl tail.
  now destruct (strip_prefix _ _).
Qed.

(** Whatever the mapping back returns is canonical: for an absolute
    local path and an absolute mount, a result of
    [normalize_path_for_query] is a relative path without [..], equal to
    the rendering of its own segments. *)
Theorem normalize_path_gives_canonical user_path mount s :
  is_mount user_path = true ->
  is_mount mount = true ->
  normalize_path_for_query h user_path mount = Ok s ->
  is_canonical s = true.
Proof.
  unfold is_mount, normalize_path_for_query. intros Hu Hm.
  apply negb_true_iff in Hu. apply String.eqb_neq in Hu.
  apply negb_true_iff in Hm. apply String.eqb_neq in Hm.
  rewrite (extract_rooted _ _ Hu Hm).
  destruct (strip_prefix _ _) as [rest|] eqn:Hsp; [|discriminate].
  intros [= <-].
  apply strip_prefix_Some in Hsp.
  assert (Hclean : forall x, In x rest ->
            (keep_segment x = true /\ contains "/" x = false)
            /\ String.eqb x ".." = false).
  { intros x Hx.
    assert (Hin : In x (realpath_walk [] (tail (parse user_path))))
      by (rewrite Hsp; apply in_or_app; now right).
    apply realpath_walk_In in Hin. destruct Hin as [[]|[Hin Hdd]].
    split; [now apply tail_parse_clean in Hin | assumption]. }
  unfold is_canonical.
  rewrite parse_render_relative by (intros x Hx; now apply Hclean).
  simpl root. simpl tail.
  apply andb_true_iff. split; [apply andb_true_iff; split|].
  - reflexivity.
  - apply forallb_forall. intros x Hx.
    destruct (Hclean x Hx) as [_ Hdd]. now rewrite Hdd.
  - apply String.eqb_refl.
Qed.

(** A local path is accepted exactly when, once resolved, it lies under
    the resolved mount; any other absolute path is refused with a
    [ValueError] that names both, and with nothing else. *)
Theorem normalize_path_accepts_under_mount_only user_path mount :
  is_mount user_path = true ->
  is_mount mount = true ->
  ((exists s, normalize_path_for_query h user_path mount = Ok s)
   <-> exists rest,
         realpath_walk [] (tail (parse user_path))
         = realpath_walk [] (tail (parse mount)) ++ rest)
  /\ (forall e,
         normalize_path_for_query h user_path mount = Raise e ->
         e = Exn ValueError
               (render (resolve h (parse user_path)) ++ " is not under "
                ++ render (resolve h (parse mount)))).
Proof.
  unfold is_mount, normalize_path_for_query. intros Hu Hm.
  apply negb_true_iff in Hu. apply String.eqb_neq in Hu.
  apply negb_true_iff in Hm. apply String.eqb_neq in Hm.
  rewrite (extract_rooted _ _ Hu Hm).
  rewrite (resolve_rooted h _ Hu), (resolve_rooted h _ Hm).
  destruct (strip_prefix _ _) as [rest|] eqn:Hsp; split.
  - split; [|eauto]. intros _. exists rest. now apply strip_prefix_Some.
  - discriminate.
  - split; [now intros [s Hs]|].
    intros [rest Hrest]. apply strip_prefix_Some in Hrest. congruence.
  - now intros e [= <-].
Qed.

End MorePathFacts.

Section MorePathExamples.

Lemma normalize_path_gives_canonical_witness :
  is_mount "/mnt/records/49xx//Lab/../4203/./F" = true
  /\ is_mount "/mnt/records" = true
  /\ normalize_path_for_query host0 "/mnt/records/49xx//Lab/../4203/./F"
                              "/mnt/records" = Ok "49xx/4203/F"
  /\ is_canonical "49xx/4203/F" = true.
Proof.
  split; [reflexivity|]. split; [reflexivity|]. split; [reflexivity|].
  exact (normalize_path_gives_canonical host0
           "/mnt/records/49xx//Lab/../4203/./F" "/mnt/records" "49xx/4203/F"
           eq_refl eq_refl eq_refl).
Defined.

Lemma normalize_path_accepts_under_mount_only_witness :
  is_mount "/mnt/records/../other/x" = true
  /\ is_mount "/mnt/records" = true
  /\ normalize_path_for_query host0 "/mnt/records/../other/x" "/mnt/records"
     = Raise (Exn ValueError "/mnt/other/x is not under /mnt/records").
Proof.
  split; [reflexivity|]. split; [reflexivity|].
  destruct (normalize_path_for_query host0 "/mnt/records/../other/x"
                                     "/mnt/records") as [s|e] eqn:Hn.
  - discriminate Hn.
  - f_equal.
    exact (proj2 (normalize_path_accepts_under_mount_only host0
                    "/mnt/records/../other/x" "/mnt/records"
                    eq_refl eq_refl) e Hn).
Defined.

End MorePathExamples.

Section BuildFacts.

Lemma parse_root_only r :
  r = "/" \/ r = "//" -> parse r = mkPath r [].
Proof. intros [-> | ->]; reflexivity. Qed.

Lemma clean_segments_parse segs :
  (forall x, In x segs -> keep_segment x = true /\ contains "/" x = false) ->
  forall x, In x segs -> parse x = mkPath EmptyString [x].
Proof. intros H x Hx. destruct (H x Hx). now apply parse_segment. Qed.

(** Where [build_file_path] puts a catalog directory.  A relative
    directory goes under the mount: its segments follow those of the
    mount, and a plain file name follows them.  A directory that begins
    with a slash does not: it replaces the mount altogether. *)
Theorem build_file_path_placement base_mount server_dir :
  (root (parse server_dir) = EmptyString ->
   build_file_path base_mount server_dir None
   = mkPath (root (parse base_mount))
            (tail (parse base_mount) ++ tail (parse server_dir))
   /\ forall f,
        keep_segment f = true -> contains "/" f = false ->
        build_file_path base_mount server_dir (Some f)
        = mkPath (root (parse base_mount))
                 (tail (parse base_mount) ++ tail (parse server_dir) ++ [f]))
  /\ (root (parse server_dir) <> EmptyString ->
      build_file_path base_mount server_dir None = parse server_dir).
Proof.
  pose proof (clean_segments_parse (tail (parse server_dir))
                (tail_parse_clean server_dir)) as Hsegs.
  split.
  - intros Hrel.
    assert (Hnone : build_file_path base_mount server_dir None
                    = mkPath (root (parse base_mount))
                        (tail (parse base_mount) ++ tail (parse server_dir))).
    { unfold build_file_path, parts. rewrite Hrel.
      now apply joinpath_clean. }
    split; [exact Hnone|].
    intros f Hk Hc. unfold build_file_path in *.
    destruct (String.eqb_spec f EmptyString) as [->|_]; [discriminate|].
    rewrite Hnone, joinpath_clean.
    + simpl. now rewrite <- app_assoc.
    + intros x [<-|[]]. now apply parse_segment.
  - intros Hroot. unfold build_file_path, parts.
    destruct (root_parse server_dir Hroot) as [Hr|Hr]; rewrite Hr.
    + change (joinpath (parse base_mount) ("/" :: tail (parse server_dir)))
        with (joinpath (mkPath "/" []) (tail (parse server_dir))).
      rewrite (joinpath_clean _ _ Hsegs). simpl.
      destruct (parse server_dir) as [r t]. simpl in *. now subst.
    + change (joinpath (parse base_mount) ("//" :: tail (parse server_dir)))
        with (joinpath (mkPath "//" []) (tail (parse server_dir))).
      rewrite (joinpath_clean _ _ Hsegs). simpl.
      destruct (parse server_dir) as [r t]. simpl in *. now subst.
Qed.

(** The directory of an entry with a leading slash leaves the mount. *)
Example build_file_path_rooted_directory :
  render (build_file_path "/mnt/records" "/etc" (Some "passwd"))
  = "/etc/passwd".
Proof. reflexivity. Qed.

(** The mount and the dot: the mount itself maps back to [.], and [.]
    is placed at the mount. *)
Theorem mount_is_dot (h : host) mount :
  is_mount mount = true ->
  normalize_path_for_query h mount mount = Ok "."
  /\ build_file_path mount "." None = parse mount.
Proof.
  unfold is_mount, normalize_path_for_query. intros Hm.
  apply negb_true_iff in Hm. apply String.eqb_neq in Hm. split.
  - rewrite (extract_rooted h _ _ Hm Hm).
    assert (Hsp : strip_prefix (realpath_walk [] (tail (parse mount)))
                               (realpath_walk [] (tail (parse mount)))
                  = Some []).
    { apply strip_prefix_Some. now rewrite app_nil_r. }
    now rewrite Hsp.
  - unfold build_file_path. simpl. now destruct (parse mount).
Qed.

Lemma mount_is_dot_witness :
  is_mount "/mnt/records" = true
  /\ normalize_path_for_query host0 "/mnt/records" "/mnt/records" = Ok "."
  /\ build_file_path "/mnt/records" "." None = parse "/mnt/records".
Proof.
  split; [reflexivity|].
  exact (mount_is_dot host0 "/mnt/records" eq_refl).
Defined.

End BuildFacts.

(** ** More on the filter pipeline *)

Section MoreFilterFacts.

Lemma excluded_by_app fs1 fs2 r :
  excluded_by (fs1 ++ fs2) r = excluded_by fs1 r || excluded_by fs2 r.
Proof. now rewrite !excluded_by_existsb, existsb_app. Qed.

Lemma filter_filter {A} (p q : A -> bool) l :
  filter p (filter q l) = filter (fun x => q x && p x) l.
Proof.
  induction l as [|x l IH]; simpl; [reflexivity|].
  destruct (q x); simpl; [destruct (p x); now rewrite IH | assumption].
Qed.

(** Filtering composes: filtering by two lists joined is filtering by
    the first and then by the second, filtering a second time by the
    same list changes nothing, nothing is added, and a record is in the
    result exactly when it is in the input and no filter excludes it. *)
Theorem apply_filters_composes fs1 fs2 records :
  apply_filters (fs1 ++ fs2) records
  = apply_filters fs2 (apply_filters fs1 records)
  /\ apply_filters fs1 (apply_filters fs1 records) = apply_filters fs1 records
  /\ (List.length (apply_filters fs1 records) <= List.length records)%nat
  /\ (forall r, In r (apply_filters fs1 records)
                <-> In r records /\ forall f, In f fs1 -> f r = false).
Proof.
  split; [|split; [|split]].
  - rewrite !apply_filters_filter, filter_filter. apply filter_ext.
    intros r. rewrite excluded_by_app. now rewrite negb_orb.
  - rewrite !apply_filters_filter, filter_filter. apply filter_ext.
    intros r. now destruct (excluded_by fs1 r).
  - rewrite apply_filters_filter. apply filter_length_le.
  - intros r. rewrite apply_filters_filter, filter_In, excluded_by_existsb.
    rewrite negb_true_iff. split; intros [Hin H]; (split; [assumption|]).
    + intros f Hf. destruct (f r) eqn:Hfr; [|reflexivity].
      assert (existsb (fun f0 => f0 r) fs1 = true)
        by (apply existsb_exists; eauto).
      congruence.
    + destruct (existsb (fun f => f r) fs1) eqn:He; [|reflexivity].
      apply existsb_exists in He. destruct He as [f [Hf Hfr]].
      rewrite (H f Hf) in Hfr. discriminate.
Qed.

End MoreFilterFacts.

(** ** Sessions without a confirmation *)

Section Unconfirmed.
Variable E : env.

Lemma bind_cases {A B} (m : M A) (k : A -> M B) w :
  (exists e, res (m w) = Raise e /\
             res (bind m k w) = Raise e /\
             st (bind m k w) = st (m w) /\
             evs (bind m k w) = evs (m w))
  \/ (exists a, res (m w) = Ok a /\
                res (bind m k w) = res (k a (st (m w))) /\
                st (bind m k w) = st (k a (st (m w))) /\
                evs (bind m k w) = evs (m w) ++ evs (k a (st (m w)))).
Proof.
  unfold bind. destruct (res (m w)) as [a|e]; [right; exists a | left; exists e];
    now repeat split.
Qed.

Lemma res_bind_Ok {A B} (m : M A) (k : A -> M B) w b :
  res (bind m k w) = Ok b ->
  exists a, res (m w) = Ok a /\ res (k a (st (m w))) = Ok b.
Proof.
  destruct (bind_cases m k w) as [(e & _ & Hr & _)|(a & Ha & Hr & _)];
    rewrite Hr; [discriminate | eauto].
Qed.

Lemma prompt_end_raises {A} w :
  exists e, @prompt_end E A w = mkOut (Raise e) w [].
Proof. unfold prompt_end. destruct (answers_end E); eexists; reflexivity. Qed.

Lemma prompt_end_not_Ok {A} w (a : A) : res (@prompt_end E A w) <> Ok a.
Proof. destruct (@prompt_end_raises A w) as [e ->]. discriminate. Qed.

(** The review of a file hands back a tail of the answers it was given. *)
Lemma review_prompts_suffix_fuel location_id file_id all_locations n :
  forall inputs w f rest,
    (List.length inputs <= n)%nat ->
    res (review_prompts E location_id file_id all_locations inputs w)
    = Ok (f, rest) ->
    exists pre, inputs = pre ++ rest.
Proof.
  induction n as [|n IH]; intros inputs w f rest Hlen Hres.
  - destruct inputs; [now apply prompt_end_not_Ok in Hres | simpl in Hlen; lia].
  - destruct inputs as [|u rest0]; [now apply prompt_end_not_Ok in Hres|].
    simpl in Hlen, Hres.
    assert (Hcont : forall w',
               res (review_prompts E location_id file_id all_locations
                                   rest0 w') = Ok (f, rest) ->
               exists pre, u :: rest0 = pre ++ rest).
    { intros w' H. destruct (IH rest0 w' f rest) as [pre ->]; [lia|assumption|].
      now exists (u :: pre). }
    destruct (parse_user_command u) as [[] numbers].
    + now apply (Hcont w).
    + apply res_bind_Ok in Hres. destruct Hres as (_ & _ & [= _ <-]).
      now exists [u].
    + injection Hres as _ <-. now exists [u].
    + apply res_bind_Ok in Hres. destruct Hres as (_ & _ & [= _ <-]).
      now exists [u].
    + apply res_bind_Ok in Hres. destruct Hres as (num & _ & Hres).
      apply res_bind_Ok in Hres. destruct Hres as (_ & _ & Hres).
      now apply Hcont in Hres.
    + destruct (valid_numbers_of numbers all_locations) as [|v vs];
        [now apply (Hcont w)|].
      destruct rest0 as [|confirm rest'];
        [now apply prompt_end_not_Ok in Hres|].
      destruct (negb (confirmed confirm)).
      * destruct (IH rest' w f rest) as [pre ->];
          [simpl in Hlen; lia | assumption |].
        now exists (u :: confirm :: pre).
      * apply res_bind_Ok in Hres. destruct Hres as (pf & _ & Hres).
        apply res_bind_Ok in Hres. destruct Hres as (_ & _ & [= _ <-]).
        now exists [u; confirm].
Qed.

Lemma review_prompts_suffix location_id file_id all_locations inputs w f rest :
  res (review_prompts E location_id file_id all_locations inputs w)
  = Ok (f, rest) ->
  exists pre, inputs = pre ++ rest.
Proof.
  now apply review_prompts_suffix_fuel with (n := List.length inputs).
Qed.

Variable D : list deleted_file.

Local Abbreviation calm := (safe (fun l => deleted_files l = D) not_enqueued).

Lemma calm_record_processed_file file_id loc d :
  calm (sweep_db_record_processed_file E file_id loc d).
Proof.
  apply safe_record_processed_file.
  intros l now fid lc dc l' id Hl. unfold record_processed_file.
  destruct (is_file_processed l fid); [discriminate|].
  now intros [= <- _].
Qed.

Lemma calm_review_prompts_fuel location_id file_id all_locations n :
  forall inputs,
    (List.length inputs <= n)%nat ->
    Forall (fun s => confirmed s = false) inputs ->
    calm (review_prompts E location_id file_id all_locations inputs).
Proof.
  induction n as [|n IH]; intros inputs Hlen Hno.
  - destruct inputs; [apply safe_prompt_end | simpl in Hlen; lia].
  - destruct inputs as [|u rest0]; [apply safe_prompt_end|].
    simpl in Hlen. inversion Hno as [|? ? _ Hno0]; subst. simpl.
    assert (Hrest : calm (review_prompts E location_id file_id all_locations
                                         rest0))
      by (apply IH; [lia | assumption]).
    destruct (parse_user_command u) as [[] numbers].
    + exact Hrest.
    + apply safe_bind; [apply calm_record_processed_file |
                        intros _; apply safe_ret].
    + apply safe_ret.
    + apply safe_bind; [now apply safe_sync | intros _; apply safe_ret].
    + apply safe_bind; [apply safe_lift|]. intros num.
      apply safe_bind; [|intros _; exact Hrest].
      destruct ((1 <=? num) && (num <=? Z.of_nat (List.length all_locations))).
      * apply safe_bind; [apply safe_lift|]. intros loc.
        apply safe_bind; [apply safe_oracle|]. intros ok.
        now apply safe_emit.
      * apply safe_ret.
    + destruct (valid_numbers_of numbers all_locations) as [|v vs];
        [exact Hrest|].
      destruct rest0 as [|confirm rest']; [apply safe_prompt_end|].
      inversion Hno0 as [|? ? Hc Hno']; subst. rewrite Hc. simpl.
      apply IH; [simpl in Hlen; lia | assumption].
Qed.

Lemma calm_review_files location_id file_ids :
  forall last_sync_time inputs w,
    Forall (fun s => confirmed s = false) inputs ->
    deleted_files (db w) = D ->
    deleted_files
      (db (st (review_files E location_id file_ids last_sync_time inputs w)))
    = D
    /\ Forall not_enqueued
         (evs (review_files E location_id file_ids last_sync_time inputs w)).
Proof.
  induction file_ids as [|file_id more IH]; intros last inputs w Hno Hw;
    [now split|].
  simpl review_files.
  set (locs := get_all_locations_for_file (env_catalog E) file_id).
  destruct (bind_cases (display_file_locations file_id locs)
              (fun _ => r <- review_prompts E location_id file_id locs inputs;;
                        match fst r with
                        | Break =>
                            current_time <- oracle (time_time E);;
                            (if sync_interval <=? current_time - last
                             then sync_to_storage E Periodic;;;
                                  review_files E location_id more
                                               current_time (snd r)
                             else review_files E location_id more last (snd r))
                        | Return => ret Return
                        end) w)
    as [(e & _ & _ & Hst & Hev)|(u & _ & _ & Hst & Hev)];
    rewrite Hst, Hev; clear Hst Hev;
    destruct (safe_display (fun l => deleted_files l = D) not_enqueued
                file_id locs (fun _ => Logic.I) w Hw) as [Hd1 He1];
    [now split|].
  set (w1 := st (display_file_locations file_id locs w)) in *.
  match goal with
  | |- context [bind ?m ?k w1] =>
      destruct (bind_cases m k w1)
        as [(e & _ & _ & Hst & Hev)|(r & Hr & _ & Hst & Hev)]
  end; rewrite Hst, Hev; clear Hst Hev;
    destruct (calm_review_prompts_fuel location_id file_id locs
                (List.length inputs) inputs (le_n _) Hno w1 Hd1)
      as [Hd2 He2];
    [split; [assumption | now apply Forall_app]|].
  set (w2 := st (review_prompts E location_id file_id locs inputs w1)) in *.
  assert (Hno' : Forall (fun s => confirmed s = false) (snd r)).
  { destruct r as [f rest]. apply review_prompts_suffix in Hr.
    destruct Hr as [pre ->]. apply Forall_app in Hno. now destruct Hno. }
  destruct (fst r).
  - rewrite bind_oracle.
    destruct (sync_interval <=? time_time E (tick w2) - last).
    + match goal with
      | |- context [bind ?m ?k ?w3] =>
          destruct (bind_cases m k w3)
            as [(e & _ & _ & Hst & Hev)|(u' & _ & _ & Hst & Hev)];
          rewrite Hst, Hev; clear Hst Hev;
          destruct (safe_sync E (fun l => deleted_files l = D) not_enqueued
                      Periodic (fun _ => Logic.I) w3 Hd2) as [Hd3 He3]
      end.
      * split; [assumption | repeat (apply Forall_app; split); assumption].
      * match goal with
        | |- context [review_files E location_id more ?t (snd r) ?w4] =>
            destruct (IH t (snd r) w4 Hno' Hd3) as [Hd4 He4]
        end.
        split; [assumption | repeat (apply Forall_app; split); assumption].
    + match goal with
      | |- context [review_files E location_id more ?t (snd r) ?w4] =>
          destruct (IH t (snd r) w4 Hno' Hd2) as [Hd4 He4]
      end.
      split; [assumption | repeat (apply Forall_app; split); assumption].
  - split; [assumption|].
    repeat (apply Forall_app; split); try assumption. constructor.
Qed.

End Unconfirmed.

Section UnconfirmedRun.
Variable E : env.

Lemma calm_sweep_body location_path inputs w :
  Forall (fun s => confirmed s = false) inputs ->
  deleted_files (db (st (sweep_body E location_path inputs w)))
  = deleted_files (db w)
  /\ Forall not_enqueued (evs (sweep_body E location_path inputs w)).
Proof.
  intros Hno.
  destruct (sweep_body_run E location_path inputs w)
    as [[Hnil [Hdb _]]|[target Hrun]].
  - rewrite Hnil, Hdb. now split.
  - cbv zeta in Hrun. rewrite Hrun.
    now apply calm_review_files.
Qed.

(** Without a yes nothing is deleted.  When none of the answers of the
    operator is [yes] or [y], in any case of letters, a sweep never calls
    the deletion service and leaves the table of deletions as it was,
    whatever else the operator typed. *)
Theorem no_confirmation_no_deletion location_path disk inputs :
  Forall (fun s => confirmed s = false) inputs ->
  deleted_files (db (st (run_sweep E location_path disk inputs)))
  = deleted_files (open_db disk)
  /\ forall p r,
       ~ In (Enqueued p r) (evs (run_sweep E location_path disk inputs)).
Proof.
  intros Hno.
  destruct (calm_sweep_body location_path inputs
              (mkWorld (open_db disk) (storage_file disk) 0) Hno) as [Hd He].
  split.
  - rewrite run_sweep_db.
    match goal with
    | |- context [sweep_except E ?lp ?r ?w] =>
        destruct (sweep_except_run E lp r w) as [_ [_ Hdb]]
    end.
    rewrite Hdb.
    now destruct (res (sweep_body E location_path inputs _)) as [a|[e|]].
  - intros p r Hin.
    destruct (run_sweep_events E location_path disk inputs) as [f Hev].
    rewrite Hev in Hin. apply in_app_or in Hin. destruct Hin as [Hin|Hin].
    + rewrite Forall_forall in He. exact (He _ Hin).
    + unfold final_events in Hin.
      destruct f; simpl in Hin; intuition discriminate.
Qed.

End UnconfirmedRun.

Section UnconfirmedExample.

Lemma no_confirmation_no_deletion_witness :
  Forall (fun s => confirmed s = false) ["1 2"; "no"; "1"; "Yes please"; "c"]
  /\ deleted_files
       (db (st (run_sweep (env0 [] None) "/mnt/records/A" (mkFiles None None)
                          ["1 2"; "no"; "1"; "Yes please"; "c"]))) = []
  /\ forall p r,
       ~ In (Enqueued p r)
            (evs (run_sweep (env0 [] None) "/mnt/records/A" (mkFiles None None)
                            ["1 2"; "no"; "1"; "Yes please"; "c"])).
Proof.
  assert (H : Forall (fun s => confirmed s = false)
                     ["1 2"; "no"; "1"; "Yes please"; "c"])
    by (repeat constructor).
  split; [exact H|].
  exact (no_confirmation_no_deletion (env0 [] None) "/mnt/records/A" (mkFiles None None)
           ["1 2"; "no"; "1"; "Yes please"; "c"] H).
Defined.

End UnconfirmedExample.

(** ** The files of a sweep, and its location row *)

Section ReviewOrder.
Variable E : env.

(** The body of the sweep, case by case. *)
Lemma sweep_body_at location_path inputs w :
  match normalize_path_for_query (env_host E) location_path
                                 (file_server_mount E) with
  | Raise e => sweep_body E location_path inputs w = mkOut (Raise e) w []
  | Ok target_location =>
      match review_list E (db w) target_location with
      | [] => sweep_body E location_path inputs w = mkOut (Ok Return) w []
      | file_ids =>
          sweep_body E location_path inputs w
          = review_files E (seq_processed_locations (db w) + 1) file_ids
              (time_time E (S (tick w))) inputs
              (mkWorld
                 (fst (record_processed_location
                         (db w) (utcnow E (tick w)) location_path
                         (Z.of_nat (List.length file_ids)) false))
                 (storage w) (S (S (tick w))))
      end
  end.
Proof.
  unfold sweep_body, review_list.
  destruct (normalize_path_for_query (env_host E) location_path
              (file_server_mount E)) as [target|e]; [|reflexivity].
  unfold lift. rewrite bind_ret.
  destruct (find_duplicates_in_location (env_catalog E) target) eqn:Hd.
  - reflexivity.
  - rewrite <- Hd, bind_get_db.
    destruct (group_by_file_id (unprocessed_records E (db w)
                (find_duplicates_in_location (env_catalog E) target)))
      as [|g grouped] eqn:Hg; [reflexivity|].
    rewrite bind_record_processed_location, bind_oracle.
    change (map fst (g :: grouped)) with (fst g :: map fst grouped).
    cbv iota. simpl List.length. now rewrite length_map.
Qed.

Lemma presented_ids_app a b :
  presented_ids (a ++ b) = presented_ids a ++ presented_ids b.
Proof. apply flat_map_app. Qed.

Lemma presented_ids_none events :
  Forall not_presented events -> presented_ids events = [].
Proof.
  induction 1 as [|ev events Hev _ IH]; [reflexivity|].
  simpl. rewrite IH. now destruct ev.
Qed.

Lemma display_run file_id locations w :
  display_file_locations file_id locations w
  = match py_index locations 0 with
    | Ok _ => mkOut (Ok tt) w [Presented file_id locations]
    | Raise e => mkOut (Raise e) w []
    end.
Proof.
  unfold display_file_locations, bind.
  now destruct (py_index locations 0).
Qed.

Lemma review_prompts_presents_nothing location_id file_id locs inputs w :
  presented_ids (evs (review_prompts E location_id file_id locs inputs w)) = [].
Proof.
  apply presented_ids_none.
  now apply (safe_review_prompts E (fun _ => True)
               (fun _ _ _ _ _ _ _ _ _ => Logic.I)
               (fun _ _ _ _ _ _ => Logic.I)
               (fun _ _ _ _ _ _ => Logic.I)
               not_presented
               (fun _ _ => Logic.I) (fun _ _ => Logic.I) (fun _ => Logic.I)
               location_id file_id locs inputs w Logic.I).
Qed.

(** The review loop presents the files of its list in order, each once,
    up to where it ends, and all of them when it runs to its end. *)
Lemma review_files_presents_prefix location_id file_ids :
  forall last_sync_time inputs w,
  exists later,
    file_ids
    = presented_ids
        (evs (review_files E location_id file_ids last_sync_time inputs w))
      ++ later
    /\ (res (review_files E location_id file_ids last_sync_time inputs w)
        = Ok Break -> later = []).
Proof.
  induction file_ids as [|file_id more IH]; intros last inputs w;
    [now exists []|].
  simpl review_files.
  set (locs := get_all_locations_for_file (env_catalog E) file_id).
  match goal with
  | |- context [bind ?m ?k w] =>
      destruct (bind_cases m k w)
        as [(e & Hm & Hr & _ & Hev)|(u & Hm & Hr & _ & Hev)]
  end; rewrite Hr, Hev; clear Hr Hev; rewrite display_run in *;
    destruct (py_index locs 0) as [loc|e0]; simpl in Hm; try discriminate.
  { exists (file_id :: more). now split. }
  simpl evs. simpl st.
  match goal with
  | |- context [bind ?m ?k w] =>
      destruct (bind_cases m k w)
        as [(e & _ & Hr & _ & Hev)|(r & _ & Hr & _ & Hev)]
  end; rewrite Hr, Hev; clear Hr Hev;
    rewrite !presented_ids_app, review_prompts_presents_nothing;
    change (presented_ids [Presented file_id locs]) with [file_id];
    simpl app.
  { exists more. now split. }
  set (w2 := st (review_prompts E location_id file_id locs inputs w)).
  destruct (fst r).
  - rewrite bind_oracle.
    destruct (sync_interval <=? time_time E (tick w2) - last).
    + match goal with
      | |- context [bind ?m ?k ?w3] =>
          destruct (bind_cases m k w3)
            as [(e & Hm' & Hr & _ & Hev)|(u' & Hm' & Hr & _ & Hev)]
      end; rewrite Hr, Hev; clear Hr Hev;
        rewrite ?presented_ids_app;
        unfold sync_to_storage in *;
        destruct (sync_failure E _); simpl in Hm'; try discriminate.
      * exists more. now split.
      * simpl. match goal with
        | |- context [review_files E location_id more ?t (snd r) ?w4] =>
            destruct (IH t (snd r) w4) as [later [Hl Hb]]
        end.
        exists later. split; [now rewrite Hl at 1 | assumption].
    + match goal with
      | |- context [review_files E location_id more ?t (snd r) ?w4] =>
          destruct (IH t (snd r) w4) as [later [Hl Hb]]
      end.
      exists later. split; [simpl; now rewrite Hl at 1 | assumption].
  - exists more. now split.
Qed.

End ReviewOrder.

Section ReviewOrderRun.
Variable E : env.

Lemma presented_ids_final failure : presented_ids (final_events failure) = [].
Proof. now destruct failure. Qed.

Lemma presented_ids_run location_path disk inputs :
  presented_ids (evs (run_sweep E location_path disk inputs))
  = presented_ids
      (evs (sweep_body E location_path inputs
                       (mkWorld (open_db disk) (storage_file disk) 0))).
Proof.
  destruct (run_sweep_events E location_path disk inputs) as [f ->].
  now rewrite presented_ids_app, presented_ids_final, app_nil_r.
Qed.

(** A sweep presents the files it has to review in the order of
    discovery, each at most once: the files presented are a beginning of
    the review list, and the whole list when the review runs to its end.
    When the location cannot be mapped to the catalog, no file is
    presented. *)
Theorem files_presented_in_discovery_order location_path disk inputs :
  NoDup (presented_ids (evs (run_sweep E location_path disk inputs)))
  /\ match normalize_path_for_query (env_host E) location_path
                                    (file_server_mount E) with
     | Ok target_location =>
         exists later,
           review_list E (open_db disk) target_location
           = presented_ids (evs (run_sweep E location_path disk inputs))
             ++ later
           /\ (res (sweep_body E location_path inputs
                               (mkWorld (open_db disk) (storage_file disk) 0))
               = Ok Break -> later = [])
     | Raise _ =>
         presented_ids (evs (run_sweep E location_path disk inputs)) = []
     end.
Proof.
  rewrite presented_ids_run.
  pose proof (sweep_body_at E location_path inputs
                (mkWorld (open_db disk) (storage_file disk) 0)) as Hat.
  destruct (normalize_path_for_query (env_host E) location_path
              (file_server_mount E)) as [target|e].
  - assert (Hex : exists later,
               review_list E (open_db disk) target
               = presented_ids
                   (evs (sweep_body E location_path inputs
                                    (mkWorld (open_db disk) (storage_file disk) 0)))
                 ++ later
               /\ (res (sweep_body E location_path inputs
                                   (mkWorld (open_db disk) (storage_file disk) 0))
                   = Ok Break -> later = [])).
    { simpl db in Hat.
      destruct (review_list E (open_db disk) target) as [|fid ids] eqn:Hl.
      - rewrite Hat. exists []. now split.
      - rewrite Hat. apply review_files_presents_prefix. }
    split; [|exact Hex].
    destruct Hex as [later [Hl _]].
    apply NoDup_app_remove_r with (l' := later). rewrite <- Hl.
    apply group_keys_NoDup.
  - rewrite Hat. split; [constructor | reflexivity].
Qed.

(** The location row of a sweep.  A sweep that has files to review adds
    one row to the processed locations, before the review: the path as
    the operator gave it, the number of files to review, and the
    completion flag 0.  Nothing in the sweep touches the table after
    that, so the flag stays 0 also when every file was reviewed.  A
    sweep with nothing to review, or with a location it cannot map, adds
    no row. *)
Theorem location_row_of_a_sweep location_path disk inputs :
  processed_locations (db (st (run_sweep E location_path disk inputs)))
  = processed_locations (open_db disk)
    ++ match normalize_path_for_query (env_host E) location_path
                                      (file_server_mount E) with
       | Ok target_location =>
           match review_list E (open_db disk) target_location with
           | [] => []
           | file_ids =>
               [mkProcessedLocation
                  (seq_processed_locations (open_db disk) + 1)
                  location_path (utcnow E 0)
                  (Z.of_nat (List.length file_ids)) 0]
           end
       | Raise _ => []
       end.
Proof.
  rewrite run_sweep_db.
  match goal with
  | |- context [sweep_except E ?lp ?r ?w] =>
      destruct (sweep_except_run E lp r w) as [_ [_ Hdb]]
  end.
  rewrite Hdb. clear Hdb.
  assert (Hbody :
    processed_locations
      (db (st (sweep_body E location_path inputs
                          (mkWorld (open_db disk) (storage_file disk) 0))))
    = processed_locations (open_db disk)
      ++ match normalize_path_for_query (env_host E) location_path
                                        (file_server_mount E) with
         | Ok target_location =>
             match review_list E (open_db disk) target_location with
             | [] => []
             | file_ids =>
                 [mkProcessedLocation
                    (seq_processed_locations (open_db disk) + 1)
                    location_path (utcnow E 0)
                    (Z.of_nat (List.length file_ids)) 0]
             end
         | Raise _ => []
         end).
  { pose proof (sweep_body_at E location_path inputs
                  (mkWorld (open_db disk) (storage_file disk) 0)) as Hat.
    destruct (normalize_path_for_query (env_host E) location_path
                (file_server_mount E)) as [target|e];
      [|rewrite Hat; simpl; now rewrite app_nil_r].
    simpl db in Hat.
    destruct (review_list E (open_db disk) target) as [|fid ids];
      [rewrite Hat; simpl; now rewrite app_nil_r|].
    rewrite Hat.
    apply (review_files_keeps E
             (fun l => processed_locations l
                       = processed_locations (open_db disk)
                         ++ [mkProcessedLocation
                               (seq_processed_locations (open_db disk) + 1)
                               location_path (utcnow E 0)
                               (Z.of_nat (List.length (fid :: ids))) 0])).
    - intros l now f lc d l' id Hl. unfold record_processed_file.
      destruct (is_file_processed l f); [discriminate|].
      now intros [= <- _].
    - now intros.
    - now intros.
    - reflexivity. }
  destruct (res (sweep_body E location_path inputs _)) as [a|[e|]];
    exact Hbody.
Qed.

(** A sweep with nothing to review writes nothing: when discovery,
    filtering and the ledger leave no file, the ledger stays as it was,
    no file is presented, and the sweep goes straight to its final sync. *)
Theorem nothing_to_review_writes_nothing
        location_path disk inputs target_location :
  normalize_path_for_query (env_host E) location_path (file_server_mount E)
  = Ok target_location ->
  review_list E (open_db disk) target_location = [] ->
  db (st (run_sweep E location_path disk inputs)) = open_db disk
  /\ evs (run_sweep E location_path disk inputs)
     = final_events (sync_failure E 0).
Proof.
  intros Hn Hl.
  pose proof (sweep_body_at E location_path inputs
                (mkWorld (open_db disk) (storage_file disk) 0)) as Hat.
  rewrite Hn in Hat. simpl db in Hat. rewrite Hl in Hat.
  unfold run_sweep. rewrite Hat. simpl.
  rewrite sweep_finally_run. simpl.
  now destruct (sync_failure E 0).
Qed.

End ReviewOrderRun.

Section ReviewOrderExamples.

(** File 7 has a single copy at [B]: a sweep of [B] finds nothing. *)
Lemma nothing_to_review_writes_nothing_witness :
  normalize_path_for_query host0 "/mnt/records/B" "/mnt/records" = Ok "B"
  /\ review_list (env0 [] None) (open_db (mkFiles None None)) "B" = []
  /\ db (st (run_sweep (env0 [] None) "/mnt/records/B" (mkFiles None None) ["c"]))
     = open_db (mkFiles None None)
  /\ evs (run_sweep (env0 [] None) "/mnt/records/B" (mkFiles None None) ["c"])
     = final_events None.
Proof.
  split; [reflexivity|]. split; [reflexivity|].
  exact (nothing_to_review_writes_nothing (env0 [] None) "/mnt/records/B"
           (mkFiles None None) ["c"] "B" eq_refl eq_refl).
Defined.

Example presented_until_quit :
  presented_ids (evs (run_sweep (env0 [] None) "/mnt/records/A" (mkFiles None None) ["q"]))
  = [7]
  /\ review_list (env0 [] None) (open_db (mkFiles None None)) "A" = [7; 8].
Proof. split; reflexivity. Qed.

End ReviewOrderExamples.

(** ** The references between the tables *)

Section References.
Variable E : env.

(** The ledger keeps its references, and knows the location [lid]. *)
Local Abbreviation J lid :=
  (fun l => references_ok l /\ In lid (map pl_id (processed_locations l))).

Local Abbreviation firm lid := (safe (J lid) (fun _ : event => True)).

Lemma J_log_error lid l now op msg ctx :
  J lid l -> J lid (log_error l now op msg ctx).
Proof. now intros H. Qed.

Lemma J_record_processed_file lid l now file_id d l' id :
  J lid l ->
  record_processed_file l now file_id lid d = Ok (l', id) ->
  J lid l'.
Proof.
  intros [[Hd Hf] Hl]. unfold record_processed_file.
  destruct (is_file_processed l file_id); [discriminate|].
  intros [= <- _]. repeat split; simpl; try assumption.
  - intros x Hx. rewrite map_app. apply in_or_app. left. now apply Hd.
  - intros f Hin. apply in_app_or in Hin.
    destruct Hin as [Hin|[<-|[]]]; [now apply Hf | exact Hl].
Qed.

Lemma firm_record_processed_file lid file_id d :
  firm lid (sweep_db_record_processed_file E file_id lid d).
Proof.
  intros w Hw. unfold sweep_db_record_processed_file, bind. simpl.
  destruct (record_processed_file (db w) (utcnow E (tick w)) file_id lid d)
    as [[l' id]|e] eqn:Hr; simpl.
  - split; [|constructor].
    exact (J_record_processed_file lid _ _ _ _ _ _ Hw Hr).
  - now split.
Qed.

Lemma deletions_of_reference pf attempts rows :
  map deletion_columns rows = deletions_of E pf attempts ->
  forall d, In d rows -> df_processed_file_id d = pf.
Proof.
  intros Hmap d Hd.
  assert (Hin : In (deletion_columns d) (deletions_of E pf attempts))
    by (rewrite <- Hmap; now apply in_map).
  unfold deletions_of in Hin. apply in_flat_map in Hin.
  destruct Hin as [a [_ Ha]]. destruct (snd a); [destruct Ha|].
  destruct Ha as [Ha|[]]. unfold deletion_columns in Ha.
  now injection Ha as <- _ _.
Qed.

(** A confirmed delete keeps the references: its deletions name the
    processed file it has just recorded. *)
Lemma firm_confirmed_delete lid file_id locs valid_numbers (b : flow * list string) d :
  Forall (fun n => in_range locs n = true) valid_numbers ->
  firm lid
    (processed_file_id <- sweep_db_record_processed_file E file_id lid d ;;
     delete_selected E processed_file_id locs valid_numbers ;;;
     ret b).
Proof.
  intros Hrange w Hw. split; [|apply Forall_forall; now intros].
  destruct (is_file_processed (db w) file_id) eqn:Hp.
  - unfold bind at 1, sweep_db_record_processed_file, bind, oracle, get_db,
      lift. simpl.
    rewrite (record_processed_file_known _ _ _ _ _ Hp). simpl. exact Hw.
  - rewrite (bind_record_processed_file_fresh E _ _ _ _ _ Hp).
    match goal with
    | |- context [bind (delete_selected E ?pf _ _) _ ?w1] =>
        destruct (delete_selected_run E pf locs valid_numbers Hrange w1)
          as (attempts & nd & ne & _ & Hres & _ & Hd & Hdc & _ & _
              & Hpf & Hpl);
        rewrite (bind_then_ret _ tt b w1 Hres)
    end.
    simpl st. simpl in Hd, Hpf, Hpl.
    destruct Hw as [[Hrd Hrf] Hl].
    unfold references_ok. rewrite Hd, Hpf, Hpl. repeat split.
    + intros x Hx. rewrite map_app. apply in_app_or in Hx.
      destruct Hx as [Hx|Hx].
      * apply in_or_app. left. now apply Hrd.
      * apply in_or_app. right. left. simpl.
        symmetry. exact (deletions_of_reference _ _ _ Hdc x Hx).
    + intros f Hin. apply in_app_or in Hin.
      destruct Hin as [Hin|[<-|[]]]; [now apply Hrf | exact Hl].
    + exact Hl.
Qed.

Lemma firm_review_prompts_fuel lid file_id locs n :
  forall inputs, (List.length inputs <= n)%nat ->
  firm lid (review_prompts E lid file_id locs inputs).
Proof.
  induction n as [|n IH]; intros inputs Hlen.
  - destruct inputs; [apply safe_prompt_end | simpl in Hlen; lia].
  - destruct inputs as [|u rest]; [apply safe_prompt_end|].
    simpl in Hlen. simpl.
    assert (Hrest : firm lid (review_prompts E lid file_id locs rest))
      by (apply IH; lia).
    destruct (parse_user_command u) as [[] numbers].
    + exact Hrest.
    + apply safe_bind; [apply firm_record_processed_file |
                        intros _; apply safe_ret].
    + apply safe_ret.
    + apply safe_bind; [now apply safe_sync | intros _; apply safe_ret].
    + apply safe_bind; [apply safe_lift|]. intros num.
      apply safe_bind; [|intros _; exact Hrest].
      destruct ((1 <=? num) && (num <=? Z.of_nat (List.length locs))).
      * apply safe_bind; [apply safe_lift|]. intros loc.
        apply safe_bind; [apply safe_oracle|]. intros ok.
        now apply safe_emit.
      * apply safe_ret.
    + pose proof (valid_numbers_in_range numbers locs) as Hrange.
      destruct (valid_numbers_of numbers locs) as [|v vs]; [exact Hrest|].
      destruct rest as [|confirm rest']; [apply safe_prompt_end|].
      destruct (negb (confirmed confirm)).
      * apply IH. simpl in Hlen. lia.
      * now apply firm_confirmed_delete.
Qed.

Lemma firm_review_files lid file_ids : forall last_sync_time inputs,
  firm lid (review_files E lid file_ids last_sync_time inputs).
Proof.
  induction file_ids as [|file_id more IH]; intros last inputs; simpl.
  - apply safe_ret.
  - apply safe_bind; [now apply safe_display|]. intros _.
    apply safe_bind.
    { apply firm_review_prompts_fuel with (n := List.length inputs). lia. }
    intros [[] rest]; simpl; [|apply safe_ret].
    apply safe_bind; [apply safe_oracle|]. intros current_time.
    destruct (sync_interval <=? current_time - last).
    + apply safe_bind; [now apply safe_sync | intros _; apply IH].
    + apply IH.
Qed.

(** The references between the tables hold after a sweep as before it,
    although the store does not enforce them: every deletion names a
    processed file of the ledger, and every processed file a processed
    location of the ledger. *)
Theorem references_kept_by_a_sweep location_path disk inputs :
  references_ok (open_db disk) ->
  references_ok (db (st (run_sweep E location_path disk inputs))).
Proof.
  intros Hok. rewrite run_sweep_db.
  match goal with
  | |- context [sweep_except E ?lp ?r ?w] =>
      destruct (sweep_except_run E lp r w) as [_ [_ Hdb]]
  end.
  rewrite Hdb. clear Hdb.
  assert (Hbody : references_ok
                    (db (st (sweep_body E location_path inputs
                                        (mkWorld (open_db disk) (storage_file disk) 0))))).
  { destruct (sweep_body_run E location_path inputs
                (mkWorld (open_db disk) (storage_file disk) 0))
      as [[_ [Hdb _]]|[target Hrun]].
    - now rewrite Hdb.
    - cbv zeta in Hrun. rewrite Hrun.
      match goal with
      | |- context [review_files E ?lid ?ids ?t inputs ?w1] =>
          destruct (firm_review_files lid ids t inputs w1) as [[H _] _];
          [|exact H]
      end.
      simpl. destruct Hok as [Hd Hf]. repeat split; simpl.
      + exact Hd.
      + intros f Hin. rewrite map_app. apply in_or_app. left. now apply Hf.
      + rewrite map_app. apply in_or_app. right. now left. }
  destruct (res (sweep_body E location_path inputs _)) as [a|[e|]];
    exact Hbody.
Qed.

End References.

Section ReferencesExample.

Lemma references_kept_by_a_sweep_witness :
  references_ok (open_db (mkFiles None (Some ledger7)))
  /\ references_ok
       (db (st (run_sweep (env0 ["/mnt/records/A/q.pdf"] None)
                          "/mnt/records/A" (mkFiles None (Some ledger7))
                          ["1 2"; "yes"]))).
Proof.
  assert (H : references_ok (open_db (mkFiles None (Some ledger7)))).
  { split; simpl.
    - intros d [].
    - intros f [<-|[]]. now left. }
  split; [exact H|].
  exact (references_kept_by_a_sweep
           (env0 ["/mnt/records/A/q.pdf"] None) "/mnt/records/A"
           (mkFiles None (Some ledger7)) ["1 2"; "yes"] H).
Defined.

End ReferencesExample.

(** ** The configuration *)

Section ConfigFacts.
Variable getenv : string -> option string.

Local Abbreviation is_set := (Cli.is_set getenv).

Lemma dict_get_set d k v k' :
  dict_get (dict_set d k v) k'
  = if String.eqb k k' then Some v else dict_get d k'.
Proof.
  induction d as [|[k0 v0] d IH]; simpl.
  - reflexivity.
  - destruct (String.eqb_spec k0 k) as [->|Hne]; simpl.
    + destruct (String.eqb k k'); reflexivity.
    + rewrite IH. destruct (String.eqb_spec k0 k') as [->|_]; [|reflexivity].
      destruct (String.eqb_spec k k'); [congruence | reflexivity].
Qed.

Lemma dict_set_keys_new d k v :
  dict_get d k = None -> map fst (dict_set d k v) = map fst d ++ [k].
Proof.
  induction d as [|[k0 v0] d IH]; simpl; [reflexivity|].
  destruct (String.eqb k0 k); [discriminate|].
  intros H. simpl. now rewrite IH.
Qed.

Lemma collect_vars_spec vars : forall config missing,
  NoDup vars ->
  (forall v, In v vars -> dict_get config v = None) ->
  snd (collect_vars getenv vars config missing)
  = missing ++ filter (fun v => negb (is_set v)) vars
  /\ map fst (fst (collect_vars getenv vars config missing))
     = map fst config ++ filter is_set vars
  /\ forall k,
       dict_get (fst (collect_vars getenv vars config missing)) k
       = if existsb (String.eqb k) vars && is_set k
         then getenv k else dict_get config k.
Proof.
  induction vars as [|var vars IH]; intros config missing Hnd Hfresh.
  - simpl. rewrite !app_nil_r. now repeat split.
  - inversion Hnd as [|? ? Hnot Hnd']; subst.
    simpl collect_vars. simpl filter. simpl existsb.
    destruct (getenv var) as [value|] eqn:Hvar.
    + assert (Hset : is_set var = true)
        by (unfold Cli.is_set; now rewrite Hvar).
      rewrite Hset. simpl negb. cbv iota.
      destruct (IH (dict_set config var value) missing Hnd')
        as (Hm & Hk & Hg).
      { intros v Hv. rewrite dict_get_set.
        destruct (String.eqb_spec var v) as [->|_]; [contradiction|].
        apply Hfresh. now right. }
      split; [exact Hm|]. split.
      * rewrite Hk, dict_set_keys_new by (apply Hfresh; now left).
        now rewrite <- app_assoc.
      * intros k. rewrite Hg, dict_get_set.
        destruct (String.eqb_spec k var) as [->|Hne].
        -- rewrite String.eqb_refl, Hset. simpl. rewrite Hvar.
           destruct (existsb (String.eqb var) vars); reflexivity.
        -- destruct (String.eqb_spec var k); [congruence|]. reflexivity.
    + assert (Hset : is_set var = false)
        by (unfold Cli.is_set; now rewrite Hvar).
      rewrite Hset. simpl negb. cbv iota.
      destruct (IH config (missing ++ [var]) Hnd') as (Hm & Hk & Hg).
      { intros v Hv. apply Hfresh. now right. }
      split; [now rewrite Hm, <- app_assoc|]. split; [exact Hk|].
      intros k. rewrite Hg.
      destruct (String.eqb_spec k var) as [->|Hne]; [|reflexivity].
      rewrite Hset. simpl. now rewrite andb_false_r.
Qed.

(** The configuration is complete or there is none.  When
    [load_env_config] returns, every required variable is in the
    configuration with the value of the environment, in the order of the
    list, and so is every key that [run_sweep] reads; a variable set to
    the empty text counts as set.  When a required variable is not set,
    the command leaves with exit code 1. *)
Theorem load_env_config_complete_or_exit :
  match load_env_config getenv with
  | Returned config =>
      map fst config = required_vars
      /\ (forall var, In var required_vars ->
                      getenv var <> None /\ dict_get config var = getenv var)
      /\ (forall key, In key keys_read_by_run_sweep ->
                      exists value, dict_get config key = Some value)
  | Exit code =>
      code = 1 /\ exists var, In var required_vars /\ getenv var = None
  end.
Proof.
  unfold load_env_config.
  assert (Hnd : NoDup required_vars).
  { unfold required_vars.
    repeat (constructor; [simpl; intuition discriminate|]). constructor. }
  destruct (collect_vars_spec required_vars [] [] Hnd (fun _ _ => eq_refl))
    as (Hm & Hk & Hg).
  destruct (collect_vars getenv required_vars [] []) as [config missing].
  cbn [fst snd app map] in Hm, Hk, Hg.
  destruct missing as [|m missing].
  - assert (Hall : forall var, In var required_vars -> is_set var = true).
    { intros var Hin. destruct (is_set var) eqn:Hs; [reflexivity|].
      assert (Hf : In var (filter (fun v => negb (is_set v)) required_vars))
        by (apply filter_In; split; [assumption | now rewrite Hs]).
      rewrite <- Hm in Hf. destruct Hf. }
    assert (Hvars : forall var, In var required_vars ->
               getenv var <> None /\ dict_get config var = getenv var).
    { intros var Hin. pose proof (Hall var Hin) as Hs.
      split.
      - unfold Cli.is_set in Hs. now destruct (getenv var).
      - rewrite Hg, Hs, andb_true_r.
        assert (He : existsb (String.eqb var) required_vars = true).
        { apply existsb_exists. exists var. split; [assumption|].
          apply String.eqb_refl. }
        now rewrite He. }
    split; [|split].
    + rewrite Hk. clear -Hall.
      induction required_vars as [|v vs IH]; [reflexivity|].
      simpl. rewrite (Hall v (or_introl eq_refl)). f_equal.
      apply IH. intros var Hin. apply Hall. now right.
    + exact Hvars.
    + intros key Hkey.
      assert (Hin : In key required_vars).
      { unfold keys_read_by_run_sweep in Hkey. unfold required_vars.
        simpl in *. intuition. }
      destruct (Hvars key Hin) as [Hset Hget]. rewrite Hget.
      destruct (getenv key) as [value|]; [now exists value | congruence].
  - split; [reflexivity|].
    assert (Hf : In m (filter (fun v => negb (is_set v)) required_vars))
      by (rewrite <- Hm; now left).
    apply filter_In in Hf. destruct Hf as [Hin Hs].
    exists m. split; [assumption|].
    unfold Cli.is_set in Hs. now destruct (getenv m).
Qed.

End ConfigFacts.

(** ** The ledger commands *)

Section LedgerCommands.

(** [sync-db] never changes a stored copy that is there: the staging
    file is first replaced by the stored copy, and that is what is
    synced back.  The staging file reaches the store only when the store
    holds no copy. *)
Theorem sync_db_keeps_stored_copy (s : session) (fs : ledger_files) :
  match storage_file fs with
  | Some stored =>
      storage_file (fst (sync_db s fs)) = Some stored
      /\ (snd (sync_db s fs) = Returned tt ->
          staging_file (fst (sync_db s fs)) = Some stored)
  | None =>
      forall l,
        staging_file fs = Some l ->
        snd (sync_db s fs) = Returned tt ->
        storage_file (fst (sync_db s fs)) = Some l
  end.
Proof.
  unfold sync_db, open_and_sync, sweepdb_init, sweepdb_sync.
  destruct fs as [staging storage]. simpl.
  destruct storage as [stored|].
  - destruct (load_env_config (getenv s)); simpl; [|now split].
    destruct staging; simpl; [|now split].
    destruct (sync_fails s); simpl; now split.
  - intros l ->.
    destruct (load_env_config (getenv s)); simpl; [|discriminate].
    destruct (sync_fails s); simpl; [discriminate | reflexivity].
Qed.

Lemma load_env_config_exit_code getenv code :
  load_env_config getenv = Exit code -> code = 1.
Proof.
  unfold load_env_config.
  destruct (collect_vars getenv required_vars [] []) as [config [|m missing]];
    [discriminate|]. now intros [= <-].
Qed.

(** What [init-db] leaves.  When it returns, either the overwrite was
    declined and nothing has changed, or the store holds what the
    staging file of the working directory held, and the empty ledger only
    when there was no staging file.  When it leaves with an exit code,
    the stored copy is as it was, or was removed after the overwrite was
    confirmed. *)
Theorem init_db_outcome (s : session) (fs : ledger_files) :
  match snd (init_db s fs) with
  | Returned _ =>
      (storage_file fs <> None /\ confirm_overwrite s = false /\
       fst (init_db s fs) = fs)
      \/ (storage_file (fst (init_db s fs))
          = Some match staging_file fs with
                 | Some l => l
                 | None => create_new_db
                 end
          /\ staging_file (fst (init_db s fs))
             = storage_file (fst (init_db s fs)))
  | Exit code =>
      code = 1
      /\ (storage_file (fst (init_db s fs)) = storage_file fs
          \/ (confirm_overwrite s = true /\
              storage_file (fst (init_db s fs)) = None))
  end.
Proof.
  unfold init_db, open_and_sync, sweepdb_init, sweepdb_sync.
  destruct fs as [staging storage]. simpl.
  pose proof (load_env_config_exit_code (getenv s)) as Hcfg.
  destruct (load_env_config (getenv s)) as [config|code]; simpl.
  - destruct storage as [stored|]; simpl.
    + destruct (confirm_overwrite s) eqn:Hc; simpl.
      * destruct (sync_fails s); simpl.
        -- split; [reflexivity|]. right. now split.
        -- right. now split.
      * left. repeat split. discriminate.
    + destruct (sync_fails s); simpl.
      * split; [reflexivity|]. now left.
      * right. now split.
  - rewrite (Hcfg code eq_refl). split; [reflexivity|]. now left.
Qed.

(** The ledger a sweep opens is the staging file [SweepDB.__init__]
    leaves, and the stored copy is not touched by it. *)
Lemma sweepdb_init_opens (fs : ledger_files) :
  staging_file (sweepdb_init fs) = Some (open_db fs)
  /\ storage_file (sweepdb_init fs) = storage_file fs.
Proof.
  unfold sweepdb_init, open_db.
  destruct (storage_file fs) as [stored|] eqn:Hs; simpl; [now split|].
  now destruct (staging_file fs).
Qed.

(** A staging file left in the working directory is what a confirmed
    [init-db] publishes. *)
Example init_db_publishes_leftover :
  init_db (mkSession (fun _ => Some "x") true false)
          (mkFiles (Some ledger7) (Some create_new_db))
  = (mkFiles (Some ledger7) (Some ledger7), Returned tt).
Proof. reflexivity. Qed.

End LedgerCommands.

(** ** The location the command hands over *)

Section CliPath.
Variable h : host.

Lemma parse_render_parse s : parse (render (parse s)) = parse s.
Proof.
  pose proof (tail_parse_clean s) as Hclean.
  pose proof (splitroot_roots s) as Hroot.
  unfold parse in *. destruct (splitroot s) as [r rel]. simpl in *.
  destruct Hroot as [->|Hroot].
  - now apply parse_render_relative.
  - now apply parse_render_rooted.
Qed.

(** The command [sweep] hands [str(Path(location))] to [run_sweep]; that
    text maps to the same canonical location as the text the operator
    typed, or fails as it does, and handing it over once more changes
    nothing. *)
Theorem sweep_location_same_target location mount :
  normalize_path_for_query h (sweep_location location) mount
  = normalize_path_for_query h location mount
  /\ sweep_location (sweep_location location) = sweep_location location.
Proof.
  unfold normalize_path_for_query, sweep_location.
  now rewrite !parse_render_parse.
Qed.

End CliPath.

(** ** Splitting a path into its parts *)

Section SplitPathFacts.

Lemma cut_at_last_slash_app p head tail :
  cut_at_last_slash p = Some (head, tail) -> p = (head ++ tail)%string.
Proof.
  revert head tail. induction p as [|a p IH]; simpl; intros head tail H;
    [discriminate|].
  destruct (cut_at_last_slash p) as [[h t]|].
  - injection H as <- <-. simpl. now rewrite (IH h t eq_refl).
  - destruct (Ascii.eqb a "/"); [|discriminate].
    now injection H as <- <-.
Qed.

Lemma cut_at_last_slash_none p :
  contains "/" p = false -> cut_at_last_slash p = None.
Proof.
  induction p as [|a p IH]; simpl; [reflexivity|].
  intros H. apply orb_false_iff in H. destruct H as [Ha Hp].
  now rewrite (IH Hp), Ha.
Qed.

Lemma rstrip_slashes_prefix s :
  exists t, s = (rstrip_slashes s ++ t)%string.
Proof.
  induction s as [|a s [t IH]]; simpl; [now exists EmptyString|].
  destruct (rstrip_slashes s) as [|b r] eqn:Hr.
  - destruct (Ascii.eqb a "/").
    + now exists (String a s).
    + exists s. reflexivity.
  - exists t. simpl. simpl in IH. now rewrite <- IH.
Qed.

Lemma os_path_split_prefix p :
  exists t, p = (fst (os_path_split p) ++ t)%string.
Proof.
  unfold os_path_split.
  destruct (cut_at_last_slash p) as [[head tail]|] eqn:Hc; simpl.
  - apply cut_at_last_slash_app in Hc. subst p.
    destruct (all_slashes head); [now exists tail|].
    destruct (rstrip_slashes_prefix head) as [t Ht].
    exists (t ++ tail)%string. rewrite Ht at 1.
    clear. induction (rstrip_slashes head) as [|a r IH]; simpl;
      [reflexivity | now rewrite IH].
  - now exists p.
Qed.

Lemma length_append a b :
  String.length (a ++ b) = (String.length a + String.length b)%nat.
Proof. induction a as [|c a IH]; simpl; [reflexivity | now rewrite IH]. Qed.

Lemma os_path_split_shorter p :
  String.eqb (fst (os_path_split p)) p = false ->
  (String.length (fst (os_path_split p)) < String.length p)%nat.
Proof.
  intros Hne. apply String.eqb_neq in Hne.
  destruct (os_path_split_prefix p) as [t Ht].
  destruct t as [|c t].
  - elim Hne. rewrite Ht at 2.
    clear. induction (fst (os_path_split p)) as [|a r IH]; simpl;
      [reflexivity | now rewrite <- IH].
  - rewrite Ht at 2. rewrite length_append. simpl. lia.
Qed.

Lemma split_other_loop_returns rounds : forall path allparts,
  (String.length path < rounds)%nat ->
  exists parts, split_other_loop rounds path allparts = Some parts.
Proof.
  induction rounds as [|rounds IH]; intros path allparts Hlen; [lia|].
  simpl.
  destruct (String.eqb (fst (os_path_split path)) path) eqn:H1; [eauto|].
  destruct (String.eqb (snd (os_path_split path)) path); [eauto|].
  apply IH. pose proof (os_path_split_shorter path H1). lia.
Qed.

(** [split_path] always returns: the loop of [split_other_path] ends for
    every text, within the rounds the model allows. *)
Theorem split_path_returns path :
  exists parts, split_path path = Some parts.
Proof.
  unfold split_path.
  destruct (detect_filepath_type path); [eauto| |];
    apply split_other_loop_returns; lia.
Qed.

Lemma append_assoc (a b c : string) :
  ((a ++ b) ++ c = a ++ (b ++ c))%string.
Proof. induction a as [|x a IH]; simpl; [reflexivity | now rewrite IH]. Qed.

Lemma append_empty (a : string) : (a ++ EmptyString)%string = a.
Proof. induction a as [|x a IH]; simpl; [reflexivity | now rewrite IH]. Qed.

Lemma contains_append c a b :
  contains c (a ++ b) = contains c a || contains c b.
Proof.
  induction a as [|x a IH]; simpl; [reflexivity|].
  now rewrite IH, orb_assoc.
Qed.

(** The loop of [split_windows_path] collects the non-empty pieces the
    backslashes cut the text into; the last piece is still in [curr_part]
    when the loop ends. *)
Lemma windows_loop_pieces filepath : forall curr_part parts,
  contains backslash curr_part = false ->
  (let (parts', curr) := windows_loop filepath curr_part parts in
   if nonempty curr then parts' ++ [curr] else parts') =
  parts ++ filter nonempty (split_on backslash (curr_part ++ filepath)).
Proof.
  induction filepath as [|char rest IH]; intros curr_part parts Hc.
  - simpl windows_loop. rewrite append_empty, (split_on_single _ _ Hc).
    simpl. destruct (nonempty curr_part); [reflexivity|].
    now rewrite app_nil_r.
  - simpl windows_loop. destruct (Ascii.eqb char backslash) eqn:Hb.
    + apply Ascii.eqb_eq in Hb. subst char.
      rewrite (split_on_app _ _ _ Hc). simpl filter.
      destruct (nonempty curr_part) eqn:Hn.
      * rewrite (IH EmptyString (parts ++ [curr_part]) eq_refl).
        simpl append. now rewrite <- app_assoc.
      * assert (curr_part = EmptyString) as ->.
        { unfold nonempty in Hn. apply negb_false_iff in Hn.
          now apply String.eqb_eq in Hn. }
        apply (IH EmptyString parts eq_refl).
    + assert (contains backslash (curr_part ++ String char EmptyString)
              = false) as Hc'.
      { rewrite contains_append, Hc. simpl. now rewrite Hb. }
      rewrite (IH _ parts Hc'), append_assoc. reflexivity.
Qed.

(** A path of the Windows type is cut into its drive and the non-empty
    texts between the backslashes that follow it. *)
Theorem split_path_windows c rest :
  matches_windows_pattern (String c (String ":" rest)) = true ->
  split_path (String c (String ":" rest)) =
  Some (String c (String ":" EmptyString)
        :: filter nonempty (split_on backslash rest)).
Proof.
  intros Hw. unfold split_path, detect_filepath_type. rewrite Hw.
  f_equal. unfold split_windows_path.
  assert (Ascii.eqb c backslash = false) as Hc.
  { destruct (Ascii.eqb c backslash) eqn:E; [|reflexivity].
    apply Ascii.eqb_eq in E. subst c. simpl in Hw.
    destruct rest as [|bs [|a r]]; discriminate. }
  rewrite Hc. cbn [andb]. rewrite Ascii.eqb_refl.
  pose proof (windows_loop_pieces rest EmptyString
                [String c (String ":" EmptyString)] eq_refl) as Hp.
  destruct (windows_loop rest EmptyString
              [String c (String ":" EmptyString)]) as [parts1 curr].
  simpl negb. cbn [andb]. exact Hp.
Qed.

Lemma split_path_windows_witness :
  split_path "N:\PPDO\\Records\49xx" =
  Some ["N:"; "PPDO"; "Records"; "49xx"]%string.
Proof.
  exact (split_path_windows "N" "\PPDO\\Records\49xx" eq_refl).
Defined.

Lemma eqb_longer (a b : string) :
  String.length a <> String.length b -> String.eqb a b = false.
Proof.
  intros H. apply String.eqb_neq. intros ->. now apply H.
Qed.

Lemma split_other_path_without_slash path :
  contains "/" path = false -> split_other_path path = Some [path].
Proof.
  intros Hs. unfold split_other_path. simpl split_other_loop.
  unfold os_path_split. rewrite (cut_at_last_slash_none _ Hs).
  cbn [fst snd]. destruct path as [|a path]; [reflexivity|].
  change (String.eqb EmptyString (String a path)) with false.
  cbv iota. now rewrite String.eqb_refl.
Qed.

(** A text without a slash that is not of the Windows type comes back as
    one part, whatever backslashes it has. *)
Theorem split_path_without_slash path :
  matches_windows_pattern path = false ->
  contains "/" path = false ->
  split_path path = Some [path].
Proof.
  intros Hw Hs. unfold split_path, detect_filepath_type. rewrite Hw.
  pose proof (split_other_path_without_slash path Hs) as Ho.
  now destruct (matches_linux_pattern path).
Qed.

Lemma split_path_without_slash_witness :
  split_path "Records\49xx" = Some ["Records\49xx"%string].
Proof.
  exact (split_path_without_slash "Records\49xx" eq_refl eq_refl).
Defined.

(** A UNC path is never of the Windows type, so the branch of
    [split_windows_path] for it is never taken by [split_path]: without a
    slash the whole path is the only part. *)
Theorem unc_path_is_one_part rest :
  detect_filepath_type (String backslash (String backslash rest)) = Unknown
  /\ (contains "/" rest = false ->
      split_path (String backslash (String backslash rest)) =
      Some [String backslash (String backslash rest)]).
Proof.
  assert (matches_windows_pattern
            (String backslash (String backslash rest)) = false) as Hw.
  { simpl. now destruct rest as [|bs [|a r]]. }
  split.
  - unfold detect_filepath_type. rewrite Hw. reflexivity.
  - intros Hs. unfold split_path, detect_filepath_type. rewrite Hw.
    cbn [matches_linux_pattern].
    change (Ascii.eqb backslash "/") with false. cbn [andb].
    apply split_other_path_without_slash.
    cbn [contains]. change (Ascii.eqb backslash "/") with false.
    exact Hs.
Qed.

Lemma unc_path_is_one_part_witness :
  detect_filepath_type "\\server\share" = Unknown
  /\ split_path "\\server\share" = Some ["\\server\share"%string].
Proof.
  destruct (unc_path_is_one_part "server\share") as [Htype Hparts].
  split; [exact Htype | exact (Hparts eq_refl)].
Defined.

Lemma rstrip_slashes_name s :
  ends_in_name s = true -> rstrip_slashes s = s.
Proof.
  induction s as [|a s IH]; [discriminate|].
  destruct s as [|b s].
  - simpl. intros H. apply negb_true_iff in H. now rewrite H.
  - intros H. change (ends_in_name (String b s) = true) in H.
    change (rstrip_slashes (String a (String b s)))
      with (match rstrip_slashes (String b s) with
            | EmptyString => if Ascii.eqb a "/" then EmptyString
                             else String a EmptyString
            | String c r => String a (String c r)
            end).
    now rewrite (IH H).
Qed.

Lemma rstrip_slashes_slash s :
  rstrip_slashes (s ++ "/") = rstrip_slashes s.
Proof.
  induction s as [|a s IH]; [reflexivity|].
  simpl. now rewrite IH.
Qed.

Lemma all_slashes_name s t :
  ends_in_name s = true -> all_slashes (s ++ t) = false.
Proof.
  induction s as [|a s IH]; [discriminate|].
  destruct s as [|b s].
  - simpl. intros H. apply negb_true_iff in H. now rewrite H.
  - intros H. change (ends_in_name (String b s) = true) in H.
    change (Ascii.eqb a "/" && all_slashes (String b s ++ t) = false).
    rewrite (IH H). apply andb_false_r.
Qed.

Lemma ends_in_name_append s t :
  ends_in_name t = true -> ends_in_name (s ++ t) = true.
Proof.
  intros H. induction s as [|a s IH]; [exact H|].
  simpl append. destruct (s ++ t)%string as [|b r] eqn:E;
    [discriminate | exact IH].
Qed.

Lemma ends_in_name_clean x : clean x = true -> ends_in_name x = true.
Proof.
  unfold clean, nonempty. intros H. apply andb_true_iff in H.
  destruct H as [Hn Hs]. apply negb_true_iff in Hs.
  induction x as [|a x IH]; [discriminate|].
  simpl in Hs. apply orb_false_iff in Hs. destruct Hs as [Ha Hx].
  destruct x as [|b x]; [simpl; now rewrite Ha|].
  now apply IH.
Qed.

Lemma cut_at_last_slash_last p x :
  contains "/" x = false ->
  cut_at_last_slash (p ++ String "/" x) = Some ((p ++ "/")%string, x).
Proof.
  intros Hx. induction p as [|a p IH]; simpl.
  - now rewrite (cut_at_last_slash_none _ Hx).
  - now rewrite IH.
Qed.

Lemma os_path_split_name p x :
  ends_in_name p = true -> contains "/" x = false ->
  os_path_split (p ++ String "/" x) = (p, x).
Proof.
  intros Hp Hx. unfold os_path_split.
  rewrite (cut_at_last_slash_last _ _ Hx), (all_slashes_name _ _ Hp),
    rstrip_slashes_slash, (rstrip_slashes_name _ Hp).
  reflexivity.
Qed.

(** One round of [split_other_path] takes the last part off. *)
Lemma split_other_loop_round rounds p x allparts :
  ends_in_name p = true -> contains "/" x = false ->
  split_other_loop (S rounds) (p ++ String "/" x) allparts =
  split_other_loop rounds p (x :: allparts).
Proof.
  intros Hp Hx. cbn [split_other_loop].
  rewrite (os_path_split_name _ _ Hp Hx). cbn [fst snd].
  rewrite !eqb_longer; [reflexivity| |];
    rewrite length_append; simpl; lia.
Qed.

Lemma join_snoc c segs x :
  segs <> [] -> join c (segs ++ [x]) = (join c segs ++ c ++ x)%string.
Proof.
  induction segs as [|y segs IH]; [congruence|]. intros _.
  destruct segs as [|z segs]; [reflexivity|].
  change (join c ((y :: z :: segs) ++ [x]))
    with (y ++ c ++ join c ((z :: segs) ++ [x]))%string.
  rewrite IH by discriminate.
  change (join c (y :: z :: segs)) with (y ++ c ++ join c (z :: segs))%string.
  now rewrite !append_assoc.
Qed.

Lemma clean_parts x :
  clean x = true -> nonempty x = true /\ contains "/" x = false.
Proof.
  unfold clean. intros H. apply andb_true_iff in H.
  destruct H as [Hn Hs]. now apply negb_true_iff in Hs.
Qed.

Lemma ends_in_name_join segs :
  segs <> [] -> forallb clean segs = true ->
  ends_in_name (join "/" segs) = true.
Proof.
  induction segs as [|x segs IH]; [congruence|]. intros _ H.
  simpl in H. apply andb_true_iff in H. destruct H as [Hx Hs].
  destruct segs as [|y segs]; [now apply ends_in_name_clean|].
  change (join "/" (x :: y :: segs))
    with (x ++ "/" ++ join "/" (y :: segs))%string.
  rewrite <- append_assoc. apply ends_in_name_append.
  now apply IH.
Qed.

Lemma split_other_loop_relative segs :
  segs <> [] -> forallb clean segs = true ->
  forall rounds allparts,
  (String.length (join "/" segs) < rounds)%nat ->
  split_other_loop rounds (join "/" segs) allparts = Some (segs ++ allparts).
Proof.
  induction segs as [|x segs IH] using rev_ind; [congruence|].
  intros _ Hc rounds allparts Hr.
  rewrite forallb_app in Hc. apply andb_true_iff in Hc.
  destruct Hc as [Hs Hx]. simpl in Hx. rewrite andb_true_r in Hx.
  destruct (clean_parts _ Hx) as [Hn Hsl].
  destruct rounds as [|rounds]; [lia|].
  destruct segs as [|y segs].
  - simpl app. simpl join. cbn [split_other_loop].
    unfold os_path_split. rewrite (cut_at_last_slash_none _ Hsl).
    cbn [fst snd]. destruct x as [|a x]; [discriminate|].
    change (String.eqb EmptyString (String a x)) with false.
    cbv iota. now rewrite String.eqb_refl.
  - rewrite join_snoc in * by discriminate.
    change ("/" ++ x)%string with (String "/" x) in *.
    rewrite split_other_loop_round;
      [|now apply ends_in_name_join|assumption].
    rewrite IH; [now rewrite <- app_assoc|discriminate|assumption|].
    rewrite length_append in Hr. cbn [String.length] in Hr. lia.
Qed.

Lemma split_other_loop_absolute segs :
  forallb clean segs = true ->
  forall rounds allparts,
  (String.length (String "/" (join "/" segs)) < rounds)%nat ->
  split_other_loop rounds (String "/" (join "/" segs)) allparts =
  Some (("/"%string :: segs) ++ allparts).
Proof.
  induction segs as [|x segs IH] using rev_ind;
    intros Hc rounds allparts Hr.
  - destruct rounds as [|rounds]; [simpl in Hr; lia|]. reflexivity.
  - rewrite forallb_app in Hc. apply andb_true_iff in Hc.
    destruct Hc as [Hs Hx]. simpl in Hx. rewrite andb_true_r in Hx.
    destruct (clean_parts _ Hx) as [Hn Hsl].
    destruct rounds as [|rounds]; [lia|].
    destruct segs as [|y segs].
    + simpl app. simpl join.
      assert (os_path_split (String "/" x) = ("/"%string, x)) as Hsplit.
      { unfold os_path_split.
        pose proof (cut_at_last_slash_last EmptyString x Hsl) as Hcut.
        cbn [append] in Hcut. now rewrite Hcut. }
      cbn [split_other_loop]. rewrite Hsplit. cbn [fst snd].
      destruct x as [|a x]; [discriminate|].
      rewrite !eqb_longer by (simpl; lia).
      destruct rounds as [|rounds]; [simpl in Hr; lia|]. reflexivity.
    + rewrite join_snoc in * by discriminate.
      change ("/" ++ x)%string with (String "/" x) in *.
      change (String "/" (join "/" (y :: segs) ++ String "/" x))
        with (String "/" (join "/" (y :: segs)) ++ String "/" x)%string in *.
      rewrite split_other_loop_round; [| |assumption].
      * rewrite IH; [|assumption|].
        -- simpl. now rewrite <- app_assoc.
        -- rewrite length_append in Hr. cbn [String.length] in Hr |- *.
           lia.
      * change (String "/" (join "/" (y :: segs)))
          with ("/" ++ join "/" (y :: segs))%string.
        apply ends_in_name_append. now apply ends_in_name_join.
Qed.

(** Splitting gives back the parts a rooted path was joined from. *)
Theorem split_path_of_joined_rooted segs :
  forallb clean segs = true ->
  split_path (String "/" (join "/" segs)) = Some ("/"%string :: segs).
Proof.
  intros Hc. unfold split_path, detect_filepath_type.
  assert (matches_windows_pattern (String "/" (join "/" segs)) = false)
    as Hw by (simpl; now destruct (join "/" segs) as [|? [|? [|? ?]]]).
  rewrite Hw.
  assert (split_other_path (String "/" (join "/" segs))
          = Some ("/"%string :: segs)) as Ho.
  { unfold split_other_path.
    rewrite (split_other_loop_absolute segs Hc) by lia.
    now rewrite app_nil_r. }
  now destruct (matches_linux_pattern _).
Qed.

Lemma split_path_of_joined_rooted_witness :
  split_path "/mnt/records/49xx/plan.pdf" =
  Some ["/"; "mnt"; "records"; "49xx"; "plan.pdf"]%string.
Proof.
  exact (split_path_of_joined_rooted
           ["mnt"; "records"; "49xx"; "plan.pdf"]%string eq_refl).
Defined.

(** Splitting gives back the parts a relative path was joined from, when
    the path is not of the Windows type. *)
Theorem split_path_of_joined_relative segs :
  segs <> [] ->
  forallb clean segs = true ->
  matches_windows_pattern (join "/" segs) = false ->
  split_path (join "/" segs) = Some segs.
Proof.
  intros Hne Hc Hw. unfold split_path, detect_filepath_type. rewrite Hw.
  assert (split_other_path (join "/" segs) = Some segs) as Ho.
  { unfold split_other_path.
    rewrite (split_other_loop_relative segs Hne Hc) by lia.
    now rewrite app_nil_r. }
  now destruct (matches_linux_pattern _).
Qed.

Lemma split_path_of_joined_relative_witness :
  split_path "49xx/4932/plan.pdf" = Some ["49xx"; "4932"; "plan.pdf"]%string.
Proof.
  refine (split_path_of_joined_relative
            ["49xx"; "4932"; "plan.pdf"]%string _ eq_refl eq_refl).
  discriminate.
Defined.

End SplitPathFacts.

(** ** The filters the module ships with *)

Section ShippedFilters.

Lemma endswith_suffix s suffix :
  endswith s suffix = true <-> exists stem, s = (stem ++ suffix)%string.
Proof.
  split.
  - induction s as [|a s IH]; cbn [endswith].
    + rewrite orb_false_r. intros H. apply String.eqb_eq in H.
      exists EmptyString. now subst.
    + intros H. apply orb_true_iff in H. destruct H as [H|H].
      * apply String.eqb_eq in H. exists EmptyString. now subst.
      * destruct (IH H) as [stem ->]. now exists (String a stem).
  - intros [stem ->]. induction stem as [|a stem IH].
    + cbn [append]. destruct suffix; cbn [endswith];
        now rewrite String.eqb_refl.
    + cbn [append endswith]. rewrite IH. apply orb_true_r.
Qed.

(** As shipped, the list of active filters holds [no_filter] only, and the
    filter stage of a sweep hands every record on.  With the CAD filter
    switched on, the records dropped are those whose file name, in lower
    case, ends in one of the four extensions. *)
Theorem shipped_filters_exclude_nothing records :
  apply_filters ACTIVE_FILTERS records = records
  /\ forall r,
       In r (apply_filters (ACTIVE_FILTERS ++ [exclude_cad_fonts]) records)
       <-> In r records
           /\ forall ext stem,
                In ext [".shx"; ".lin"; ".pat"; ".pcx"]%string ->
                lower (filename r) <> (stem ++ ext)%string.
Proof.
  split.
  - induction records as [|r records IH]; simpl; [reflexivity|].
    now rewrite IH.
  - intros r. induction records as [|x records IH]; simpl.
    + tauto.
    + unfold no_filter at 1.
      destruct (exclude_cad_fonts x) eqn:Hx; simpl; rewrite IH.
      * split; [tauto|]. intros [[->|Hin] Hno]; [|tauto].
        exfalso. unfold exclude_cad_fonts in Hx.
        apply existsb_exists in Hx. destruct Hx as [ext [Hin Hend]].
        apply endswith_suffix in Hend. destruct Hend as [stem Hs].
        exact (Hno ext stem Hin Hs).
      * split; [|tauto]. intros [<-|[Hin Hno]]; [|tauto].
        split; [now left|]. intros ext stem Hin Hs.
        unfold exclude_cad_fonts in Hx.
        assert (existsb (endswith (lower (filename x)))
                        [".shx"; ".lin"; ".pat"; ".pcx"]%string = true) as Ht.
        { apply existsb_exists. exists ext. split; [exact Hin|].
          apply endswith_suffix. now exists stem. }
        congruence.
Qed.

End ShippedFilters.
